(** * Porto container property engine: a shallow embedding

    The development follows the two source files of the repository:

    - [src/util/string.cpp]: the value codecs (trimming, escaped tuples,
      flag masks, string maps, booleans);
    - [src/property.cpp]: the state guards, controller activation and the
      property setters and getters.

    C++ strings are [string], [uint64_t] values are [Z] with the wrap-around
    written out, [double] is the kernel's binary64 [float], [std::vector] is
    [list], and [std::map<string, string>] is a key-ordered association list
    (iteration order decides which error a setter reports).  A [TError] is
    modelled by its kind; the message text is left out.  Functions that
    write through [CurrentContainer] take the container and return it next
    to the error, so that a write made before a failure stays visible. *)

From Stdlib Require Import ZArith Lia List Ascii String Bool DecimalString.
From Stdlib Require Import Floats.PrimFloat.
From Stdlib Require HexadecimalString.
Import ListNotations.

Local Open Scope string_scope.
Local Open Scope Z_scope.

(* ===================================================================== *)
(** ** Error kinds *)
(* ===================================================================== *)

Inductive EError : Type :=
| Success
| Unknown
| InvalidValue
| InvalidState
| InvalidProperty
| Permission
| NotSupported
| ResourceNotAvailable.

(** [if (error)] in the source: true for every kind but [Success]. *)
Definition is_error (e : EError) : bool :=
  match e with Success => false | _ => true end.

(** A value returned through a C++ out-parameter next to a [TError]. *)
Inductive Result (A : Type) : Type :=
| Ok (a : A)
| Err (e : EError).
Arguments Ok {A} a.
Arguments Err {A} e.

(* ===================================================================== *)
(** ** util/string.cpp *)
(* ===================================================================== *)

Module Str.

Local Open Scope string_scope.

Definition TTuple := list string.
Definition TMultiTuple := list TTuple.

(** [TFlagsNames]: the (mask, name) table of a flag property. *)
Definition TFlagsNames := list (Z * string).

Definition backslash : ascii := "\"%char.
Definition NUL : ascii := "000"%char.

(** A [char] used as a condition ([sep_outer && ...]). *)
Definition char_true (c : ascii) : bool := negb (Ascii.eqb c NUL).

(** [StringToBool]: the two literals, anything else is an error of kind
    [Unknown]. *)
Definition StringToBool (str : string) : Result bool :=
  if str =? "true" then Ok true
  else if str =? "false" then Ok false
  else Err Unknown.

Definition BoolToString (value : bool) : string :=
  if value then "true" else "false".

(** *** StringTrim *)

Fixpoint contains (what : string) (c : ascii) : bool :=
  match what with
  | "" => false
  | String w what' => Ascii.eqb w c || contains what' c
  end.

(** [s.find_first_not_of(what)]; [None] is [npos]. *)
Fixpoint find_first_not_of (what s : string) : option nat :=
  match s with
  | "" => None
  | String c r =>
      if contains what c then option_map S (find_first_not_of what r)
      else Some 0%nat
  end.

(** [s.find_last_not_of(what)]. *)
Fixpoint find_last_not_of (what s : string) : option nat :=
  match s with
  | "" => None
  | String c r =>
      match find_last_not_of what r with
      | Some i => Some (S i)
      | None => if contains what c then None else Some 0%nat
      end
  end.

Definition StringTrim (s what : string) : string :=
  match find_first_not_of what s, find_last_not_of what s with
  | Some first, Some last => substring first (last - first + 1) s
  | _, _ => ""
  end.

(** Modelled from the spec: the default of [StringTrim]'s second argument is
    declared in util/string.hpp, which is not among the sources; the spec
    speaks of trimming whitespace: blank, tab and newline. *)
Definition default_what : string :=
  String " " (String (ascii_of_nat 9) (String (ascii_of_nat 10) "")).

(** *** StringReplaceAll

    [copy.find(from, n)] then [copy.replace] then [n += to.size()]: a left to
    right scan that never looks again at what it wrote.  [skip] counts the
    characters of a match still to be dropped.  Every caller passes a
    one-character [from]; for an empty [from] the C++ loop does not end, and
    the model is not meant for it. *)
Fixpoint replace_scan (from to : string) (skip : nat) (s : string) : string :=
  match s with
  | "" => ""
  | String c r =>
      match skip with
      | S k => replace_scan from to k r
      | O =>
          if prefix from s
          then to ++ replace_scan from to (String.length from - 1) r
          else String c (replace_scan from to 0 r)
      end
  end.

Definition StringReplaceAll (str from to : string) : string :=
  replace_scan from to 0 str.

(** *** SplitEscapedString

    The vector [tuples] is never empty inside the loop; its last element
    [tuples.back()] is carried as [back], the tuples before it as [done].
    [ss] is the string stream, [i] the rest of the input from the iterator
    on.  At [i == str.end()] the first branch is taken whatever [*i] reads. *)

Definition push_token (ss : string) (back : TTuple) : TTuple :=
  let s := StringTrim ss default_what in
  if (0 <? String.length s)%nat then (back ++ [s])%list else back.

Definition escapable (sep_inner sep_outer n : ascii) : bool :=
  Ascii.eqb n backslash || Ascii.eqb n sep_inner ||
  (char_true sep_outer && Ascii.eqb n sep_outer).

Definition nonempty {A : Type} (l : list A) : bool :=
  match l with [] => false | _ => true end.

Fixpoint split_loop (sep_inner sep_outer : ascii) (i ss : string)
    (done : TMultiTuple) (back : TTuple) : TMultiTuple :=
  match i with
  | "" =>
      let back := push_token ss back in
      if nonempty back then (done ++ [back])%list else done
  | String c rest =>
      if Ascii.eqb c sep_inner || (char_true sep_outer && Ascii.eqb c sep_outer)
      then
        let back := push_token ss back in
        if (char_true sep_outer && Ascii.eqb c sep_outer) && nonempty back
        then split_loop sep_inner sep_outer rest "" (done ++ [back])%list []
        else split_loop sep_inner sep_outer rest "" done back
      else
        match rest with
        | String n rest' =>
            if Ascii.eqb c backslash && escapable sep_inner sep_outer n
            then split_loop sep_inner sep_outer rest' (ss ++ String n "") done back
            else split_loop sep_inner sep_outer rest (ss ++ String c "") done back
        | "" =>
            (* a backslash at the very end goes into the string *)
            split_loop sep_inner sep_outer rest (ss ++ String c "") done back
        end
  end.

(** [SplitEscapedString(str, tuples, sep_inner, sep_outer)]: [tuples] is the
    vector passed by reference, the result is its value on return. *)
Definition SplitEscapedString (str : string) (tuples : TMultiTuple)
    (sep_inner sep_outer : ascii) : TMultiTuple :=
  split_loop sep_inner sep_outer str "" tuples [].

(** The [TTuple] overload: the first tuple of a split without outer
    separator; [tuple] is left as it was when there is none. *)
Definition SplitEscapedString_tuple (str : string) (tuple : TTuple)
    (sep : ascii) : TTuple :=
  match SplitEscapedString str [] sep NUL with
  | [] => tuple
  | front :: _ => front
  end.

(** *** MergeEscapeStrings *)

Definition escape (sep_inner sep_outer : ascii) (str : string) : string :=
  let ssp_inner := String sep_inner "" in
  let rep_inner := String backslash ssp_inner in
  let spp_outer := String sep_outer "" in
  let rep_outer := String backslash spp_outer in
  let escaped := StringReplaceAll str (String backslash "")
                   (String backslash (String backslash "")) in
  let escaped := StringReplaceAll escaped ssp_inner rep_inner in
  if char_true sep_outer then StringReplaceAll escaped spp_outer rep_outer
  else escaped.

(** The inner [for] loop over one tuple; [first_inner] is its flag. *)
Fixpoint merge_tuple (sep_inner sep_outer : ascii) (tuple : TTuple)
    (first_inner : bool) : string :=
  match tuple with
  | [] => ""
  | str :: tuple' =>
      (if first_inner then "" else String sep_inner "")
      ++ escape sep_inner sep_outer str
      ++ merge_tuple sep_inner sep_outer tuple' false
  end.

(** The outer [for] loop; without outer separator it breaks after the first
    tuple. *)
Fixpoint merge_loop (sep_inner sep_outer : ascii) (tuples : TMultiTuple)
    (first_outer : bool) : string :=
  match tuples with
  | [] => ""
  | tuple :: tuples' =>
      (if nonempty tuple
       then (if first_outer then "" else String sep_outer "")
            ++ merge_tuple sep_inner sep_outer tuple true
       else "")
      ++ (if char_true sep_outer
          then merge_loop sep_inner sep_outer tuples'
                 (first_outer && negb (nonempty tuple))
          else "")
  end.

Definition MergeEscapeStrings (tuples : TMultiTuple)
    (sep_inner sep_outer : ascii) : string :=
  merge_loop sep_inner sep_outer tuples true.

Definition MergeEscapeStrings_tuple (tuple : TTuple) (sep : ascii) : string :=
  MergeEscapeStrings [tuple] sep NUL.

(** *** StringParseFlags

    [while (std::getline(ss, name, sep))]: the pieces between separators; a
    last piece is read only if it has at least one character. *)
Fixpoint getlines (sep : ascii) (s tok : string) : list string :=
  match s with
  | "" => if (0 <? String.length tok)%nat then [tok] else []
  | String c r =>
      if Ascii.eqb c sep then tok :: getlines sep r ""
      else getlines sep r (tok ++ String c "")
  end.

Fixpoint find_flag (names : TFlagsNames) (name : string) : option Z :=
  match names with
  | [] => None
  | (mask, n) :: names' => if n =? name then Some mask else find_flag names' name
  end.

Fixpoint parse_flags_loop (names : TFlagsNames) (toks : list string)
    (result : Z) : Result Z :=
  match toks with
  | [] => Ok result
  | name :: toks' =>
      match find_flag names (StringTrim name default_what) with
      | Some mask => parse_flags_loop names toks' (Z.lor result mask)
      | None => Err InvalidValue
      end
  end.

Definition StringParseFlags (str : string) (names : TFlagsNames)
    (sep : ascii) : Result Z :=
  parse_flags_loop names (getlines sep str "") 0.

(** *** TStringMap: [std::map<std::string, std::string>]

    Kept as a list ordered by key, the order in which the C++ map is
    iterated. *)
Definition TStringMap := list (string * string).

Fixpoint map_find (m : TStringMap) (k : string) : option string :=
  match m with
  | [] => None
  | (k', v) :: m' => if k =? k' then Some v else map_find m' k
  end.

(** [m[k] = v] *)
Fixpoint map_assign (m : TStringMap) (k v : string) : TStringMap :=
  match m with
  | [] => [(k, v)]
  | (k', v') :: m' =>
      match String.compare k k' with
      | Lt => (k, v) :: m
      | Eq => (k, v) :: m'
      | Gt => (k', v') :: map_assign m' k v
      end
  end.

(** [m.erase(k)] *)
Fixpoint map_erase (m : TStringMap) (k : string) : TStringMap :=
  match m with
  | [] => []
  | (k', v') :: m' => if k =? k' then m' else (k', v') :: map_erase m' k
  end.

(** [StringToStringMap(value, result)]: [result] is the map passed by
    reference. *)
Fixpoint string_map_loop (lines : list string) (result : TStringMap)
    : Result TStringMap :=
  match lines with
  | [] => Ok result
  | line :: lines' =>
      match SplitEscapedString_tuple line [] ":" with
      | [n0; n1] =>
          let key := StringTrim n0 default_what in
          let val := StringTrim n1 default_what in
          string_map_loop lines' (map_assign result key val)
      | _ => Err InvalidValue
      end
  end.

Definition StringToStringMap (value : string) (result : TStringMap)
    : Result TStringMap :=
  string_map_loop (SplitEscapedString_tuple value [] ";") result.

End Str.


Import Str.

(* ===================================================================== *)
(** ** The container record and the host *)
(* ===================================================================== *)

(** Modelled from the spec: the lifecycle states (container.hpp is not
    among the sources); the setters only compare with [Stopped] and
    [Dead]. *)
Inductive EContainerState : Type :=
| Stopped | Starting | Running | Paused | Dead.

Inductive EVirtMode : Type := VIRT_MODE_APP | VIRT_MODE_OS.

(** The values of [EProperty] that the setters below pass to [SetProp]. *)
Inductive EProperty : Type :=
| NONE
| CAPABILITIES
| CAPABILITIES_AMBIENT
| ULIMIT
| MEM_GUARANTEE
| MEM_LIMIT
| CPU_LIMIT
| BIND_DNS
| ISOLATE
| OOM_IS_FATAL
| CONTROLLERS.

Definition EProperty_eqb (a b : EProperty) : bool :=
  match a, b with
  | NONE, NONE | CAPABILITIES, CAPABILITIES
  | CAPABILITIES_AMBIENT, CAPABILITIES_AMBIENT | ULIMIT, ULIMIT
  | MEM_GUARANTEE, MEM_GUARANTEE | MEM_LIMIT, MEM_LIMIT
  | CPU_LIMIT, CPU_LIMIT | BIND_DNS, BIND_DNS | ISOLATE, ISOLATE
  | OOM_IS_FATAL, OOM_IS_FATAL | CONTROLLERS, CONTROLLERS => true
  | _, _ => false
  end.

(** [TCapabilities]: the bit set [Permitted], a [uint64_t]. *)
Record TCapabilities : Type := mkCaps { Permitted : Z }.

Record TCred : Type := mkCred { Uid : Z; Gid : Z }.

(** Modelled from the spec: [TCred::IsRootUser] is declared in util/cred.hpp,
    which is not among the sources; the spec's host root is the user with
    uid 0. *)
Definition IsRootUser (cred : TCred) : bool := Uid cred =? 0.

(** The fields of [TContainer] that the modelled properties read or write.
    [Parent] is the chain of ancestors as a setter reads it; [PropSet] is the
    property presence bitmap. *)
#[warnings="-register-all"]
Inductive TContainer : Type := mkContainer {
  State : EContainerState;
  Parent : option TContainer;
  OwnerCred : TCred;
  VirtMode : EVirtMode;
  Controllers : Z;
  RequiredControllers : Z;
  CapLimit : TCapabilities;
  CapAmbient : TCapabilities;
  CapAllowed : TCapabilities;
  Ulimit : TStringMap;
  MemLimit : Z;
  MemGuarantee : Z;
  NewMemGuarantee : Z;
  CpuLimit : float;
  BindDns : bool;
  Isolate : bool;
  OomIsFatal : bool;
  OomKilled : bool;
  ExitStatus : Z;
  PropSet : EProperty -> bool
}.

Definition set_Controllers (v : Z) (c : TContainer) : TContainer :=
  mkContainer (State c) (Parent c) (OwnerCred c) (VirtMode c) v
    (RequiredControllers c) (CapLimit c) (CapAmbient c) (CapAllowed c)
    (Ulimit c) (MemLimit c) (MemGuarantee c) (NewMemGuarantee c)
    (CpuLimit c) (BindDns c) (Isolate c) (OomIsFatal c) (OomKilled c)
    (ExitStatus c) (PropSet c).

Definition set_RequiredControllers (v : Z) (c : TContainer) : TContainer :=
  mkContainer (State c) (Parent c) (OwnerCred c) (VirtMode c)
    (Controllers c) v (CapLimit c) (CapAmbient c) (CapAllowed c) (Ulimit c)
    (MemLimit c) (MemGuarantee c) (NewMemGuarantee c) (CpuLimit c)
    (BindDns c) (Isolate c) (OomIsFatal c) (OomKilled c) (ExitStatus c)
    (PropSet c).

Definition set_CapLimit (v : TCapabilities) (c : TContainer) : TContainer :=
  mkContainer (State c) (Parent c) (OwnerCred c) (VirtMode c)
    (Controllers c) (RequiredControllers c) v (CapAmbient c) (CapAllowed c)
    (Ulimit c) (MemLimit c) (MemGuarantee c) (NewMemGuarantee c)
    (CpuLimit c) (BindDns c) (Isolate c) (OomIsFatal c) (OomKilled c)
    (ExitStatus c) (PropSet c).

Definition set_CapAmbient (v : TCapabilities) (c : TContainer) : TContainer :=
  mkContainer (State c) (Parent c) (OwnerCred c) (VirtMode c)
    (Controllers c) (RequiredControllers c) (CapLimit c) v (CapAllowed c)
    (Ulimit c) (MemLimit c) (MemGuarantee c) (NewMemGuarantee c)
    (CpuLimit c) (BindDns c) (Isolate c) (OomIsFatal c) (OomKilled c)
    (ExitStatus c) (PropSet c).

Definition set_CapAllowed (v : TCapabilities) (c : TContainer) : TContainer :=
  mkContainer (State c) (Parent c) (OwnerCred c) (VirtMode c)
    (Controllers c) (RequiredControllers c) (CapLimit c) (CapAmbient c) v
    (Ulimit c) (MemLimit c) (MemGuarantee c) (NewMemGuarantee c)
    (CpuLimit c) (BindDns c) (Isolate c) (OomIsFatal c) (OomKilled c)
    (ExitStatus c) (PropSet c).

Definition set_Ulimit (v : TStringMap) (c : TContainer) : TContainer :=
  mkContainer (State c) (Parent c) (OwnerCred c) (VirtMode c)
    (Controllers c) (RequiredControllers c) (CapLimit c) (CapAmbient c)
    (CapAllowed c) v (MemLimit c) (MemGuarantee c) (NewMemGuarantee c)
    (CpuLimit c) (BindDns c) (Isolate c) (OomIsFatal c) (OomKilled c)
    (ExitStatus c) (PropSet c).

Definition set_MemLimit (v : Z) (c : TContainer) : TContainer :=
  mkContainer (State c) (Parent c) (OwnerCred c) (VirtMode c)
    (Controllers c) (RequiredControllers c) (CapLimit c) (CapAmbient c)
    (CapAllowed c) (Ulimit c) v (MemGuarantee c) (NewMemGuarantee c)
    (CpuLimit c) (BindDns c) (Isolate c) (OomIsFatal c) (OomKilled c)
    (ExitStatus c) (PropSet c).

Definition set_MemGuarantee (v : Z) (c : TContainer) : TContainer :=
  mkContainer (State c) (Parent c) (OwnerCred c) (VirtMode c)
    (Controllers c) (RequiredControllers c) (CapLimit c) (CapAmbient c)
    (CapAllowed c) (Ulimit c) (MemLimit c) v (NewMemGuarantee c)
    (CpuLimit c) (BindDns c) (Isolate c) (OomIsFatal c) (OomKilled c)
    (ExitStatus c) (PropSet c).

Definition set_NewMemGuarantee (v : Z) (c : TContainer) : TContainer :=
  mkContainer (State c) (Parent c) (OwnerCred c) (VirtMode c)
    (Controllers c) (RequiredControllers c) (CapLimit c) (CapAmbient c)
    (CapAllowed c) (Ulimit c) (MemLimit c) (MemGuarantee c) v (CpuLimit c)
    (BindDns c) (Isolate c) (OomIsFatal c) (OomKilled c) (ExitStatus c)
    (PropSet c).

Definition set_CpuLimit (v : float) (c : TContainer) : TContainer :=
  mkContainer (State c) (Parent c) (OwnerCred c) (VirtMode c)
    (Controllers c) (RequiredControllers c) (CapLimit c) (CapAmbient c)
    (CapAllowed c) (Ulimit c) (MemLimit c) (MemGuarantee c)
    (NewMemGuarantee c) v (BindDns c) (Isolate c) (OomIsFatal c)
    (OomKilled c) (ExitStatus c) (PropSet c).

Definition set_BindDns (v : bool) (c : TContainer) : TContainer :=
  mkContainer (State c) (Parent c) (OwnerCred c) (VirtMode c)
    (Controllers c) (RequiredControllers c) (CapLimit c) (CapAmbient c)
    (CapAllowed c) (Ulimit c) (MemLimit c) (MemGuarantee c)
    (NewMemGuarantee c) (CpuLimit c) v (Isolate c) (OomIsFatal c)
    (OomKilled c) (ExitStatus c) (PropSet c).

Definition set_Isolate (v : bool) (c : TContainer) : TContainer :=
  mkContainer (State c) (Parent c) (OwnerCred c) (VirtMode c)
    (Controllers c) (RequiredControllers c) (CapLimit c) (CapAmbient c)
    (CapAllowed c) (Ulimit c) (MemLimit c) (MemGuarantee c)
    (NewMemGuarantee c) (CpuLimit c) (BindDns c) v (OomIsFatal c)
    (OomKilled c) (ExitStatus c) (PropSet c).

Definition set_OomIsFatal (v : bool) (c : TContainer) : TContainer :=
  mkContainer (State c) (Parent c) (OwnerCred c) (VirtMode c)
    (Controllers c) (RequiredControllers c) (CapLimit c) (CapAmbient c)
    (CapAllowed c) (Ulimit c) (MemLimit c) (MemGuarantee c)
    (NewMemGuarantee c) (CpuLimit c) (BindDns c) (Isolate c) v (OomKilled c)
    (ExitStatus c) (PropSet c).

Definition set_PropSet (v : EProperty -> bool) (c : TContainer) : TContainer :=
  mkContainer (State c) (Parent c) (OwnerCred c) (VirtMode c)
    (Controllers c) (RequiredControllers c) (CapLimit c) (CapAmbient c)
    (CapAllowed c) (Ulimit c) (MemLimit c) (MemGuarantee c)
    (NewMemGuarantee c) (CpuLimit c) (BindDns c) (Isolate c) (OomIsFatal c)
    (OomKilled c) (ExitStatus c) v.

(** [CurrentContainer->SetProp(prop)] *)
Definition SetProp (prop : EProperty) (c : TContainer) : TContainer :=
  set_PropSet (fun p => if EProperty_eqb p prop then true else PropSet c p) c.

Definition HasProp (prop : EProperty) (c : TContainer) : bool := PropSet c prop.

(** [CurrentClient]: the principal of the request. *)
Record TClient : Type := mkClient { IsSuperUser : bool }.

(** What the property engine takes from the rest of the daemon and from the
    host: constants of headers that are not among the sources, libc's
    number parsing, and the collaborators of spec section 6.

    - [size_of_string] is the value [StringToSize] computes ([strtod], a
      product of doubles and the conversion to [uint64_t]), [None] when it
      reports an error;
    - [cpu_of_string] likewise for [StringToCpuValue];
    - [SanitizeCapabilities] is the container's method of that name. *)
Record THost : Type := mkHost {
  CGROUP_MEMORY : Z;
  CGROUP_CPU : Z;
  ControllersName : TFlagsNames;
  AllCapabilities : TCapabilities;
  OsModeCapabilities : TCapabilities;
  SuidCapabilities : TCapabilities;
  CapParse : string -> Result TCapabilities;
  SanitizeCapabilities : TClient -> TContainer -> TContainer;
  ParseUlimit : string -> string -> EError;
  size_of_string : string -> option Z;
  cpu_of_string : string -> option float;
  GetTotalMemory : Z;
  min_memory_limit : Z;
  memory_guarantee_reserve : Z
}.

(** *** 64-bit unsigned arithmetic *)

Definition wrap64 (x : Z) : Z := x mod 2 ^ 64.
Definition add64 (a b : Z) : Z := wrap64 (a + b).
(** [~x] on a [uint64_t] *)
Definition not64 (x : Z) : Z := Z.lxor x (Z.ones 64).
Definition uint64 (x : Z) : Prop := 0 <= x < 2 ^ 64.

(** [StringToSize] and [StringToCpuValue]: every error path of either
    returns [InvalidValue]. *)
Definition StringToSize (h : THost) (str : string) : Result Z :=
  match size_of_string h str with
  | Some size => Ok size
  | None => Err InvalidValue
  end.

Definition StringToCpuValue (h : THost) (str : string) : Result float :=
  match cpu_of_string h str with
  | Some value => Ok value
  | None => Err InvalidValue
  end.

(* ===================================================================== *)
(** ** util/string.cpp: predicates, fields, flag names and maps as text *)
(* ===================================================================== *)

Definition StringOnlyDigits (s : string) : bool :=
  match find_first_not_of "0123456789" s with
  | None => true
  | Some _ => false
  end.

(** [str.compare(pos, len, other)] is zero exactly when the [len] characters
    of [str] from [pos] on are [other]; the length test before it keeps
    [pos + len] inside [str]. *)
Definition StringStartsWith (str prefix : string) : bool :=
  if (String.length str <? String.length prefix)%nat then false
  else (substring 0 (String.length prefix) str =? prefix)%string.

Definition StringEndsWith (str sfx : string) : bool :=
  if (String.length str <? String.length sfx)%nat then false
  else (substring (String.length str - String.length sfx)
          (String.length sfx) str =? sfx)%string.

(** *** SplitString

    [std::getline(ss, tok, sep)] on what is left of the stream [ss]: it fails
    when nothing is left; otherwise it takes the characters up to the first
    [sep], which it consumes, or up to the end. *)
Fixpoint getline_scan (sep : ascii) (ss tok : string) : string * string :=
  match ss with
  | "" => (tok, "")
  | String c r =>
      if Ascii.eqb c sep then (tok, r)
      else getline_scan sep r (tok ++ String c "")
  end.

Definition getline (sep : ascii) (ss : string) : option (string * string) :=
  match ss with
  | "" => None
  | _ => Some (getline_scan sep ss "")
  end.

(** The delimiter of [std::getline(ss, rem)]. *)
Definition newline : ascii := ascii_of_nat 10.

(** The [while] loop.  [maxFields] is a [size_t], 64 bits wide, and
    [--maxFields] wraps.  Every turn takes at least one character from the
    stream, so [fuel] turns are enough for a stream of [fuel] characters. *)
Fixpoint SplitString_loop (fuel : nat) (sep : ascii) (ss : string)
    (tokens : list string) (maxFields : Z) : list string :=
  match fuel with
  | O => tokens
  | S fuel' =>
      match getline sep ss with
      | None => tokens
      | Some (tok, ss) =>
          let maxFields := wrap64 (maxFields - 1) in
          if maxFields =? 0
          then
            let (rem, ss) :=
              match getline newline ss with
              | Some (rem, ss) => (rem, ss)
              | None => (""%string, ss)
              end in
            let tok :=
              if (0 <? String.length rem)%nat then (tok ++ String sep rem)%string
              else tok in
            SplitString_loop fuel' sep ss (tokens ++ [tok])%list maxFields
          else SplitString_loop fuel' sep ss (tokens ++ [tok])%list maxFields
      end
  end.

(** [SplitString(s, sep, tokens, maxFields)]: [tokens] is the vector passed
    by reference. *)
Definition SplitString (s : string) (sep : ascii) (tokens : list string)
    (maxFields : Z) : EError * list string :=
  if maxFields =? 0 then (Unknown, tokens)
  else (Success, SplitString_loop (String.length s) sep s tokens maxFields).

(** *** StringFormatFlags

    [result << std::hex << flags]: the digits of [flags] in base 16, lower
    case, no prefix. *)
Definition hex (flags : Z) : string :=
  HexadecimalString.NilZero.string_of_uint (N.to_hex_uint (Z.to_N flags)).

(** The [for] loop over the table and the [if (flags)] after it; [first] is
    the flag of that name, [result] the stream. *)
Fixpoint format_flags_loop (names : TFlagsNames) (flags : Z) (first : bool)
    (sep result : string) : string :=
  match names with
  | [] =>
      if negb (flags =? 0)
      then ((if first then result else result ++ sep) ++ hex flags)%string
      else result
  | (mask, name) :: names' =>
      if negb (Z.land mask flags =? 0)
      then format_flags_loop names' (Z.land flags (not64 mask)) false sep
             ((if first then result else result ++ sep) ++ name)%string
      else format_flags_loop names' flags first sep result
  end.

Definition StringFormatFlags (flags : Z) (names : TFlagsNames) (sep : string)
    : string :=
  format_flags_loop names flags true sep "".

(** *** StringMapToString *)

Fixpoint map_to_string_loop (map : TStringMap) (str : string) : string :=
  match map with
  | [] => str
  | (first, second) :: map' =>
      let str := if (0 <? String.length str)%nat then (str ++ "; ")%string
                 else str in
      map_to_string_loop map' (str ++ first ++ ": " ++ second)%string
  end.

Definition StringMapToString (map : TStringMap) : string :=
  map_to_string_loop map "".

(* ===================================================================== *)
(** ** property.cpp: state guards and controller activation *)
(* ===================================================================== *)

Definition IsAliveAndStopped (c : TContainer) : EError :=
  match State c with Stopped => Success | _ => InvalidState end.

Definition IsAlive (c : TContainer) : EError :=
  match State c with Dead => InvalidState | _ => Success end.

Definition IsDead (c : TContainer) : EError :=
  match State c with Dead => Success | _ => InvalidState end.

Definition IsRunning (c : TContainer) : EError :=
  match State c with Stopped => InvalidState | _ => Success end.

(** [TProperty::WantControllers] *)
Definition WantControllers (c : TContainer) (controllers : Z)
    : EError * TContainer :=
  match State c with
  | Stopped =>
      let c := set_Controllers (Z.lor (Controllers c) controllers) c in
      let c := set_RequiredControllers
                 (Z.lor (RequiredControllers c) controllers) c in
      (Success, c)
  | _ =>
      if negb (Z.land (Controllers c) controllers =? controllers)
      then (NotSupported, c)
      else (Success, c)
  end.

(* ===================================================================== *)
(** ** property.cpp: capabilities *)
(* ===================================================================== *)

(** [for (auto p = CurrentContainer->GetParent(); p; p = p->GetParent())
       bound.Permitted &= p->CapLimit.Permitted;] *)
Fixpoint bound_by_ancestors (c : TContainer) (bound : Z) : Z :=
  match Parent c with
  | None => bound
  | Some p => bound_by_ancestors p (Z.land bound (Permitted (CapLimit p)))
  end.

(** The bound [TCapLimit::CommitLimit] computes before it compares. *)
Definition limit_bound (h : THost) (client : TClient) (c : TContainer) : Z :=
  let bound :=
    if IsSuperUser client then AllCapabilities h
    else match VirtMode c with
         | VIRT_MODE_OS => OsModeCapabilities h
         | VIRT_MODE_APP => SuidCapabilities h
         end in
  if negb (IsSuperUser client) || negb (IsRootUser (OwnerCred c))
  then bound_by_ancestors c (Permitted bound)
  else Permitted bound.

Definition TCapLimit_CommitLimit (h : THost) (client : TClient)
    (c : TContainer) (limit : TCapabilities) : EError * TContainer :=
  if is_error (IsAliveAndStopped c) then (IsAliveAndStopped c, c)
  else if negb (Z.land (Permitted limit)
                  (not64 (Permitted (AllCapabilities h))) =? 0)
  then (InvalidValue, c)
  else if negb (Z.land (Permitted limit)
                  (not64 (limit_bound h client c)) =? 0)
  then (Permission, c)
  else
    let c := set_CapLimit limit c in
    let c := SetProp CAPABILITIES c in
    (Success, SanitizeCapabilities h client c).

Definition TCapLimit_Set (h : THost) (client : TClient) (c : TContainer)
    (value : string) : EError * TContainer :=
  match CapParse h value with
  | Err error => (error, c)
  | Ok caps => TCapLimit_CommitLimit h client c caps
  end.

Definition TCapAmbient_CommitAmbient (h : THost) (client : TClient)
    (c : TContainer) (ambient : TCapabilities) : EError * TContainer :=
  if is_error (IsAliveAndStopped c) then (IsAliveAndStopped c, c)
  else if negb (Z.land (Permitted ambient)
                  (not64 (Permitted (AllCapabilities h))) =? 0)
  then (InvalidValue, c)
  else
    (* check allowed ambient capabilities *)
    let limit := CapAllowed c in
    if negb (Z.land (Permitted ambient) (not64 (Permitted limit)) =? 0)
       && negb (IsSuperUser client)
    then (Permission, c)
    else
      (* try to raise capabilities limit if required *)
      let limit := CapLimit c in
      let (error, c) :=
        if negb (Z.land (Permitted ambient) (not64 (Permitted limit)) =? 0)
        then TCapLimit_CommitLimit h client c
               (mkCaps (Z.lor (Permitted limit) (Permitted ambient)))
        else (Success, c) in
      if is_error error then (error, c)
      else
        let c := set_CapAmbient ambient c in
        let c := SetProp CAPABILITIES_AMBIENT c in
        (Success, SanitizeCapabilities h client c).

Definition TCapAmbient_Set (h : THost) (client : TClient) (c : TContainer)
    (value : string) : EError * TContainer :=
  match CapParse h value with
  | Err error => (error, c)
  | Ok caps => TCapAmbient_CommitAmbient h client c caps
  end.

(** Bit numbers of <linux/capability.h>. *)
Definition CAP_NET_BIND_SERVICE : Z := 10.
Definition CAP_NET_ADMIN : Z := 12.
Definition BIT (n : Z) : Z := Z.shiftl 1 n.

(** Modelled from the spec: [TContainer::SanitizeCapabilities] is in
    container.cpp, which is not among the sources.  Spec 4.2 and 4.6: the
    allowed set starts from all capabilities for a superuser, else from the
    os-mode or the suid set, and is intersected with every ancestor's limit
    unless the principal and the owner are both host root; the ambient set
    is clamped to it; the limit is preserved. *)
Definition SanitizeCapabilities_spec (h : THost) (client : TClient)
    (c : TContainer) : TContainer :=
  let allowed := mkCaps (limit_bound h client c) in
  let c := set_CapAllowed allowed c in
  set_CapAmbient
    (mkCaps (Z.land (Permitted (CapAmbient c)) (Permitted allowed))) c.

(* ===================================================================== *)
(** ** property.cpp: ulimit *)
(* ===================================================================== *)

(** [for (auto &it: map) { error = ParseUlimit(...); if (error) return error; }] *)
Fixpoint check_ulimits (h : THost) (map : TStringMap) : EError :=
  match map with
  | [] => Success
  | (first, second) :: map' =>
      if is_error (ParseUlimit h first second) then ParseUlimit h first second
      else check_ulimits h map'
  end.

Definition TUlimit_Set (h : THost) (c : TContainer) (value : string)
    : EError * TContainer :=
  if is_error (IsAlive c) then (IsAlive c, c)
  else
    match StringToStringMap value [] with
    | Err error => (error, c)
    | Ok map =>
        if is_error (check_ulimits h map) then (check_ulimits h map, c)
        else (Success, SetProp ULIMIT (set_Ulimit map c))
    end.

Definition TUlimit_SetIndexed (h : THost) (c : TContainer)
    (index value : string) : EError * TContainer :=
  if (value =? "")%string
  then (Success, SetProp ULIMIT (set_Ulimit (map_erase (Ulimit c) index) c))
  else if is_error (ParseUlimit h index value)
  then (ParseUlimit h index value, c)
  else (Success,
        SetProp ULIMIT (set_Ulimit (map_assign (Ulimit c) index value) c)).

Definition TUlimit_GetIndexed (c : TContainer) (index : string) : string :=
  match map_find (Ulimit c) index with
  | Some second => second
  | None => ""
  end.

(* ===================================================================== *)
(** ** property.cpp: memory limit, booleans, controllers, cpu limit *)
(* ===================================================================== *)

Definition TMemoryLimit_Set (h : THost) (c : TContainer) (limit : string)
    : EError * TContainer :=
  if is_error (IsAlive c) then (IsAlive c, c)
  else
    let (error, c) := WantControllers c (CGROUP_MEMORY h) in
    if is_error error then (error, c)
    else
      match StringToSize h limit with
      | Err error => (error, c)
      | Ok new_size =>
          if negb (new_size =? 0) && (new_size <? min_memory_limit h)
          then (InvalidValue, c)
          else if negb (MemLimit c =? new_size)
          then (Success, SetProp MEM_LIMIT (set_MemLimit new_size c))
          else (Success, c)
      end.

Definition TBindDns_Get (c : TContainer) : string := BoolToString (BindDns c).

Definition TBindDns_Set (c : TContainer) (value : string)
    : EError * TContainer :=
  if is_error (IsAliveAndStopped c) then (IsAliveAndStopped c, c)
  else
    match StringToBool value with
    | Err error => (error, c)
    | Ok b => (Success, SetProp BIND_DNS (set_BindDns b c))
    end.

Definition TOomIsFatal_Set (c : TContainer) (value : string)
    : EError * TContainer :=
  if is_error (IsAlive c) then (IsAlive c, c)
  else
    match StringToBool value with
    | Err error => (error, c)
    | Ok b => (Success, SetProp OOM_IS_FATAL (set_OomIsFatal b c))
    end.

Definition TIsolate_Set (c : TContainer) (isolate_needed : string)
    : EError * TContainer :=
  if is_error (IsAliveAndStopped c) then (IsAliveAndStopped c, c)
  else if (isolate_needed =? "true")%string
  then (Success, SetProp ISOLATE (set_Isolate true c))
  else if (isolate_needed =? "false")%string
  then (Success, SetProp ISOLATE (set_Isolate false c))
  else (InvalidValue, c).

Definition TControllers_Set (h : THost) (c : TContainer) (value : string)
    : EError * TContainer :=
  if is_error (IsAliveAndStopped c) then (IsAliveAndStopped c, c)
  else
    match StringParseFlags value (ControllersName h) ";" with
    | Err error => (error, c)
    | Ok val =>
        if negb (Z.land val (RequiredControllers c) =? RequiredControllers c)
        then (InvalidValue, c)
        else (Success, SetProp CONTROLLERS (set_Controllers val c))
    end.

Definition TControllers_SetIndexed (h : THost) (c : TContainer)
    (index value : string) : EError * TContainer :=
  match StringParseFlags index (ControllersName h) ";" with
  | Err error => (error, c)
  | Ok val =>
      match StringToBool value with
      | Err error => (error, c)
      | Ok enable =>
          let val := if enable then Z.lor (Controllers c) val
                     else Z.land (Controllers c) (not64 val) in
          if negb (Z.land val (RequiredControllers c) =? RequiredControllers c)
          then (InvalidValue, c)
          else (Success, SetProp CONTROLLERS (set_Controllers val c))
      end
  end.

(** [TCpuLimit::Set].  [None]: [CurrentContainer->Parent] is null where the
    source dereferences it. *)
Definition TCpuLimit_Set (h : THost) (client : TClient) (c : TContainer)
    (limit : string) : option (EError * TContainer) :=
  if is_error (IsAlive c) then Some (IsAlive c, c)
  else
    let (error, c) := WantControllers c (CGROUP_CPU h) in
    if is_error error then Some (error, c)
    else
      match StringToCpuValue h limit with
      | Err error => Some (error, c)
      | Ok new_limit =>
          match Parent c with
          | None => None
          | Some parent =>
              if PrimFloat.ltb (CpuLimit parent) new_limit
                 && negb (IsSuperUser client)
              then Some (InvalidValue, c)
              else if negb (PrimFloat.eqb (CpuLimit c) new_limit)
              then Some (Success, SetProp CPU_LIMIT (set_CpuLimit new_limit c))
              else Some (Success, c)
          end
      end.

(* ===================================================================== *)
(** ** property.cpp: exit code *)
(* ===================================================================== *)

(** The wait-status macros of <sys/wait.h> (glibc), on an [int]. *)
Definition WTERMSIG (status : Z) : Z := Z.land status 127.

(** [((signed char) (((status) & 0x7f) + 1) >> 1) > 0] *)
Definition WIFSIGNALED (status : Z) : bool :=
  let x := Z.land status 127 + 1 in
  let signed_char := if 128 <=? x then x - 256 else x in
  0 <? Z.shiftr signed_char 1.

Definition WEXITSTATUS (status : Z) : Z := Z.shiftr (Z.land status 65280) 8.

(** [std::to_string] of an [int] *)
Definition to_string (value : Z) : string :=
  NilEmpty.string_of_int (Z.to_int value).

Definition TExitCodeProperty_Get (c : TContainer) : Result string :=
  if is_error (IsDead c) then Err (IsDead c)
  else if OomKilled c then Ok "-99"%string
  else if WIFSIGNALED (ExitStatus c)
  then Ok (to_string (- WTERMSIG (ExitStatus c)))
  else Ok (to_string (WEXITSTATUS (ExitStatus c))).

(* ===================================================================== *)
(** ** property.cpp: getters and the indexed capability sets *)
(* ===================================================================== *)

Definition TCapLimit_GetIndexed (h : THost) (c : TContainer) (index : string)
    : Result string :=
  match CapParse h index with
  | Err error => Err error
  | Ok caps =>
      Ok (BoolToString
            (Z.land (Permitted (CapLimit c)) (Permitted caps)
             =? Permitted caps))
  end.

Definition TCapLimit_SetIndexed (h : THost) (client : TClient)
    (c : TContainer) (index value : string) : EError * TContainer :=
  match CapParse h index with
  | Err error => (error, c)
  | Ok caps =>
      match StringToBool value with
      | Err error => (error, c)
      | Ok val =>
          let caps :=
            if val
            then mkCaps (Z.lor (Permitted (CapLimit c)) (Permitted caps))
            else mkCaps (Z.land (Permitted (CapLimit c))
                           (not64 (Permitted caps))) in
          TCapLimit_CommitLimit h client c caps
      end
  end.

Definition TCapAmbient_GetIndexed (h : THost) (c : TContainer)
    (index : string) : Result string :=
  match CapParse h index with
  | Err error => Err error
  | Ok caps =>
      Ok (BoolToString
            (Z.land (Permitted (CapAmbient c)) (Permitted caps)
             =? Permitted caps))
  end.

Definition TCapAmbient_SetIndexed (h : THost) (client : TClient)
    (c : TContainer) (index value : string) : EError * TContainer :=
  match CapParse h index with
  | Err error => (error, c)
  | Ok caps =>
      match StringToBool value with
      | Err error => (error, c)
      | Ok val =>
          let caps :=
            if val
            then mkCaps (Z.lor (Permitted (CapAmbient c)) (Permitted caps))
            else mkCaps (Z.land (Permitted (CapAmbient c))
                           (not64 (Permitted caps))) in
          TCapAmbient_CommitAmbient h client c caps
      end
  end.

(** The containers [p = p->GetParent()] walks through, nearest first. *)
Fixpoint ancestors (c : TContainer) : list TContainer :=
  match Parent c with
  | None => []
  | Some p => p :: ancestors p
  end.

Definition TUlimit_Get (c : TContainer) : string :=
  StringMapToString (Ulimit c).

(** [std::to_string] of the [uint64_t]. *)
Definition TMemoryLimit_Get (c : TContainer) : string := to_string (MemLimit c).

Definition TIsolate_Get (c : TContainer) : string :=
  if Isolate c then "true" else "false".

Definition TOomIsFatal_Get (c : TContainer) : string :=
  BoolToString (OomIsFatal c).

Definition TControllers_Get (h : THost) (c : TContainer) : string :=
  StringFormatFlags (Controllers c) (ControllersName h) ";".

Definition TControllers_GetIndexed (h : THost) (c : TContainer)
    (index : string) : Result string :=
  match StringParseFlags index (ControllersName h) ";" with
  | Err error => Err error
  | Ok val => Ok (BoolToString (Z.land (Controllers c) val =? val))
  end.

(* ===================================================================== *)
(** ** property.cpp: memory guarantee over the container tree *)
(* ===================================================================== *)

(** The containers as [RootContainer] reaches them: a container and the
    subtrees of its children.  [CurrentContainer] is a node of this tree,
    named by the child indices on the way from the root, so that a write to
    it is seen by a walk from the root. *)
#[warnings="-register-all"]
Inductive TTree : Type :=
| Node (container : TContainer) (Children : list TTree).

Definition tree_container (t : TTree) : TContainer :=
  match t with Node c _ => c end.

Definition tree_children (t : TTree) : list TTree :=
  match t with Node _ ch => ch end.

Fixpoint tree_get (t : TTree) (path : list nat) : option TContainer :=
  match path with
  | [] => Some (tree_container t)
  | n :: path' =>
      match nth_error (tree_children t) n with
      | Some child => tree_get child path'
      | None => None
      end
  end.

Fixpoint update_nth {A : Type} (n : nat) (f : A -> A) (l : list A) : list A :=
  match l, n with
  | [], _ => []
  | x :: l', O => f x :: l'
  | x :: l', S n' => x :: update_nth n' f l'
  end.

Fixpoint tree_update (f : TContainer -> TContainer) (t : TTree)
    (path : list nat) : TTree :=
  match path with
  | [] => Node (f (tree_container t)) (tree_children t)
  | n :: path' =>
      Node (tree_container t)
           (update_nth n (fun child => tree_update f child path')
              (tree_children t))
  end.

(** Modelled from the spec: [TContainer::GetTotalMemGuarantee] is in
    container.cpp, which is not among the sources.  The spec has the sum of
    the memory guarantees over the tree, with [NewMemGuarantee] the slot that
    stages a value during the validation; the walk therefore adds the
    staged slots, which hold the committed guarantee everywhere but in the
    container being set. *)
Fixpoint GetTotalMemGuarantee (t : TTree) : Z :=
  match t with
  | Node c ch =>
      NewMemGuarantee c + fold_right Z.add 0 (map GetTotalMemGuarantee ch)
  end.

(** The sum of the committed guarantees, which invariant 6 of the spec
    bounds. *)
Fixpoint SumMemGuarantee (t : TTree) : Z :=
  match t with
  | Node c ch => MemGuarantee c + fold_right Z.add 0 (map SumMemGuarantee ch)
  end.

(** [TMemoryGuarantee::Set] with [RootContainer = root] and
    [CurrentContainer] the node at [cur]; [None] when [cur] names no node. *)
Definition TMemoryGuarantee_Set (h : THost) (root : TTree) (cur : list nat)
    (mem_guarantee : string) : option (EError * TTree) :=
  match tree_get root cur with
  | None => None
  | Some c =>
      Some
        (if is_error (IsAlive c) then (IsAlive c, root)
         else
           let (error, c1) := WantControllers c (CGROUP_MEMORY h) in
           let root := tree_update (fun _ => c1) root cur in
           if is_error error then (error, root)
           else
             match StringToSize h mem_guarantee with
             | Err error => (error, root)
             | Ok new_val =>
                 let root := tree_update (set_NewMemGuarantee new_val) root cur in
                 let total := GetTotalMemory h in
                 let usage := wrap64 (GetTotalMemGuarantee root) in
                 let reserve := memory_guarantee_reserve h in
                 if total <? add64 usage reserve
                 then
                   (ResourceNotAvailable,
                    tree_update
                      (fun c => set_NewMemGuarantee (MemGuarantee c) c) root cur)
                 else if negb (MemGuarantee c1 =? new_val)
                 then
                   (Success,
                    tree_update
                      (fun c => SetProp MEM_GUARANTEE (set_MemGuarantee new_val c))
                      root cur)
                 else (Success, root)
             end)
  end.

(* ===================================================================== *)
(** ** property.cpp: aging time, network priority and access level *)
(* ===================================================================== *)

(** These properties write fields of [TContainer] that the properties above
    do not touch.  The fields are kept in a record of their own, [TFields],
    which stands next to the container record: a setter takes both and
    returns what it writes.  [FieldsOfParent] follows [Parent];
    [PropSetMore] is the presence bitmap for the values of [EProperty] that
    are used here. *)

(** [TUintMap]: [std::map<std::string, uint64_t>], ordered by key. *)
Definition TUintMap := list (string * Z).

Fixpoint uint_find (m : TUintMap) (k : string) : option Z :=
  match m with
  | [] => None
  | (k', v) :: m' => if (k =? k')%string then Some v else uint_find m' k
  end.

(** [m[k] = v] *)
Fixpoint uint_assign (m : TUintMap) (k : string) (v : Z) : TUintMap :=
  match m with
  | [] => [(k, v)]
  | (k', v') :: m' =>
      match String.compare k k' with
      | Lt => (k, v) :: m
      | Eq => (k, v) :: m'
      | Gt => (k', v') :: uint_assign m' k v
      end
  end.

(** [m[k]] read: the entry is created with the value 0 when there is
    none. *)
Definition uint_subscript (m : TUintMap) (k : string) : Z * TUintMap :=
  match uint_find m k with
  | Some v => (v, m)
  | None => (0, uint_assign m k 0)
  end.

(** [a == b] on maps *)
Fixpoint uint_map_eqb (a b : TUintMap) : bool :=
  match a, b with
  | [], [] => true
  | (ka, va) :: a', (kb, vb) :: b' =>
      (ka =? kb)%string && (va =? vb) && uint_map_eqb a' b'
  | _, _ => false
  end.

(** [StringToUintMap(value, result)] *)
Fixpoint uint_map_loop (h : THost) (lines : list string) (result : TUintMap)
    : Result TUintMap :=
  match lines with
  | [] => Ok result
  | line :: lines' =>
      match SplitEscapedString_tuple line [] ":" with
      | [n0; n1] =>
          let key := StringTrim n0 default_what in
          match StringToSize h n1 with
          | Err _ => Err InvalidValue
          | Ok val => uint_map_loop h lines' (uint_assign result key val)
          end
      | _ => Err InvalidValue
      end
  end.

Definition StringToUintMap (h : THost) (value : string) (result : TUintMap)
    : Result TUintMap :=
  uint_map_loop h (SplitEscapedString_tuple value [] ";") result.

(** [StringToUint64]: [stoull] is libc's; [None] stands for its
    exception. *)
Definition StringToUint64 (stoull : string -> option Z) (str : string)
    : Result Z :=
  match stoull str with
  | Some value => Ok value
  | None => Err Unknown
  end.

(** Modelled from the spec: [EAccessLevel] is declared in container.hpp,
    which is not among the sources; the spec lists its values in this
    order, from the most restrictive one on. *)
Module EAccessLevel.
Inductive t : Type := None | ReadOnly | ChildOnly | Normal.
Definition rank (level : t) : Z :=
  match level with None => 0 | ReadOnly => 1 | ChildOnly => 2 | Normal => 3 end.
End EAccessLevel.

Inductive EPropertyMore : Type := AGING_TIME | NET_PRIO | ENABLE_PORTO.

Definition EPropertyMore_eqb (a b : EPropertyMore) : bool :=
  match a, b with
  | AGING_TIME, AGING_TIME | NET_PRIO, NET_PRIO
  | ENABLE_PORTO, ENABLE_PORTO => true
  | _, _ => false
  end.

#[warnings="-register-all"]
Inductive TFields : Type := mkFields {
  AgingTime : Z;
  NetPriority : TUintMap;
  AccessLevel : EAccessLevel.t;
  FieldsOfParent : option TFields;
  PropSetMore : EPropertyMore -> bool
}.

Definition set_AgingTime (v : Z) (f : TFields) : TFields :=
  mkFields v (NetPriority f) (AccessLevel f) (FieldsOfParent f)
    (PropSetMore f).

Definition set_NetPriority (v : TUintMap) (f : TFields) : TFields :=
  mkFields (AgingTime f) v (AccessLevel f) (FieldsOfParent f) (PropSetMore f).

Definition set_AccessLevel (v : EAccessLevel.t) (f : TFields) : TFields :=
  mkFields (AgingTime f) (NetPriority f) v (FieldsOfParent f) (PropSetMore f).

(** [CurrentContainer->SetProp(prop)] for these properties. *)
Definition SetPropMore (prop : EPropertyMore) (f : TFields) : TFields :=
  mkFields (AgingTime f) (NetPriority f) (AccessLevel f) (FieldsOfParent f)
    (fun p => if EPropertyMore_eqb p prop then true else PropSetMore f p).

(** *** aging_time *)

Definition TAgingTime_Set (stoull : string -> option Z) (c : TContainer)
    (f : TFields) (time : string) : EError * TFields :=
  if is_error (IsAlive c) then (IsAlive c, f)
  else
    match StringToUint64 stoull time with
    | Err error => (error, f)
    | Ok new_time =>
        (Success,
         SetPropMore AGING_TIME (set_AgingTime (wrap64 (new_time * 1000)) f))
    end.

Definition TAgingTime_Get (f : TFields) : string :=
  to_string (AgingTime f / 1000).

(** *** net_priority

    [CGROUP_NETCLS] is a constant of cgroup.hpp, which is not among the
    sources. *)

Definition TNetPriority_Set (h : THost) (CGROUP_NETCLS : Z) (c : TContainer)
    (f : TFields) (prio : string) : EError * TContainer * TFields :=
  if is_error (IsAlive c) then (IsAlive c, c, f)
  else
    let (error, c) := WantControllers c CGROUP_NETCLS in
    if is_error error then (error, c, f)
    else
      match StringToUintMap h prio [] with
      | Err error => (error, c, f)
      | Ok new_prio =>
          if existsb (fun kv => 7 <? snd kv) new_prio
          then (InvalidValue, c, f)
          else if negb (uint_map_eqb (NetPriority f) new_prio)
          then (Success, c, SetPropMore NET_PRIO (set_NetPriority new_prio f))
          else (Success, c, f)
      end.

Definition TNetPriority_SetIndexed (h : THost) (c : TContainer) (f : TFields)
    (index prio : string) : EError * TFields :=
  if is_error (IsAlive c) then (IsAlive c, f)
  else
    match StringToSize h prio with
    | Err _ => (InvalidValue, f)
    | Ok val =>
        if 7 <? val then (InvalidValue, f)
        else
          let (old, map) := uint_subscript (NetPriority f) index in
          let f := set_NetPriority map f in
          if negb (old =? val)
          then (Success,
                SetPropMore NET_PRIO
                  (set_NetPriority (uint_assign map index val) f))
          else (Success, f)
    end.

Definition TNetPriority_GetIndexed (f : TFields) (index : string)
    : Result string :=
  match uint_find (NetPriority f) index with
  | None => Err InvalidValue
  | Some second => Ok (to_string second)
  end.

(** *** enable_porto *)

Definition TEnablePorto_Get (f : TFields) : string :=
  match AccessLevel f with
  | EAccessLevel.None => "false"
  | EAccessLevel.ReadOnly => "read-only"
  | EAccessLevel.ChildOnly => "child-only"
  | _ => "true"
  end.

(** [for (auto p = CurrentContainer->Parent; p; p = p->Parent)
       if (p->AccessLevel < EAccessLevel::ChildOnly) return ...;]
    true when the loop returns the error. *)
Fixpoint parent_below_child_only (f : TFields) : bool :=
  match FieldsOfParent f with
  | None => false
  | Some p =>
      if EAccessLevel.rank (AccessLevel p)
         <? EAccessLevel.rank EAccessLevel.ChildOnly
      then true
      else parent_below_child_only p
  end.

Definition TEnablePorto_Set (client : TClient) (f : TFields) (value : string)
    : EError * TFields :=
  let level :=
    if (value =? "false")%string then Some EAccessLevel.None
    else if (value =? "read-only")%string then Some EAccessLevel.ReadOnly
    else if (value =? "child-only")%string then Some EAccessLevel.ChildOnly
    else if (value =? "true")%string then Some EAccessLevel.Normal
    else None in
  match level with
  | None => (InvalidValue, f)
  | Some level =>
      if (EAccessLevel.rank EAccessLevel.ChildOnly <? EAccessLevel.rank level)
         && negb (IsSuperUser client) && parent_below_child_only f
      then (Permission, f)
      else (Success, SetPropMore ENABLE_PORTO (set_AccessLevel level f))
  end.

(* ===================================================================== *)
(** ** Instances used to run the model *)
(* ===================================================================== *)

Definition digit_of (c : ascii) : option Z :=
  let n := Z.of_nat (nat_of_ascii c) in
  if (48 <=? n) && (n <=? 57) then Some (n - 48) else None.

Fixpoint decimal_loop (s : string) (acc : Z) : option Z :=
  match s with
  | EmptyString => Some acc
  | String c r =>
      match digit_of c with
      | Some d => decimal_loop r (10 * acc + d)
      | None => None
      end
  end.

(** An integer that a binary64 holds exactly: at most 53 significant bits. *)
Definition double_exact (n : Z) : bool :=
  n mod 2 ^ Z.max 0 (Z.log2 n - 52) =? 0.

(** [StringToSize] on a string of decimal digits that names an integer
    below 2^64 which a double holds exactly: [strtod] returns that integer,
    there is no unit, and the conversion to [uint64_t] keeps it.  On a string
    that [strtod] reads no number from (no digit at the start) it fails.
    Only such strings are given to this instance. *)
Definition decimal_size (s : string) : option Z :=
  match s with
  | EmptyString => None
  | _ =>
      match decimal_loop s 0 with
      | Some n => if double_exact n && (n <? 2 ^ 64) then Some n else None
      | None => None
      end
  end.

(** [StringToCpuValue] on the two strings used below: absolute cores with
    the suffix [c]. *)
Definition sample_cpu (s : string) : option float :=
  if (s =? "1c")%string then Some 1%float
  else if (s =? "2c")%string then Some 2%float
  else None.

(** Modelled from the spec: [TCapabilities::Parse] is in cred.cpp, which is
    not among the sources.  The spec has symbolic names separated by [;],
    parsed into a bit set; two names are enough here. *)
Definition sample_CapParse (s : string) : Result TCapabilities :=
  match StringParseFlags s
          [(BIT CAP_NET_BIND_SERVICE, "NET_BIND_SERVICE");
           (BIT CAP_NET_ADMIN, "NET_ADMIN")]%string ";" with
  | Ok mask => Ok (mkCaps mask)
  | Err error => Err error
  end.

(** A host: the controller flags and names in the order of the spec's
    list, capability sets over the first 38 capabilities. *)
Definition host_with (total reserve min_limit : Z)
    (sanitize : TClient -> TContainer -> TContainer) : THost := {|
  CGROUP_MEMORY := 2;
  CGROUP_CPU := 4;
  ControllersName :=
    [(1, "freezer"); (2, "memory"); (4, "cpu"); (8, "cpuacct");
     (16, "net_cls"); (32, "blkio"); (64, "devices"); (128, "hugetlb");
     (256, "cpuset"); (512, "pids")]%string;
  AllCapabilities := mkCaps (Z.ones 38);
  OsModeCapabilities := mkCaps (Z.ones 38);
  SuidCapabilities :=
    mkCaps (Z.lor (BIT CAP_NET_BIND_SERVICE) (BIT CAP_NET_ADMIN));
  CapParse := sample_CapParse;
  SanitizeCapabilities := sanitize;
  ParseUlimit := fun _ _ => Success;
  size_of_string := decimal_size;
  cpu_of_string := sample_cpu;
  GetTotalMemory := total;
  min_memory_limit := min_limit;
  memory_guarantee_reserve := reserve
|}.

(** 16 GiB of memory, 2 GiB in reserve; capabilities are sanitised as the
    spec words it. *)
Definition sample_host : THost :=
  host_with (2 ^ 34) (2 ^ 31) 1048576
    (SanitizeCapabilities_spec
       (host_with (2 ^ 34) (2 ^ 31) 1048576 (fun _ c => c))).

(** The host of the spec's memory scenario: 100 bytes, 10 in reserve. *)
Definition small_host : THost :=
  host_with 100 10 0 (SanitizeCapabilities sample_host).

(** A freshly created container: stopped, nothing set. *)
Definition new_container (parent : option TContainer) : TContainer := {|
  State := Stopped;
  Parent := parent;
  OwnerCred := mkCred 1000 1000;
  VirtMode := VIRT_MODE_APP;
  Controllers := 0;
  RequiredControllers := 0;
  CapLimit := mkCaps 0;
  CapAmbient := mkCaps 0;
  CapAllowed := mkCaps 0;
  Ulimit := [];
  MemLimit := 0;
  MemGuarantee := 0;
  NewMemGuarantee := 0;
  CpuLimit := 0%float;
  BindDns := false;
  Isolate := true;
  OomIsFatal := false;
  OomKilled := false;
  ExitStatus := 0;
  PropSet := fun _ => false
|}.

(** The same container in another state. *)
Definition in_state (s : EContainerState) (c : TContainer) : TContainer :=
  mkContainer s (Parent c) (OwnerCred c) (VirtMode c) (Controllers c)
    (RequiredControllers c) (CapLimit c) (CapAmbient c) (CapAllowed c)
    (Ulimit c) (MemLimit c) (MemGuarantee c) (NewMemGuarantee c) (CpuLimit c)
    (BindDns c) (Isolate c) (OomIsFatal c) (OomKilled c) (ExitStatus c)
    (PropSet c).

(* ===================================================================== *)
(** ** Predicates and instances the statements use *)
(* ===================================================================== *)

(** *** Bit masks and the controllers invariant *)

(** [a] is a subset of [b]. *)
Definition subset (a b : Z) : Prop := Z.land a b = a.

(** [Controllers] is a superset of [RequiredControllers]. *)
Definition controllers_inv (c : TContainer) : Prop :=
  Z.land (Controllers c) (RequiredControllers c) = RequiredControllers c.

(** The mask an indexed set of [controllers] computes from the parsed index
    and the parsed boolean. *)
Definition indexed_mask (c : TContainer) (val : Z) (enable : bool) : Z :=
  if enable then Z.lor (Controllers c) val
  else Z.land (Controllers c) (not64 val).

(** The checks [TCpuLimit::Set] makes before it parses: the container is
    not dead, and the cpu controller is there or can still be enabled. *)
Definition cpu_set_admitted (h : THost) (c : TContainer) : Prop :=
  State c <> Dead /\
  (State c = Stopped \/ Z.land (Controllers c) (CGROUP_CPU h) = CGROUP_CPU h).

(** What the proofs take from [SanitizeCapabilities] (spec 4.6): it never
    narrows [CapLimit], and it only clamps [CapAmbient]. *)
Definition sanitize_clamps (h : THost) : Prop :=
  forall client c,
    subset (Permitted (CapLimit c))
           (Permitted (CapLimit (SanitizeCapabilities h client c))) /\
    subset (Permitted (CapAmbient (SanitizeCapabilities h client c)))
           (Permitted (CapAmbient c)).

(** The sets on one container that the model covers and that do not go
    through [SanitizeCapabilities], by property name, index and value. *)
Inductive Request : Type :=
| SetMemoryLimit (value : string)
| SetCpuLimit (value : string)
| SetBindDns (value : string)
| SetIsolate (value : string)
| SetOomIsFatal (value : string)
| SetUlimit (value : string)
| SetUlimitIndexed (index value : string)
| SetControllers (value : string)
| SetControllersIndexed (index value : string).

Definition apply_request (h : THost) (client : TClient) (c : TContainer)
    (r : Request) : option (EError * TContainer) :=
  match r with
  | SetMemoryLimit value => Some (TMemoryLimit_Set h c value)
  | SetCpuLimit value => TCpuLimit_Set h client c value
  | SetBindDns value => Some (TBindDns_Set c value)
  | SetIsolate value => Some (TIsolate_Set c value)
  | SetOomIsFatal value => Some (TOomIsFatal_Set c value)
  | SetUlimit value => Some (TUlimit_Set h c value)
  | SetUlimitIndexed index value => Some (TUlimit_SetIndexed h c index value)
  | SetControllers value => Some (TControllers_Set h c value)
  | SetControllersIndexed index value =>
      Some (TControllers_SetIndexed h c index value)
  end.

(** *** Canonical tuples *)

(** A token as [SplitEscapedString] stores it: not empty, and unchanged by
    trimming. *)
Definition trimmed (tok : string) : Prop :=
  tok <> ""%string /\ StringTrim tok default_what = tok.

(** Tuples in the form [SplitEscapedString] produces: no empty tuple, every
    token trimmed. *)
Definition canonical_tuple (tuple : TTuple) : Prop :=
  tuple <> [] /\ Forall trimmed tuple.

Definition canonical (tuples : TMultiTuple) : Prop :=
  Forall canonical_tuple tuples.

(** What [StringReplaceAll] writes for the character [c] when the pattern
    is the one character [f]. *)
Definition replace_char (f : ascii) (to : string) (c : ascii) : string :=
  if Ascii.eqb f c then to else String c EmptyString.

(** A character that [MergeEscapeStrings] writes with a backslash. *)
Definition special (sep_inner sep_outer c : ascii) : bool :=
  Ascii.eqb c backslash || Ascii.eqb c sep_inner || Ascii.eqb c sep_outer.

Definition escape_char (sep_inner sep_outer c : ascii) : string :=
  if special sep_inner sep_outer c
  then String backslash (String c EmptyString)
  else String c EmptyString.

(** [StringTrim] as two passes: drop the characters of [what] in front,
    then those at the back. *)
Fixpoint drop_front (what s : string) : string :=
  match s with
  | EmptyString => EmptyString
  | String c r => if contains what c then drop_front what r else s
  end.

Fixpoint drop_back (what s : string) : string :=
  match s with
  | EmptyString => EmptyString
  | String c r =>
      match drop_back what r with
      | EmptyString =>
          if contains what c then EmptyString else String c EmptyString
      | r' => String c r'
      end
  end.

Definition starts_clean (what s : string) : Prop :=
  match s with
  | EmptyString => True
  | String c _ => contains what c = false
  end.

(** *** Containers and trees the statements are run on *)

(** A container with the memory controller required. *)
Definition memory_required (s : EContainerState) : TContainer :=
  in_state s (snd (WantControllers (new_container None) 2)).

(** A parent limited to one core, and its child. *)
Definition one_core_parent : TContainer :=
  set_CpuLimit 1%float (new_container None).

Definition child_of_one_core (s : EContainerState) : TContainer :=
  in_state s (new_container (Some one_core_parent)).

(** A dead container with one ulimit. *)
Definition dead_with_ulimit : TContainer :=
  in_state Dead
    (set_Ulimit [("nofile", "1024 2048")]%string (new_container None)).

(** A dead container with the given exit status and OOM flag. *)
Definition dead_with (status : Z) (oom : bool) : TContainer :=
  let c := new_container None in
  mkContainer Dead (Parent c) (OwnerCred c) (VirtMode c) (Controllers c)
    (RequiredControllers c) (CapLimit c) (CapAmbient c) (CapAllowed c)
    (Ulimit c) (MemLimit c) (MemGuarantee c) (NewMemGuarantee c) (CpuLimit c)
    (BindDns c) (Isolate c) (OomIsFatal c) oom status (PropSet c).

(** The container of the scenario: stopped, limited to NET_ADMIN, with
    NET_BIND_SERVICE allowed. *)
Definition net_admin_container : TContainer :=
  set_CapAllowed (mkCaps (Z.lor (BIT CAP_NET_BIND_SERVICE) (BIT CAP_NET_ADMIN)))
    (set_CapLimit (mkCaps (BIT CAP_NET_ADMIN)) (new_container None)).

(** The root with two children [A] and [B], all freshly created. *)
Definition two_children : TTree :=
  Node (new_container None)
    [Node (new_container None) []; Node (new_container None) []].

(** The root with one freshly created child. *)
Definition one_child : TTree :=
  Node (new_container None) [Node (new_container None) []].

(** The tree after a set on a node, the input when the path names none. *)
Definition tree_after (r : option (EError * TTree)) (root : TTree) : TTree :=
  match r with Some (_, root') => root' | None => root end.

Definition guarantee_at (root : TTree) (path : list nat) : option Z :=
  option_map MemGuarantee (tree_get root path).

(** *** The memory guarantee step *)

(** Every node's staged slot holds its committed guarantee: the state
    between two sets. *)
Definition committed (root : TTree) : Prop :=
  forall path c, tree_get root path = Some c ->
                 NewMemGuarantee c = MemGuarantee c.

(** [TMemoryGuarantee::Set] seen from the container it writes: [others] is
    what the walk from the root adds for all the other nodes. *)
Definition guarantee_step (h : THost) (c : TContainer) (others : Z)
    (mem_guarantee : string) : EError * TContainer :=
  if is_error (IsAlive c) then (IsAlive c, c)
  else
    let (error, c1) := WantControllers c (CGROUP_MEMORY h) in
    if is_error error then (error, c1)
    else
      match StringToSize h mem_guarantee with
      | Err error => (error, c1)
      | Ok new_val =>
          if GetTotalMemory h
             <? add64 (wrap64 (others + new_val)) (memory_guarantee_reserve h)
          then (ResourceNotAvailable,
                set_NewMemGuarantee (MemGuarantee c1)
                  (set_NewMemGuarantee new_val c1))
          else if negb (MemGuarantee c1 =? new_val)
          then (Success,
                SetProp MEM_GUARANTEE
                  (set_MemGuarantee new_val (set_NewMemGuarantee new_val c1)))
          else (Success, set_NewMemGuarantee new_val c1)
      end.

(** *** Fields and separated text *)

(** The fields of [toks] written with [sep] between them. *)
Fixpoint join (sep : ascii) (toks : list string) : string :=
  match toks with
  | [] => ""%string
  | tok :: toks' =>
      match toks' with
      | [] => tok
      | _ => (tok ++ String sep (join sep toks'))%string
      end
  end.

(** The text a stream holds after [toks] were written to it in turn, each
    one but the very first with [sep] in front; [first] tells whether the
    very first one is still to come. *)
Fixpoint sep_text (sep : string) (first : bool) (toks : list string)
    : string :=
  match toks with
  | [] => ""%string
  | tok :: toks' =>
      ((if first then "" else sep) ++ tok ++ sep_text sep false toks')%string
  end.

(** Every character of [s] is one of [what]. *)
Fixpoint all_in (what s : string) : bool :=
  match s with
  | EmptyString => true
  | String c r => contains what c && all_in what r
  end.

(** The last character of [s], if there is one, is none of [what]. *)
Fixpoint ends_clean (what s : string) : Prop :=
  match s with
  | EmptyString => True
  | String c EmptyString => contains what c = false
  | String _ r => ends_clean what r
  end.

(** *** Flag tables *)

(** All the bits of a table. *)
Definition flags_union (names : TFlagsNames) : Z :=
  fold_right (fun n acc => Z.lor (fst n) acc) 0 names.

(** A mask of exactly one of the 64 bits. *)
Definition flag_bit (mask : Z) : bool :=
  (0 <? mask) && (mask <? 2 ^ 64) && (mask =? 2 ^ Z.log2 mask).

(** A name that can be written between separators and read back. *)
Definition flag_name (sep : ascii) (name : string) : Prop :=
  trimmed name /\ contains name sep = false.

(** A table of one-bit masks under distinct names. *)
Definition flags_table (sep : ascii) (names : TFlagsNames) : Prop :=
  NoDup (map snd names) /\
  Forall (fun n => flag_bit (fst n) = true /\ flag_name sep (snd n)) names.

(** The entries whose names the loop of [StringFormatFlags] writes, and the
    bits it leaves for the hexadecimal tail. *)
Fixpoint emitted (names : TFlagsNames) (flags : Z) : TFlagsNames :=
  match names with
  | [] => []
  | (mask, name) :: names' =>
      if negb (Z.land mask flags =? 0)
      then (mask, name) :: emitted names' (Z.land flags (not64 mask))
      else emitted names' flags
  end.

Fixpoint leftover (names : TFlagsNames) (flags : Z) : Z :=
  match names with
  | [] => flags
  | (mask, name) :: names' =>
      if negb (Z.land mask flags =? 0)
      then leftover names' (Z.land flags (not64 mask))
      else leftover names' flags
  end.

(** No bit from bit 64 on. *)
Definition high_clear (f : Z) : Prop :=
  forall i, 64 <= i -> Z.testbit f i = false.

(** *** String maps *)

(** A key or a value that [StringMapToString] writes and
    [StringToStringMap] reads back: trimmed, without [;], [:] and
    backslash. *)
Definition map_token (tok : string) : Prop :=
  trimmed tok /\ contains tok ";" = false /\ contains tok ":" = false /\
  contains tok backslash = false.

Definition map_entry (kv : string * string) : Prop :=
  map_token (fst kv) /\ map_token (snd kv).

(** The keys of a [std::map] in iteration order: each one greater than all
    the keys before it. *)
Fixpoint ordered_keys (m : TStringMap) : Prop :=
  match m with
  | [] => True
  | (k, _) :: m' =>
      Forall (fun kv => String.compare (fst kv) k = Gt) m' /\ ordered_keys m'
  end.

(** What [StringMapToString] writes for one entry. *)
Definition map_line (kv : string * string) : string :=
  (fst kv ++ ": " ++ snd kv)%string.

Definition two_ulimits : TStringMap :=
  [("core", "0 0"); ("nofile", "1024 2048")]%string.

(** *** Capabilities, memory limit and requests *)

(** The set a principal that is not a superuser is bounded by before the
    ancestors are looked at. *)
Definition mode_capabilities (h : THost) (c : TContainer) : TCapabilities :=
  match VirtMode c with
  | VIRT_MODE_OS => OsModeCapabilities h
  | VIRT_MODE_APP => SuidCapabilities h
  end.

(** A child of the container limited to NET_ADMIN. *)
Definition child_of_net_admin : TContainer :=
  new_container (Some net_admin_container).

(** [MemLimit] is zero or at least the configured minimum. *)
Definition memory_limit_inv (h : THost) (c : TContainer) : Prop :=
  MemLimit c = 0 \/ min_memory_limit h <= MemLimit c.

(** The requests whose setters check everything before they write. *)
Definition sets_atomically (r : Request) : bool :=
  match r with
  | SetMemoryLimit _ | SetCpuLimit _ => false
  | _ => true
  end.

(** *** The further fields *)

(** Every stored priority is at most 7. *)
Definition net_priority_inv (f : TFields) : Prop :=
  Forall (fun kv => snd kv <= 7) (NetPriority f).

(** The records [p = p->Parent] walks through, nearest first. *)
Fixpoint fields_ancestors (f : TFields) : list TFields :=
  match FieldsOfParent f with
  | None => []
  | Some p => p :: fields_ancestors p
  end.

(** The further fields of a freshly created container. *)
Definition fresh_fields (parent : option TFields) : TFields := {|
  AgingTime := 0;
  NetPriority := [];
  AccessLevel := EAccessLevel.Normal;
  FieldsOfParent := parent;
  PropSetMore := fun _ => false
|}.

(** *** The invariant and the capability scenario over more setters *)

(** [SanitizeCapabilities] writes neither controller mask. *)
Definition sanitize_keeps_controllers (h : THost) : Prop :=
  forall client c,
    Controllers (SanitizeCapabilities h client c) = Controllers c /\
    RequiredControllers (SanitizeCapabilities h client c)
    = RequiredControllers c.

(** Every container of the tree keeps [Controllers] a superset of
    [RequiredControllers]. *)
Definition controllers_inv_tree (root : TTree) : Prop :=
  forall path c, tree_get root path = Some c -> controllers_inv c.





(* ===================================================================== *)
(** * Proofs *)
(* ===================================================================== *)

(** ** Bit masks *)

Lemma testbit_of_eq (a b : Z) (n : Z) : a = b -> Z.testbit a n = Z.testbit b n.
Proof. intros ->; reflexivity. Qed.

Lemma land_lor_same (C R m : Z) :
  Z.land C R = R -> Z.land (Z.lor C m) (Z.lor R m) = Z.lor R m.
Proof.
  intros H. apply Z.bits_inj'. intros n _.
  apply (testbit_of_eq _ _ n) in H.
  rewrite Z.land_spec in H. rewrite Z.land_spec, !Z.lor_spec.
  destruct (Z.testbit C n), (Z.testbit R n), (Z.testbit m n);
    simpl in *; congruence.
Qed.

Lemma subset_trans (a b c : Z) : subset a b -> subset b c -> subset a c.
Proof.
  unfold subset. intros Hab Hbc.
  rewrite <- Hab at 1. rewrite <- Z.land_assoc, Hbc. exact Hab.
Qed.

Lemma subset_refl (a : Z) : subset a a.
Proof. apply Z.land_diag. Qed.

Lemma subset_lor_r (a b : Z) : subset b (Z.lor a b).
Proof.
  unfold subset. apply Z.bits_inj'. intros n _.
  rewrite Z.land_spec, Z.lor_spec.
  destruct (Z.testbit a n), (Z.testbit b n); reflexivity.
Qed.

Lemma subset_land_l (a b : Z) : subset (Z.land a b) a.
Proof.
  unfold subset. apply Z.bits_inj'. intros n _.
  rewrite !Z.land_spec.
  destruct (Z.testbit a n), (Z.testbit b n); reflexivity.
Qed.

(** On 64-bit values the test [a & ~b] of the source is zero exactly when
    [a] is a subset of [b]. *)
Lemma land_not64_zero (a b : Z) :
  uint64 a -> Z.land a (not64 b) = 0 -> subset a b.
Proof.
  unfold uint64, not64, subset. intros Ha H.
  apply Z.bits_inj'. intros n Hn.
  apply (testbit_of_eq _ _ n) in H.
  rewrite Z.land_spec, Z.lxor_spec, Z.bits_0 in H.
  rewrite Z.land_spec.
  destruct (Z_lt_le_dec n 64) as [Hlt | Hge].
  - rewrite Z.ones_spec_low in H by lia.
    destruct (Z.testbit a n), (Z.testbit b n); simpl in *; congruence.
  - assert (Hz : Z.testbit a n = false).
    { destruct (Z.eq_dec a 0) as [-> | Hne]; [apply Z.bits_0 |].
      apply Z.bits_above_log2; [lia |].
      apply Z.log2_lt_pow2; [lia |].
      apply Z.lt_le_trans with (2 ^ 64); [lia |].
      apply Z.pow_le_mono_r; lia. }
    rewrite Hz. reflexivity.
Qed.

(** ** Guards *)

Lemma IsAlive_not_dead (c : TContainer) : State c <> Dead -> IsAlive c = Success.
Proof. unfold IsAlive. destruct (State c); congruence. Qed.

Lemma IsAlive_dead (c : TContainer) : State c = Dead -> IsAlive c = InvalidState.
Proof. unfold IsAlive. intros ->. reflexivity. Qed.

Lemma IsAliveAndStopped_not_stopped (c : TContainer) :
  State c <> Stopped -> IsAliveAndStopped c = InvalidState.
Proof. unfold IsAliveAndStopped. destruct (State c); congruence. Qed.

Lemma IsAliveAndStopped_stopped (c : TContainer) :
  State c = Stopped -> IsAliveAndStopped c = Success.
Proof. unfold IsAliveAndStopped. intros ->. reflexivity. Qed.

(** ** Controller activation *)

Lemma WantControllers_stopped (c : TContainer) (mask : Z) :
  State c = Stopped ->
  WantControllers c mask =
    (Success,
     set_RequiredControllers (Z.lor (RequiredControllers c) mask)
       (set_Controllers (Z.lor (Controllers c) mask) c)).
Proof. unfold WantControllers. intros ->. reflexivity. Qed.

Lemma WantControllers_runtime (c : TContainer) (mask : Z) :
  State c <> Stopped ->
  WantControllers c mask =
    (if Z.land (Controllers c) mask =? mask then Success else NotSupported, c).
Proof.
  unfold WantControllers. intros H.
  destruct (State c); try congruence;
    destruct (Z.land (Controllers c) mask =? mask); reflexivity.
Qed.

(** C2: on a stopped container the requested mask is OR-ed into both
    [Controllers] and [RequiredControllers] and the request succeeds;
    in any other state a request with a bit that is not in [Controllers]
    returns [NotSupported] and leaves the container, [Controllers]
    included, as it was (and a request without such a bit succeeds and
    changes nothing). *)
Theorem C2_WantControllers (c : TContainer) (mask : Z) :
  (State c = Stopped ->
     fst (WantControllers c mask) = Success /\
     Controllers (snd (WantControllers c mask)) = Z.lor (Controllers c) mask /\
     RequiredControllers (snd (WantControllers c mask))
       = Z.lor (RequiredControllers c) mask) /\
  (State c <> Stopped -> Z.land (Controllers c) mask <> mask ->
     WantControllers c mask = (NotSupported, c)) /\
  (State c <> Stopped -> Z.land (Controllers c) mask = mask ->
     WantControllers c mask = (Success, c)).
Proof.
  repeat split.
  - rewrite WantControllers_stopped by assumption. reflexivity.
  - rewrite WantControllers_stopped by assumption. reflexivity.
  - rewrite WantControllers_stopped by assumption. reflexivity.
  - intros Hs Hm. rewrite WantControllers_runtime by assumption.
    apply Z.eqb_neq in Hm. rewrite Hm. reflexivity.
  - intros Hs Hm. rewrite WantControllers_runtime by assumption.
    apply Z.eqb_eq in Hm. rewrite Hm. reflexivity.
Qed.

Lemma C2_WantControllers_witness :
  (fst (WantControllers (new_container None) 2) = Success /\
   Controllers (snd (WantControllers (new_container None) 2)) = 2 /\
   RequiredControllers (snd (WantControllers (new_container None) 2)) = 2) /\
  WantControllers (in_state Running (new_container None)) 2
    = (NotSupported, in_state Running (new_container None)).
Proof.
  split.
  - apply (proj1 (C2_WantControllers (new_container None) 2)). reflexivity.
  - apply (proj1 (proj2 (C2_WantControllers
                           (in_state Running (new_container None)) 2))).
    + simpl. discriminate.
    + vm_compute. discriminate.
Defined.

(** ** memory_limit *)

Lemma TMemoryLimit_Set_parse_failure (h : THost) (c : TContainer)
    (limit : string) :
  State c = Stopped ->
  size_of_string h limit = None ->
  TMemoryLimit_Set h c limit =
    (InvalidValue,
     set_RequiredControllers (Z.lor (RequiredControllers c) (CGROUP_MEMORY h))
       (set_Controllers (Z.lor (Controllers c) (CGROUP_MEMORY h)) c)).
Proof.
  intros Hs Hp. unfold TMemoryLimit_Set.
  rewrite IsAlive_not_dead by (rewrite Hs; discriminate). simpl.
  rewrite WantControllers_stopped by assumption. simpl.
  unfold StringToSize. rewrite Hp. reflexivity.
Qed.

(** C1 (the source departs from it): a [memory_limit] set on a stopped
    container whose value does not parse returns the error [InvalidValue],
    yet the container it leaves has the memory controller OR-ed into both
    [Controllers] and [RequiredControllers]: [WantControllers] has written
    before [StringToSize] is called, and nothing restores the fields. *)
Theorem C1_failed_set_keeps_controller_write (h : THost) (c : TContainer)
    (limit : string) :
  State c = Stopped ->
  size_of_string h limit = None ->
  fst (TMemoryLimit_Set h c limit) = InvalidValue /\
  Controllers (snd (TMemoryLimit_Set h c limit))
    = Z.lor (Controllers c) (CGROUP_MEMORY h) /\
  RequiredControllers (snd (TMemoryLimit_Set h c limit))
    = Z.lor (RequiredControllers c) (CGROUP_MEMORY h).
Proof.
  intros Hs Hp. rewrite TMemoryLimit_Set_parse_failure by assumption.
  repeat split.
Qed.

Lemma C1_failed_set_witness :
  (fst (TMemoryLimit_Set sample_host (new_container None) "x") = InvalidValue /\
   Controllers (snd (TMemoryLimit_Set sample_host (new_container None) "x"))
     = Z.lor (Controllers (new_container None)) (CGROUP_MEMORY sample_host) /\
   RequiredControllers (snd (TMemoryLimit_Set sample_host (new_container None) "x"))
     = Z.lor (RequiredControllers (new_container None))
         (CGROUP_MEMORY sample_host)) /\
  Controllers (new_container None) = 0 /\
  Z.lor (Controllers (new_container None)) (CGROUP_MEMORY sample_host) = 2.
Proof.
  split.
  - apply (C1_failed_set_keeps_controller_write sample_host
             (new_container None) "x"); reflexivity.
  - split; reflexivity.
Defined.

(** ** controllers *)

Lemma WantControllers_inv (c : TContainer) (mask : Z) :
  controllers_inv c -> controllers_inv (snd (WantControllers c mask)).
Proof.
  unfold controllers_inv, WantControllers. intros H.
  destruct (State c); simpl;
    try (destruct (negb _); simpl; exact H).
  apply land_lor_same. exact H.
Qed.

Lemma TControllers_Set_inv (h : THost) (c : TContainer) (value : string) :
  controllers_inv c -> controllers_inv (snd (TControllers_Set h c value)).
Proof.
  unfold TControllers_Set. intros H.
  destruct (is_error (IsAliveAndStopped c)); [exact H |].
  destruct (StringParseFlags value (ControllersName h) ";") as [val | e];
    [| exact H].
  destruct (Z.land val (RequiredControllers c) =? RequiredControllers c) eqn:E;
    simpl; [| exact H].
  apply Z.eqb_eq in E. exact E.
Qed.

Lemma TControllers_SetIndexed_inv (h : THost) (c : TContainer)
    (index value : string) :
  controllers_inv c ->
  controllers_inv (snd (TControllers_SetIndexed h c index value)).
Proof.
  unfold TControllers_SetIndexed. intros H.
  destruct (StringParseFlags index (ControllersName h) ";") as [val | e];
    [| exact H].
  destruct (StringToBool value) as [enable | e]; [| exact H].
  match goal with |- context [negb (Z.land ?v _ =? _)] =>
    destruct (Z.land v (RequiredControllers c) =? RequiredControllers c) eqn:E
  end; simpl; [| exact H].
  apply Z.eqb_eq in E. exact E.
Qed.

Lemma TMemoryLimit_Set_inv (h : THost) (c : TContainer) (limit : string) :
  controllers_inv c -> controllers_inv (snd (TMemoryLimit_Set h c limit)).
Proof.
  unfold TMemoryLimit_Set. intros H.
  destruct (is_error (IsAlive c)); [exact H |].
  pose proof (WantControllers_inv c (CGROUP_MEMORY h) H) as Hw.
  destruct (WantControllers c (CGROUP_MEMORY h)) as [error c1]. simpl in Hw.
  destruct (is_error error); [exact Hw |].
  destruct (StringToSize h limit) as [new_size | e]; [| exact Hw].
  destruct (negb (new_size =? 0) && (new_size <? min_memory_limit h));
    [exact Hw |].
  destruct (negb (MemLimit c1 =? new_size)); exact Hw.
Qed.

Lemma TCpuLimit_Set_inv (h : THost) (client : TClient) (c : TContainer)
    (limit : string) (error : EError) (c' : TContainer) :
  controllers_inv c ->
  TCpuLimit_Set h client c limit = Some (error, c') -> controllers_inv c'.
Proof.
  unfold TCpuLimit_Set. intros H.
  destruct (is_error (IsAlive c)); [intros [= _ <-]; exact H |].
  pose proof (WantControllers_inv c (CGROUP_CPU h) H) as Hw.
  destruct (WantControllers c (CGROUP_CPU h)) as [e1 c1]. simpl in Hw.
  destruct (is_error e1); [intros [= _ <-]; exact Hw |].
  destruct (StringToCpuValue h limit) as [new_limit | e];
    [| intros [= _ <-]; exact Hw].
  destruct (Parent c1) as [parent |]; [| discriminate].
  destruct (PrimFloat.ltb (CpuLimit parent) new_limit && negb (IsSuperUser client));
    [intros [= _ <-]; exact Hw |].
  destruct (negb (PrimFloat.eqb (CpuLimit c1) new_limit));
    intros [= _ <-]; exact Hw.
Qed.

(** A setter that writes neither field: every branch returns its container
    or one that differs in other fields. *)
Ltac keeps_controllers :=
  unfold controllers_inv in *;
  repeat match goal with
         | |- context [if ?b then _ else _] => destruct b
         | |- context [match ?x with Ok _ => _ | Err _ => _ end] => destruct x
         end;
  simpl; assumption.

Lemma apply_request_inv (h : THost) (client : TClient) (c : TContainer)
    (r : Request) (error : EError) (c' : TContainer) :
  controllers_inv c ->
  apply_request h client c r = Some (error, c') -> controllers_inv c'.
Proof.
  intros H.
  destruct r; cbn [apply_request]; try apply TCpuLimit_Set_inv, H;
    intros [= E];
    match type of E with
    | ?set = _ => replace c' with (snd set) by (rewrite E; reflexivity)
    end.
  - apply TMemoryLimit_Set_inv, H.
  - unfold TBindDns_Set. keeps_controllers.
  - unfold TIsolate_Set. keeps_controllers.
  - unfold TOomIsFatal_Set. keeps_controllers.
  - unfold TUlimit_Set. keeps_controllers.
  - unfold TUlimit_SetIndexed. keeps_controllers.
  - apply TControllers_Set_inv, H.
  - apply TControllers_SetIndexed_inv, H.
Qed.

Lemma TControllers_Set_drops_required (h : THost) (c : TContainer)
    (value : string) (val : Z) :
  State c = Stopped ->
  StringParseFlags value (ControllersName h) ";" = Ok val ->
  Z.land val (RequiredControllers c) <> RequiredControllers c ->
  TControllers_Set h c value = (InvalidValue, c).
Proof.
  intros Hs Hp Hd. unfold TControllers_Set.
  rewrite IsAliveAndStopped_stopped by assumption. simpl. rewrite Hp.
  apply Z.eqb_neq in Hd. rewrite Hd. reflexivity.
Qed.

Lemma TControllers_Set_not_stopped (h : THost) (c : TContainer)
    (value : string) :
  State c <> Stopped -> TControllers_Set h c value = (InvalidState, c).
Proof.
  intros Hs. unfold TControllers_Set.
  rewrite IsAliveAndStopped_not_stopped by assumption. reflexivity.
Qed.

Lemma TControllers_SetIndexed_drops_required (h : THost) (c : TContainer)
    (index value : string) (val : Z) (enable : bool) :
  StringParseFlags index (ControllersName h) ";" = Ok val ->
  StringToBool value = Ok enable ->
  Z.land (indexed_mask c val enable) (RequiredControllers c)
    <> RequiredControllers c ->
  TControllers_SetIndexed h c index value = (InvalidValue, c).
Proof.
  intros Hp Hb Hd. unfold TControllers_SetIndexed. rewrite Hp, Hb.
  unfold indexed_mask in Hd. apply Z.eqb_neq in Hd. rewrite Hd. reflexivity.
Qed.

(** ** cpu_limit *)

Lemma WantControllers_fields (c : TContainer) (mask : Z) :
  Parent (snd (WantControllers c mask)) = Parent c /\
  CpuLimit (snd (WantControllers c mask)) = CpuLimit c.
Proof.
  unfold WantControllers.
  destruct (State c); simpl; try (destruct (negb _); simpl); split; reflexivity.
Qed.

Lemma WantControllers_admitted (h : THost) (c : TContainer) :
  cpu_set_admitted h c -> fst (WantControllers c (CGROUP_CPU h)) = Success.
Proof.
  intros [_ [Hs | Hc]].
  - rewrite WantControllers_stopped by assumption. reflexivity.
  - unfold WantControllers. apply Z.eqb_eq in Hc.
    destruct (State c); simpl; try reflexivity; rewrite Hc; reflexivity.
Qed.

Lemma TCpuLimit_Set_over_parent (h : THost) (client : TClient)
    (c parent : TContainer) (limit : string) (v : float) :
  Parent c = Some parent ->
  cpu_of_string h limit = Some v ->
  PrimFloat.ltb (CpuLimit parent) v = true ->
  IsSuperUser client = false ->
  cpu_set_admitted h c ->
  TCpuLimit_Set h client c limit
    = Some (InvalidValue, snd (WantControllers c (CGROUP_CPU h))).
Proof.
  intros Hp Hv Hlt Hsu Hadm. unfold TCpuLimit_Set.
  rewrite IsAlive_not_dead by apply Hadm. simpl.
  pose proof (WantControllers_admitted h c Hadm) as Hw.
  pose proof (WantControllers_fields c (CGROUP_CPU h)) as [Hpar _].
  destruct (WantControllers c (CGROUP_CPU h)) as [e1 c1]. simpl in *.
  subst e1. simpl. unfold StringToCpuValue. rewrite Hv, Hpar, Hp, Hlt, Hsu.
  reflexivity.
Qed.

Lemma TCpuLimit_Set_superuser (h : THost) (client : TClient)
    (c parent : TContainer) (limit : string) (v : float) :
  Parent c = Some parent ->
  cpu_of_string h limit = Some v ->
  IsSuperUser client = true ->
  cpu_set_admitted h c ->
  option_map fst (TCpuLimit_Set h client c limit) = Some Success.
Proof.
  intros Hp Hv Hsu Hadm. unfold TCpuLimit_Set.
  rewrite IsAlive_not_dead by apply Hadm. simpl.
  pose proof (WantControllers_admitted h c Hadm) as Hw.
  pose proof (WantControllers_fields c (CGROUP_CPU h)) as [Hpar _].
  destruct (WantControllers c (CGROUP_CPU h)) as [e1 c1]. simpl in *.
  subst e1. simpl. unfold StringToCpuValue. rewrite Hv, Hpar, Hp, Hsu.
  rewrite andb_false_r.
  destruct (negb (PrimFloat.eqb (CpuLimit c1) v)); reflexivity.
Qed.

Lemma TCpuLimit_Set_dead (h : THost) (client : TClient) (c : TContainer)
    (limit : string) :
  State c = Dead -> TCpuLimit_Set h client c limit = Some (InvalidState, c).
Proof.
  intros Hs. unfold TCpuLimit_Set. rewrite IsAlive_dead by assumption.
  reflexivity.
Qed.

Lemma TCpuLimit_Set_no_controller (h : THost) (client : TClient)
    (c : TContainer) (limit : string) :
  State c <> Dead -> State c <> Stopped ->
  Z.land (Controllers c) (CGROUP_CPU h) <> CGROUP_CPU h ->
  TCpuLimit_Set h client c limit = Some (NotSupported, c).
Proof.
  intros Hd Hs Hc. unfold TCpuLimit_Set.
  rewrite IsAlive_not_dead by assumption. simpl.
  rewrite WantControllers_runtime by assumption.
  apply Z.eqb_neq in Hc. rewrite Hc. reflexivity.
Qed.

Lemma TCpuLimit_Set_rejected_keeps (h : THost) (client : TClient)
    (c parent : TContainer) (limit : string) (v : float) :
  Parent c = Some parent ->
  cpu_of_string h limit = Some v ->
  PrimFloat.ltb (CpuLimit parent) v = true ->
  IsSuperUser client = false ->
  option_map (fun r => CpuLimit (snd r)) (TCpuLimit_Set h client c limit)
    = Some (CpuLimit c).
Proof.
  intros Hp Hv Hlt Hsu. unfold TCpuLimit_Set.
  destruct (is_error (IsAlive c)); [reflexivity |].
  pose proof (WantControllers_fields c (CGROUP_CPU h)) as [Hpar Hcpu].
  destruct (WantControllers c (CGROUP_CPU h)) as [e1 c1]. simpl in *.
  destruct (is_error e1); [simpl; now rewrite Hcpu |].
  unfold StringToCpuValue. rewrite Hv, Hpar, Hp, Hlt, Hsu. simpl.
  now rewrite Hcpu.
Qed.

(** C6 (as amended): for a container with a parent and a value that parses
    to more cores than the parent's [CpuLimit], a non-superuser's set
    returns [InvalidValue] when the container passes the setter's earlier
    checks (it is not dead, and it is stopped or already has the cpu
    controller); on a dead container it returns [InvalidState], and on a
    live one that is not stopped and lacks the cpu controller
    [NotSupported]; in each case [CpuLimit] is left as it was.  The same set
    by a superuser on a container that passes those checks succeeds. *)
Theorem C6_cpu_limit_bound (h : THost) (client : TClient)
    (c parent : TContainer) (limit : string) (v : float) :
  Parent c = Some parent ->
  cpu_of_string h limit = Some v ->
  PrimFloat.ltb (CpuLimit parent) v = true ->
  (IsSuperUser client = false ->
     (cpu_set_admitted h c ->
        option_map fst (TCpuLimit_Set h client c limit) = Some InvalidValue) /\
     (State c = Dead ->
        option_map fst (TCpuLimit_Set h client c limit) = Some InvalidState) /\
     (State c <> Dead -> State c <> Stopped ->
      Z.land (Controllers c) (CGROUP_CPU h) <> CGROUP_CPU h ->
        option_map fst (TCpuLimit_Set h client c limit) = Some NotSupported) /\
     option_map (fun r => CpuLimit (snd r)) (TCpuLimit_Set h client c limit)
       = Some (CpuLimit c)) /\
  (IsSuperUser client = true -> cpu_set_admitted h c ->
     option_map fst (TCpuLimit_Set h client c limit) = Some Success).
Proof.
  intros Hp Hv Hlt. split.
  - intros Hsu. repeat split.
    + intros Hadm.
      rewrite (TCpuLimit_Set_over_parent h client c parent limit v) by assumption.
      reflexivity.
    + intros Hd. rewrite TCpuLimit_Set_dead by assumption. reflexivity.
    + intros Hd Hs Hc.
      rewrite TCpuLimit_Set_no_controller by assumption. reflexivity.
    + apply (TCpuLimit_Set_rejected_keeps h client c parent limit v);
        assumption.
  - intros Hsu Hadm.
    apply (TCpuLimit_Set_superuser h client c parent limit v); assumption.
Qed.

Lemma C6_cpu_limit_bound_witness :
  option_map fst (TCpuLimit_Set sample_host (mkClient false)
                    (child_of_one_core Stopped) "2c") = Some InvalidValue /\
  option_map (fun r => CpuLimit (snd r))
    (TCpuLimit_Set sample_host (mkClient false)
       (child_of_one_core Stopped) "2c")
    = Some (CpuLimit (child_of_one_core Stopped)) /\
  option_map fst (TCpuLimit_Set sample_host (mkClient true)
                    (child_of_one_core Stopped) "2c") = Some Success.
Proof.
  pose proof (fun client =>
    C6_cpu_limit_bound sample_host client (child_of_one_core Stopped)
      one_core_parent "2c" 2%float eq_refl eq_refl eq_refl) as H.
  assert (Hadm : cpu_set_admitted sample_host (child_of_one_core Stopped)).
  { split; [simpl; discriminate | left; reflexivity]. }
  split; [| split].
  - apply (proj1 (proj1 (H (mkClient false)) eq_refl) Hadm).
  - apply (proj2 (proj2 (proj2 (proj1 (H (mkClient false)) eq_refl)))).
  - apply (proj2 (H (mkClient true)) eq_refl Hadm).
Defined.

(** C6 as stated fails: a dead container with a parent limited to one
    core, a principal that is not a superuser, and the value [2c]: the set
    returns [InvalidState], not [InvalidValue]. *)
Lemma C6_counterexample :
  Parent (child_of_one_core Dead) = Some one_core_parent /\
  cpu_of_string sample_host "2c" = Some 2%float /\
  PrimFloat.ltb (CpuLimit one_core_parent) 2%float = true /\
  TCpuLimit_Set sample_host (mkClient false) (child_of_one_core Dead) "2c"
    = Some (InvalidState, child_of_one_core Dead) /\
  InvalidState <> InvalidValue.
Proof. repeat split; discriminate. Qed.

(** ** ulimit *)

Lemma TUlimit_Set_dead (h : THost) (c : TContainer) (value : string) :
  State c = Dead -> TUlimit_Set h c value = (InvalidState, c).
Proof.
  intros Hs. unfold TUlimit_Set. rewrite IsAlive_dead by assumption.
  reflexivity.
Qed.

(** C7 (the source departs from it): the whole-map set of [ulimit] on a
    dead container returns [InvalidState] and leaves the container as it was,
    but the indexed set has no state check: on a dead container an indexed
    set with an empty value succeeds and erases the entry, and one with a
    value that [ParseUlimit] accepts succeeds and stores it. *)
Theorem C7_indexed_ulimit_set_on_dead (h : THost) (c : TContainer)
    (index value : string) :
  State c = Dead ->
  TUlimit_Set h c value = (InvalidState, c) /\
  TUlimit_SetIndexed h c index ""
    = (Success, SetProp ULIMIT (set_Ulimit (map_erase (Ulimit c) index) c)) /\
  (value <> ""%string -> ParseUlimit h index value = Success ->
   TUlimit_SetIndexed h c index value
     = (Success,
        SetProp ULIMIT (set_Ulimit (map_assign (Ulimit c) index value) c))).
Proof.
  intros Hs. split; [apply TUlimit_Set_dead, Hs |].
  split; [reflexivity |].
  intros Hv Hp. unfold TUlimit_SetIndexed.
  apply String.eqb_neq in Hv. rewrite Hv, Hp. reflexivity.
Qed.

Lemma C7_indexed_ulimit_set_witness :
  Ulimit dead_with_ulimit = [("nofile", "1024 2048")]%string /\
  fst (TUlimit_SetIndexed sample_host dead_with_ulimit "nofile" "") = Success /\
  Ulimit (snd (TUlimit_SetIndexed sample_host dead_with_ulimit "nofile" ""))
    = [] /\
  Ulimit (snd (TUlimit_SetIndexed sample_host dead_with_ulimit "core" "0 0"))
    = [("core", "0 0"); ("nofile", "1024 2048")]%string.
Proof.
  pose proof (C7_indexed_ulimit_set_on_dead sample_host dead_with_ulimit
                "nofile" "" eq_refl) as (_ & H1 & _).
  pose proof (C7_indexed_ulimit_set_on_dead sample_host dead_with_ulimit
                "core" "0 0" eq_refl) as (_ & _ & H2).
  split; [reflexivity |]. rewrite H1. split; [reflexivity |].
  split; [reflexivity |].
  rewrite H2; [reflexivity | discriminate | reflexivity].
Defined.

(** ** booleans *)

Lemma StringToBool_other (value : string) :
  value <> "true"%string -> value <> "false"%string ->
  StringToBool value = Err Unknown.
Proof.
  intros Ht Hf. unfold StringToBool.
  apply String.eqb_neq in Ht, Hf. rewrite Ht, Hf. reflexivity.
Qed.

(** C9 (the source departs from it): on a stopped container [bind_dns]
    stores [true] for the literal [true] and [false] for the literal
    [false]; for any other string the set fails and leaves the container as
    it was, but the error kind is [Unknown], the kind [StringToBool]
    returns, not [InvalidValue]. *)
Theorem C9_bind_dns_set (c : TContainer) (value : string) :
  State c = Stopped ->
  TBindDns_Set c "true" = (Success, SetProp BIND_DNS (set_BindDns true c)) /\
  TBindDns_Set c "false" = (Success, SetProp BIND_DNS (set_BindDns false c)) /\
  (value <> "true"%string -> value <> "false"%string ->
   TBindDns_Set c value = (Unknown, c)).
Proof.
  intros Hs. unfold TBindDns_Set.
  rewrite IsAliveAndStopped_stopped by assumption. simpl.
  repeat split. intros Ht Hf. rewrite StringToBool_other by assumption.
  reflexivity.
Qed.

Lemma C9_bind_dns_set_witness :
  BindDns (snd (TBindDns_Set (new_container None) "true")) = true /\
  BindDns (snd (TBindDns_Set (new_container None) "false")) = false /\
  TBindDns_Set (new_container None) "yes" = (Unknown, new_container None).
Proof.
  pose proof (C9_bind_dns_set (new_container None) "yes" eq_refl)
    as (H1 & H2 & H3).
  rewrite H1, H2. split; [reflexivity |]. split; [reflexivity |].
  apply H3; discriminate.
Defined.

(** X6: the sibling setter [isolate] compares the literals itself and
    returns [InvalidValue] for any other string, leaving the container as it
    was. *)
Theorem TIsolate_Set_other (c : TContainer) (value : string) :
  State c = Stopped ->
  value <> "true"%string -> value <> "false"%string ->
  TIsolate_Set c value = (InvalidValue, c).
Proof.
  intros Hs Ht Hf. unfold TIsolate_Set.
  rewrite IsAliveAndStopped_stopped by assumption. simpl.
  apply String.eqb_neq in Ht, Hf. rewrite Ht, Hf. reflexivity.
Qed.

Lemma TIsolate_Set_other_witness :
  TIsolate_Set (new_container None) "yes" = (InvalidValue, new_container None).
Proof.
  apply (TIsolate_Set_other (new_container None) "yes");
    [reflexivity | discriminate | discriminate].
Defined.

(** ** exit_code *)

(** C10: on a dead container [exit_code] reads [-99] when [OomKilled] is
    set; otherwise the negated signal number when the exit status encodes
    a termination by signal (status 0x8B gives [-11]), and otherwise the
    exit code of the wait status; in any state but [Dead] the read returns
    [InvalidState]. *)
Theorem C10_exit_code (c : TContainer) :
  (State c = Dead -> OomKilled c = true ->
     TExitCodeProperty_Get c = Ok "-99"%string) /\
  (State c = Dead -> OomKilled c = false ->
   WIFSIGNALED (ExitStatus c) = true ->
     TExitCodeProperty_Get c = Ok (to_string (- WTERMSIG (ExitStatus c)))) /\
  (State c = Dead -> OomKilled c = false -> ExitStatus c = 139 ->
     TExitCodeProperty_Get c = Ok "-11"%string) /\
  (State c = Dead -> OomKilled c = false ->
   WIFSIGNALED (ExitStatus c) = false ->
     TExitCodeProperty_Get c = Ok (to_string (WEXITSTATUS (ExitStatus c)))) /\
  (State c <> Dead -> TExitCodeProperty_Get c = Err InvalidState).
Proof.
  unfold TExitCodeProperty_Get, IsDead. repeat split.
  - intros -> ->. reflexivity.
  - intros -> -> ->. reflexivity.
  - intros -> -> ->. reflexivity.
  - intros -> -> ->. reflexivity.
  - intros Hs. destruct (State c); try reflexivity. congruence.
Qed.

Lemma C10_exit_code_witness :
  TExitCodeProperty_Get (dead_with 139 true) = Ok "-99"%string /\
  TExitCodeProperty_Get (dead_with 139 false) = Ok "-11"%string /\
  TExitCodeProperty_Get (dead_with 9 false) = Ok "-9"%string /\
  TExitCodeProperty_Get (dead_with 768 false) = Ok "3"%string /\
  TExitCodeProperty_Get (new_container None) = Err InvalidState.
Proof.
  split; [| split; [| split; [| split]]].
  - apply (proj1 (C10_exit_code (dead_with 139 true))); reflexivity.
  - apply (proj1 (proj2 (proj2 (C10_exit_code (dead_with 139 false)))));
      reflexivity.
  - apply (proj1 (proj2 (C10_exit_code (dead_with 9 false)))); reflexivity.
  - apply (proj1 (proj2 (proj2 (proj2 (C10_exit_code (dead_with 768 false))))));
      reflexivity.
  - apply (proj2 (proj2 (proj2 (proj2 (C10_exit_code (new_container None)))))).
    simpl. discriminate.
Defined.

(** ** capabilities_ambient *)

Lemma SanitizeCapabilities_spec_clamps (h h' : THost) :
  SanitizeCapabilities h = SanitizeCapabilities_spec h' -> sanitize_clamps h.
Proof.
  intros E client c. rewrite E. unfold SanitizeCapabilities_spec. simpl.
  split; [apply subset_refl | apply subset_land_l].
Qed.


Lemma subset_lor_l (a b : Z) : subset a (Z.lor a b).
Proof. rewrite Z.lor_comm. apply subset_lor_r. Qed.

Lemma TCapLimit_CommitLimit_success (h : THost) (client : TClient)
    (c : TContainer) (limit : TCapabilities) :
  fst (TCapLimit_CommitLimit h client c limit) = Success ->
  snd (TCapLimit_CommitLimit h client c limit)
    = SanitizeCapabilities h client (SetProp CAPABILITIES (set_CapLimit limit c)).
Proof.
  unfold TCapLimit_CommitLimit, IsAliveAndStopped.
  destruct (State c); simpl; try discriminate.
  destruct (negb (Z.land (Permitted limit)
                    (not64 (Permitted (AllCapabilities h))) =? 0));
    simpl; try discriminate.
  destruct (negb (Z.land (Permitted limit)
                    (not64 (limit_bound h client c)) =? 0));
    simpl; try discriminate.
  reflexivity.
Qed.




(** ** Escaped tuples: split after merge *)

Section SplitMerge.

Local Open Scope string_scope.

Lemma append_empty_r (s : string) : s ++ "" = s.
Proof. induction s as [|c s IH]; simpl; [reflexivity | now rewrite IH]. Qed.

Lemma append_assoc (a b c : string) : (a ++ b) ++ c = a ++ (b ++ c).
Proof. induction a as [|x a IH]; simpl; [reflexivity | now rewrite IH]. Qed.

Lemma append_snoc (a : string) (c : ascii) (b : string) :
  (a ++ String c "") ++ b = a ++ String c b.
Proof. now rewrite append_assoc. Qed.

(** *** Replacing a one-character pattern works character by character *)

Lemma StringReplaceAll_cons (f : ascii) (to : string) (c : ascii) (r : string) :
  StringReplaceAll (String c r) (String f "") to
    = replace_char f to c ++ StringReplaceAll r (String f "") to.
Proof.
  unfold StringReplaceAll, replace_char. simpl.
  destruct (ascii_dec f c) as [-> | Hne].
  - rewrite Ascii.eqb_refl. destruct r; reflexivity.
  - apply Ascii.eqb_neq in Hne. rewrite Hne. reflexivity.
Qed.

Lemma StringReplaceAll_app (f : ascii) (to a b : string) :
  StringReplaceAll (a ++ b) (String f "") to
    = StringReplaceAll a (String f "") to ++ StringReplaceAll b (String f "") to.
Proof.
  induction a as [|c a IH]; [reflexivity |].
  simpl. rewrite !StringReplaceAll_cons, IH, append_assoc. reflexivity.
Qed.

Lemma StringReplaceAll_unit (f : ascii) (to : string) (c : ascii) :
  StringReplaceAll (String c "") (String f "") to = replace_char f to c.
Proof. rewrite StringReplaceAll_cons. apply append_empty_r. Qed.

Variables sep_inner sep_outer : ascii.
Hypothesis inner_not_backslash : sep_inner <> backslash.
Hypothesis outer_not_backslash : sep_outer <> backslash.
Hypothesis inner_not_outer : sep_inner <> sep_outer.
Hypothesis outer_set : char_true sep_outer = true.

Lemma escape_cons (c : ascii) (s : string) :
  escape sep_inner sep_outer (String c s)
    = escape_char sep_inner sep_outer c ++ escape sep_inner sep_outer s.
Proof.
  unfold escape. rewrite outer_set.
  rewrite (StringReplaceAll_cons backslash), !StringReplaceAll_app.
  f_equal. unfold escape_char, special, replace_char at 1.
  assert (Hib : Ascii.eqb sep_inner backslash = false)
    by (apply Ascii.eqb_neq; assumption).
  assert (Hob : Ascii.eqb sep_outer backslash = false)
    by (apply Ascii.eqb_neq; assumption).
  assert (Hio : Ascii.eqb sep_outer sep_inner = false)
    by (apply Ascii.eqb_neq; congruence).
  rewrite (Ascii.eqb_sym c backslash).
  destruct (Ascii.eqb_spec backslash c) as [<- | Hb]; simpl.
  - rewrite !StringReplaceAll_cons. unfold replace_char.
    rewrite Hib. simpl. rewrite !StringReplaceAll_cons. unfold replace_char.
    rewrite Hob. reflexivity.
  - rewrite StringReplaceAll_unit. unfold replace_char.
    rewrite (Ascii.eqb_sym c sep_inner).
    destruct (Ascii.eqb_spec sep_inner c) as [<- | Hi]; simpl.
    + rewrite !StringReplaceAll_cons. unfold replace_char.
      rewrite Hob, Hio. reflexivity.
    + rewrite StringReplaceAll_unit. unfold replace_char.
      rewrite (Ascii.eqb_sym c sep_outer).
      destruct (Ascii.eqb_spec sep_outer c) as [<- | Ho]; reflexivity.
Qed.

Lemma escape_empty : escape sep_inner sep_outer "" = "".
Proof. unfold escape. rewrite outer_set. reflexivity. Qed.

(** *** The loop reads an escaped token back *)

Lemma split_loop_escape (tok rest ss : string) (done : TMultiTuple)
    (back : TTuple) :
  split_loop sep_inner sep_outer (escape sep_inner sep_outer tok ++ rest)
    ss done back
  = split_loop sep_inner sep_outer rest (ss ++ tok) done back.
Proof.
  revert ss. induction tok as [|c tok IH]; intros ss.
  - rewrite escape_empty, append_empty_r. reflexivity.
  - rewrite escape_cons, append_assoc.
    assert (Hb1 : Ascii.eqb backslash sep_inner = false)
      by (apply Ascii.eqb_neq; congruence).
    assert (Hb2 : Ascii.eqb backslash sep_outer = false)
      by (apply Ascii.eqb_neq; congruence).
    unfold escape_char. destruct (special sep_inner sep_outer c) eqn:Hsp.
    + (* written as backslash, c *)
      cbn [append split_loop]. rewrite Hb1, Hb2, andb_false_r.
      cbn [orb]. rewrite Ascii.eqb_refl. unfold escapable.
      rewrite outer_set. unfold special in Hsp. cbn [andb]. rewrite Hsp.
      rewrite IH, append_snoc. reflexivity.
    + (* written as itself: neither a separator nor a backslash *)
      unfold special in Hsp.
      apply orb_false_iff in Hsp as [Hsp Ho].
      apply orb_false_iff in Hsp as [Hbs Hi].
      change (String c "" ++ (escape sep_inner sep_outer tok ++ rest))
        with (String c (escape sep_inner sep_outer tok ++ rest)).
      cbn [split_loop]. rewrite Hi, Ho, Hbs, andb_false_r. cbn [orb andb].
      rewrite <- (append_snoc ss c tok), <- (IH (ss ++ String c "")).
      destruct (escape sep_inner sep_outer tok ++ rest); reflexivity.
Qed.

(** *** Separators between trimmed tokens *)

Lemma push_token_trimmed (ss : string) (back : TTuple) :
  trimmed ss -> push_token ss back = (back ++ [ss])%list.
Proof.
  intros [Hne Ht]. unfold push_token. rewrite Ht.
  destruct ss; [contradiction | reflexivity].
Qed.

Lemma nonempty_snoc {A : Type} (l : list A) (x : A) :
  nonempty (l ++ [x])%list = true.
Proof. destruct l; reflexivity. Qed.

Lemma split_loop_inner (tok rest ss : string) (done : TMultiTuple)
    (back : TTuple) :
  trimmed ss ->
  split_loop sep_inner sep_outer
    (String sep_inner (escape sep_inner sep_outer tok ++ rest)) ss done back
  = split_loop sep_inner sep_outer rest tok done (back ++ [ss])%list.
Proof.
  intros Hss. cbn [split_loop].
  rewrite Ascii.eqb_refl. cbn [orb].
  rewrite (push_token_trimmed _ _ Hss).
  assert (Hio : Ascii.eqb sep_inner sep_outer = false)
    by (apply Ascii.eqb_neq; assumption).
  rewrite Hio, andb_false_r. cbn [andb].
  apply split_loop_escape.
Qed.

Lemma split_loop_outer (tok rest ss : string) (done : TMultiTuple)
    (back : TTuple) :
  trimmed ss ->
  split_loop sep_inner sep_outer
    (String sep_outer (escape sep_inner sep_outer tok ++ rest)) ss done back
  = split_loop sep_inner sep_outer rest tok
      (done ++ [(back ++ [ss])%list])%list [].
Proof.
  intros Hss. cbn [split_loop].
  rewrite Ascii.eqb_refl, outer_set. cbn [andb]. rewrite orb_true_r.
  rewrite (push_token_trimmed _ _ Hss), nonempty_snoc.
  apply split_loop_escape.
Qed.

Lemma split_loop_end (ss : string) (done : TMultiTuple) (back : TTuple) :
  trimmed ss ->
  split_loop sep_inner sep_outer "" ss done back
  = (done ++ [(back ++ [ss])%list])%list.
Proof.
  intros Hss. cbn [split_loop].
  rewrite (push_token_trimmed _ _ Hss), nonempty_snoc. reflexivity.
Qed.

(** *** One tuple, then all of them *)

Lemma merge_tuple_rest_cons (tok : string) (toks : TTuple) :
  merge_tuple sep_inner sep_outer (tok :: toks) false
  = String sep_inner
      (escape sep_inner sep_outer tok
       ++ merge_tuple sep_inner sep_outer toks false).
Proof. reflexivity. Qed.

Lemma split_loop_tuple_rest (toks : TTuple) :
  forall (ss rest : string) (done : TMultiTuple) (back : TTuple),
    trimmed ss -> Forall trimmed toks ->
    exists ss' back',
      trimmed ss' /\
      (back' ++ [ss'] = back ++ ss :: toks)%list /\
      split_loop sep_inner sep_outer
        (merge_tuple sep_inner sep_outer toks false ++ rest) ss done back
      = split_loop sep_inner sep_outer rest ss' done back'.
Proof.
  induction toks as [|tok toks IH]; intros ss rest done back Hss Htoks.
  - exists ss, back. repeat split; try apply Hss.
  - inversion Htoks as [|? ? Htok Htoks']; subst.
    destruct (IH tok rest done (back ++ [ss])%list Htok Htoks')
      as (ss' & back' & Hss' & Hlist & Heq).
    exists ss', back'. split; [exact Hss' |]. split.
    + rewrite Hlist, <- app_assoc. reflexivity.
    + rewrite merge_tuple_rest_cons. cbn [append]. rewrite append_assoc.
      rewrite split_loop_inner by assumption. exact Heq.
Qed.

Lemma merge_loop_cons (tok : string) (toks : TTuple) (tuples : TMultiTuple)
    (first_outer : bool) :
  merge_loop sep_inner sep_outer ((tok :: toks) :: tuples) first_outer
  = (if first_outer then "" else String sep_outer "")
    ++ escape sep_inner sep_outer tok
    ++ merge_tuple sep_inner sep_outer toks false
    ++ merge_loop sep_inner sep_outer tuples false.
Proof.
  cbn [merge_loop nonempty merge_tuple negb]. rewrite outer_set, andb_false_r.
  cbn [append]. rewrite !append_assoc. reflexivity.
Qed.

Lemma split_loop_rest (tuples : TMultiTuple) :
  forall (ss : string) (done : TMultiTuple) (back : TTuple),
    trimmed ss -> canonical tuples ->
    split_loop sep_inner sep_outer
      (merge_loop sep_inner sep_outer tuples false) ss done back
    = (done ++ (back ++ [ss]) :: tuples)%list.
Proof.
  induction tuples as [|tuple tuples IH]; intros ss done back Hss Hc.
  - cbn [merge_loop]. apply split_loop_end. exact Hss.
  - inversion Hc as [|? ? [Hne Htoks] Hc']; subst.
    destruct tuple as [|tok toks]; [contradiction |].
    inversion Htoks as [|? ? Htok Htoks']; subst.
    rewrite merge_loop_cons. cbn [append].
    rewrite split_loop_outer by assumption.
    destruct (split_loop_tuple_rest toks tok
                (merge_loop sep_inner sep_outer tuples false)
                (done ++ [(back ++ [ss])%list])%list [] Htok Htoks')
      as (ss' & back' & Hss' & Hlist & Heq).
    rewrite Heq, (IH ss' _ back' Hss' Hc'), Hlist, <- app_assoc.
    reflexivity.
Qed.

(** Splitting what was merged from canonical tuples gives the tuples back,
    after those the vector already held. *)
Lemma SplitEscapedString_Merge (tuples tuples0 : TMultiTuple) :
  canonical tuples ->
  SplitEscapedString (MergeEscapeStrings tuples sep_inner sep_outer) tuples0
    sep_inner sep_outer
  = (tuples0 ++ tuples)%list.
Proof.
  intros Hc. unfold SplitEscapedString, MergeEscapeStrings.
  destruct tuples as [|tuple tuples].
  - cbn. rewrite app_nil_r. reflexivity.
  - inversion Hc as [|? ? [Hne Htoks] Hc']; subst.
    destruct tuple as [|tok toks]; [contradiction |].
    inversion Htoks as [|? ? Htok Htoks']; subst.
    rewrite merge_loop_cons. cbn [append].
    rewrite split_loop_escape. cbn [append].
    destruct (split_loop_tuple_rest toks tok
                (merge_loop sep_inner sep_outer tuples false)
                tuples0 [] Htok Htoks')
      as (ss' & back' & Hss' & Hlist & Heq).
    rewrite Heq, (split_loop_rest tuples ss' tuples0 back' Hss' Hc'), Hlist.
    reflexivity.
Qed.

End SplitMerge.

(** ** Escaped tuples: what a split produces *)

Section Trim.

Local Open Scope string_scope.

Variable what : string.

Lemma substring_0_0 (s : string) : substring 0 0 s = "".
Proof. destruct s; reflexivity. Qed.

Lemma drop_back_spec (s : string) :
  drop_back what s
  = match find_last_not_of what s with
    | Some last => substring 0 (S last) s
    | None => ""
    end.
Proof.
  induction s as [|c r IH]; [reflexivity |].
  cbn [drop_back find_last_not_of]. rewrite IH.
  destruct (find_last_not_of what r) as [last |] eqn:E.
  - destruct r as [|a r']; [discriminate E |]. reflexivity.
  - destruct (contains what c); [reflexivity |].
    cbn [substring]. rewrite substring_0_0. reflexivity.
Qed.

Lemma StringTrim_spec (s : string) :
  StringTrim s what = drop_back what (drop_front what s).
Proof.
  induction s as [|c r IH]; [reflexivity |].
  cbn [drop_front]. destruct (contains what c) eqn:Hc.
  - rewrite <- IH. unfold StringTrim. cbn [find_first_not_of find_last_not_of].
    rewrite Hc.
    destruct (find_first_not_of what r) as [first |],
             (find_last_not_of what r) as [last |]; reflexivity.
  - rewrite drop_back_spec. unfold StringTrim.
    cbn [find_first_not_of]. rewrite Hc.
    destruct (find_last_not_of what (String c r)) as [last |]; [| reflexivity].
    rewrite Nat.sub_0_r, Nat.add_1_r. reflexivity.
Qed.

Lemma drop_front_clean (s : string) : starts_clean what s -> drop_front what s = s.
Proof. destruct s as [|c r]; [reflexivity |]. cbn. intros ->. reflexivity. Qed.

Lemma drop_front_starts_clean (s : string) : starts_clean what (drop_front what s).
Proof.
  induction s as [|c r IH]; [exact I |].
  cbn [drop_front]. destruct (contains what c) eqn:Hc; [exact IH | exact Hc].
Qed.

Lemma drop_back_starts_clean (s : string) :
  starts_clean what s -> starts_clean what (drop_back what s).
Proof.
  destruct s as [|c r]; [trivial |]. cbn [starts_clean drop_back]. intros Hc.
  rewrite Hc. destruct (drop_back what r); exact Hc.
Qed.

Lemma drop_back_idem (s : string) : drop_back what (drop_back what s) = drop_back what s.
Proof.
  induction s as [|c r IH]; [reflexivity |].
  cbn [drop_back]. destruct (drop_back what r) as [|a r'] eqn:E.
  - destruct (contains what c) eqn:Hc; [reflexivity |].
    cbn [drop_back]. rewrite Hc. reflexivity.
  - cbn [drop_back] in IH |- *. rewrite IH. reflexivity.
Qed.

Lemma StringTrim_idem (s : string) :
  StringTrim (StringTrim s what) what = StringTrim s what.
Proof.
  rewrite (StringTrim_spec (StringTrim s what)), (StringTrim_spec s).
  rewrite drop_front_clean.
  - apply drop_back_idem.
  - apply drop_back_starts_clean, drop_front_starts_clean.
Qed.

End Trim.

Section SplitCanonical.

Local Open Scope string_scope.

Variables sep_inner sep_outer : ascii.

Lemma push_token_keeps_trimmed (ss : string) (back : TTuple) :
  Forall trimmed back -> Forall trimmed (push_token ss back).
Proof.
  intros Hb. unfold push_token.
  destruct (StringTrim ss default_what) as [|c r] eqn:E; [exact Hb |].
  cbn. apply Forall_app. split; [exact Hb |].
  constructor; [| constructor]. split; [discriminate |].
  rewrite <- E. apply StringTrim_idem.
Qed.

Lemma canonical_snoc (done : TMultiTuple) (back : TTuple) :
  canonical done -> Forall trimmed back -> nonempty back = true ->
  canonical (done ++ [back])%list.
Proof.
  intros Hd Hb Hn. apply Forall_app. split; [exact Hd |].
  constructor; [| constructor]. split; [| exact Hb].
  destruct back; [discriminate | discriminate].
Qed.

Lemma split_loop_canonical (n : nat) :
  forall (i ss : string) (done : TMultiTuple) (back : TTuple),
    (String.length i <= n)%nat ->
    canonical done -> Forall trimmed back ->
    canonical (split_loop sep_inner sep_outer i ss done back).
Proof.
  induction n as [|n IH]; intros i ss done back Hlen Hd Hb.
  - destruct i as [|c rest]; [| cbn in Hlen; lia].
    cbn [split_loop].
    pose proof (push_token_keeps_trimmed ss back Hb) as Hp.
    destruct (nonempty (push_token ss back)) eqn:Hn; [| exact Hd].
    apply canonical_snoc; assumption.
  - destruct i as [|c rest].
    + cbn [split_loop].
      pose proof (push_token_keeps_trimmed ss back Hb) as Hp.
      destruct (nonempty (push_token ss back)) eqn:Hn; [| exact Hd].
      apply canonical_snoc; assumption.
    + cbn [String.length] in Hlen. cbn [split_loop].
      pose proof (push_token_keeps_trimmed ss back Hb) as Hp.
      destruct (Ascii.eqb c sep_inner
                || char_true sep_outer && Ascii.eqb c sep_outer).
      * destruct (char_true sep_outer && Ascii.eqb c sep_outer
                  && nonempty (push_token ss back)) eqn:Hn.
        -- apply IH; [lia | | constructor].
           apply andb_true_iff in Hn as [_ Hn].
           apply canonical_snoc; assumption.
        -- apply IH; [lia | assumption | assumption].
      * destruct rest as [|m rest'].
        -- apply IH; [cbn; lia | assumption | assumption].
        -- cbn [String.length] in Hlen.
           destruct (Ascii.eqb c backslash && escapable sep_inner sep_outer m).
           ++ apply IH; [lia | assumption | assumption].
           ++ apply IH; [cbn; lia | assumption | assumption].
Qed.

(** Whatever the string, the split is canonical. *)
Lemma SplitEscapedString_canonical (str : string) :
  canonical (SplitEscapedString str [] sep_inner sep_outer).
Proof.
  unfold SplitEscapedString.
  apply (split_loop_canonical (String.length str)); [lia | | ]; constructor.
Qed.

End SplitCanonical.

(** X3: for separators that differ from each other and from the backslash,
    the outer one not NUL, splitting the merge of canonical tuples appends
    exactly those tuples to the vector. *)
Theorem split_of_merge_any_separators (sep_inner sep_outer : ascii)
    (tuples tuples0 : TMultiTuple) :
  sep_inner <> backslash -> sep_outer <> backslash ->
  sep_inner <> sep_outer -> char_true sep_outer = true ->
  canonical tuples ->
  SplitEscapedString (MergeEscapeStrings tuples sep_inner sep_outer) tuples0
    sep_inner sep_outer
  = (tuples0 ++ tuples)%list.
Proof. intros. apply SplitEscapedString_Merge; assumption. Qed.

Lemma split_of_merge_any_separators_witness :
  SplitEscapedString
    (MergeEscapeStrings [["k"; "a:b"]; ["x,y"]]%string ":" ",")
    [["old"]]%string ":" ","
  = [["old"]; ["k"; "a:b"]; ["x,y"]]%string.
Proof.
  apply (split_of_merge_any_separators ":" "," [["k"; "a:b"]; ["x,y"]]%string
           [["old"]]%string);
    try discriminate; try reflexivity.
  repeat constructor; discriminate.
Defined.

(** X4: [StringTrim] is idempotent, whatever the set of trimmed
    characters. *)
Theorem trim_idempotent (what s : string) :
  StringTrim (StringTrim s what) what = StringTrim s what.
Proof. apply StringTrim_idem. Qed.

(** X5: whatever the string and the separators, a split holds no empty
    tuple, and every token in it is non-empty and unchanged by trimming. *)
Theorem split_is_canonical (sep_inner sep_outer : ascii) (str : string) :
  canonical (SplitEscapedString str [] sep_inner sep_outer).
Proof. apply SplitEscapedString_canonical. Qed.

(** C8 (as amended): splitting [a\;b;c] on blank and semicolon gives the
    tuples [a;b] and [c].  For every list of canonical tuples (no empty
    tuple, every token non-empty and free of whitespace at its ends) the
    split of its merge is the list itself, so that a merged string is
    returned unchanged by split-then-merge.  For an arbitrary string the
    split is canonical, so split-then-merge gives a string with the same
    split, which split-then-merge returns unchanged; it need not be the
    string itself. *)
Theorem C8_escaped_tuples :
  SplitEscapedString "a\;b;c" [] " " ";" = [["a;b"]; ["c"]]%string /\
  (forall tuples : TMultiTuple,
     canonical tuples ->
     SplitEscapedString (MergeEscapeStrings tuples " " ";") [] " " ";" = tuples /\
     MergeEscapeStrings
       (SplitEscapedString (MergeEscapeStrings tuples " " ";") [] " " ";")
       " " ";"
     = MergeEscapeStrings tuples " " ";") /\
  (forall s : string,
     canonical (SplitEscapedString s [] " " ";") /\
     SplitEscapedString
       (MergeEscapeStrings (SplitEscapedString s [] " " ";") " " ";")
       [] " " ";"
     = SplitEscapedString s [] " " ";").
Proof.
  assert (RT : forall tuples, canonical tuples ->
               SplitEscapedString (MergeEscapeStrings tuples " " ";") [] " " ";"
               = tuples).
  { intros tuples Hc.
    apply (SplitEscapedString_Merge " " ";"); try assumption;
      try discriminate; reflexivity. }
  split; [reflexivity |]. split.
  - intros tuples Hc. rewrite (RT tuples Hc). split; reflexivity.
  - intros s. split; [apply SplitEscapedString_canonical |].
    apply RT, SplitEscapedString_canonical.
Qed.

Lemma C8_escaped_tuples_witness :
  SplitEscapedString
    (MergeEscapeStrings [["a b"; "\"]; ["c;d"]]%string " " ";") [] " " ";"
  = [["a b"; "\"]; ["c;d"]]%string /\
  MergeEscapeStrings [["a b"; "\"]; ["c;d"]]%string " " ";"
  = "a\ b \\;c\;d"%string.
Proof.
  split; [| reflexivity].
  apply (proj1 (proj2 C8_escaped_tuples)).
  repeat constructor; discriminate.
Defined.

(** C8 as stated fails: the strings [a;], [a  b] and [ a] hold no
    backslash at all, and split-then-merge returns [a], [a b] and [a]. *)
Lemma C8_counterexample :
  MergeEscapeStrings (SplitEscapedString "a;" [] " " ";") " " ";" = "a"%string /\
  "a"%string <> "a;"%string /\
  MergeEscapeStrings (SplitEscapedString "a  b" [] " " ";") " " ";"
    = "a b"%string /\
  "a b"%string <> "a  b"%string /\
  MergeEscapeStrings (SplitEscapedString " a" [] " " ";") " " ";" = "a"%string /\
  "a"%string <> " a"%string.
Proof. repeat split; discriminate. Qed.

(** ** memory_guarantee *)

(** X2: the scenario of the spec, with 100 bytes of memory and 10 in reserve:
    60 for [A] is accepted; 40 for [B] is then refused with
    [ResourceNotAvailable], [B] keeps its guarantee and its staged slot is
    restored, and the sum with the reserve stays within the total. *)
Example memory_guarantee_scenario :
  let r1 := TMemoryGuarantee_Set small_host two_children [0%nat] "60" in
  let t1 := tree_after r1 two_children in
  let r2 := TMemoryGuarantee_Set small_host t1 [1%nat] "40" in
  let t2 := tree_after r2 t1 in
  option_map fst r1 = Some Success /\
  guarantee_at t1 [0%nat] = Some 60 /\
  option_map fst r2 = Some ResourceNotAvailable /\
  guarantee_at t2 [1%nat] = guarantee_at t1 [1%nat] /\
  guarantee_at t2 [0%nat] = Some 60 /\
  GetTotalMemGuarantee t2 = SumMemGuarantee t2 /\
  SumMemGuarantee t2 + memory_guarantee_reserve small_host
    <= GetTotalMemory small_host.
Proof. vm_compute. repeat split; congruence. Qed.

(** Runs the tree operations on a tree given by its constructors; integer
    arithmetic is left as it stands. *)
Ltac run_tree :=
  cbv [tree_get nth_error tree_children tree_container
       new_container IsAlive is_error WantControllers
       tree_update update_nth GetTotalMemGuarantee SumMemGuarantee map fold_right
       set_NewMemGuarantee set_MemGuarantee SetProp set_PropSet
       set_Controllers set_RequiredControllers
       State Parent OwnerCred VirtMode Controllers RequiredControllers
       CapLimit CapAmbient CapAllowed Ulimit MemLimit MemGuarantee
       NewMemGuarantee CpuLimit BindDns Isolate OomIsFatal OomKilled
       ExitStatus PropSet tree_after guarantee_at option_map fst snd negb].

(** C4 (the source departs from it): the sum of the usage and the reserve
    is formed in 64 bits.  With a reserve [r] above zero, a first guarantee
    of [2^64 - r] makes the sum wrap to zero; the check passes, the set
    succeeds and commits the value, and the committed guarantee plus the
    reserve is [2^64], above any 64-bit total. *)
Theorem C4_guarantee_sum_wraps (h : THost) (value : string) :
  0 < memory_guarantee_reserve h < 2 ^ 64 ->
  0 <= GetTotalMemory h < 2 ^ 64 ->
  size_of_string h value = Some (2 ^ 64 - memory_guarantee_reserve h) ->
  let r := TMemoryGuarantee_Set h one_child [0%nat] value in
  option_map fst r = Some Success /\
  guarantee_at (tree_after r one_child) [0%nat]
    = Some (2 ^ 64 - memory_guarantee_reserve h) /\
  SumMemGuarantee (tree_after r one_child) + memory_guarantee_reserve h
    > GetTotalMemory h.
Proof.
  intros Hr Ht Hv r. subst r.
  unfold TMemoryGuarantee_Set, StringToSize, one_child.
  rewrite Hv. run_tree.
  replace (add64 (wrap64 (0 + (2 ^ 64 - memory_guarantee_reserve h + 0 + 0)))
             (memory_guarantee_reserve h)) with 0.
  2:{ unfold add64, wrap64.
      replace (0 + (2 ^ 64 - memory_guarantee_reserve h + 0 + 0))
        with (2 ^ 64 - memory_guarantee_reserve h) by lia.
      rewrite (Z.mod_small (2 ^ 64 - memory_guarantee_reserve h)) by lia.
      replace (2 ^ 64 - memory_guarantee_reserve h + memory_guarantee_reserve h)
        with (1 * 2 ^ 64) by lia.
      rewrite Z.mod_mul by lia. reflexivity. }
  replace (GetTotalMemory h <? 0) with false
    by (symmetry; apply Z.ltb_ge; lia).
  replace (0 =? 2 ^ 64 - memory_guarantee_reserve h) with false
    by (symmetry; apply Z.eqb_neq; lia).
  run_tree. split; [reflexivity |]. split; [reflexivity |]. lia.
Qed.

Lemma C4_guarantee_sum_wraps_witness :
  let r := TMemoryGuarantee_Set sample_host one_child [0%nat]
             "18446744071562067968" in
  (option_map fst r = Some Success /\
   guarantee_at (tree_after r one_child) [0%nat]
     = Some (2 ^ 64 - memory_guarantee_reserve sample_host) /\
   SumMemGuarantee (tree_after r one_child)
     + memory_guarantee_reserve sample_host
     > GetTotalMemory sample_host) /\
  GetTotalMemory sample_host = 17179869184 /\
  memory_guarantee_reserve sample_host = 2147483648 /\
  SumMemGuarantee (tree_after r one_child) = 18446744071562067968.
Proof.
  split.
  - apply (C4_guarantee_sum_wraps sample_host "18446744071562067968").
    + vm_compute. split; reflexivity.
    + vm_compute. split; [congruence | reflexivity].
    + vm_compute. reflexivity.
  - vm_compute. repeat split.
Defined.

(** *** The tree-sum bound when no sum wraps *)

Section Lists.

Context {A : Type}.

Lemma update_nth_id (n : nat) (F : A -> A) (l : list A) (x : A) :
  nth_error l n = Some x -> F x = x -> update_nth n F l = l.
Proof.
  revert n. induction l as [|y l IH]; intros [|n] Hn HF; cbn in *;
    try reflexivity.
  - injection Hn as ->. now rewrite HF.
  - now rewrite (IH n).
Qed.

Lemma update_nth_ext_at (n : nat) (F G : A -> A) (l : list A) (x : A) :
  nth_error l n = Some x -> F x = G x -> update_nth n F l = update_nth n G l.
Proof.
  revert n. induction l as [|y l IH]; intros [|n] Hn HF; cbn in *;
    try reflexivity.
  - injection Hn as ->. now rewrite HF.
  - now rewrite (IH n).
Qed.

Lemma update_nth_twice (n : nat) (F G : A -> A) (l : list A) :
  update_nth n F (update_nth n G l) = update_nth n (fun x => F (G x)) l.
Proof.
  revert n. induction l as [|y l IH]; intros [|n]; cbn; try reflexivity.
  now rewrite IH.
Qed.

Lemma nth_error_update_nth (n m : nat) (F : A -> A) (l : list A) :
  nth_error (update_nth n F l) m
  = if Nat.eqb m n then option_map F (nth_error l m) else nth_error l m.
Proof.
  revert n m. induction l as [|y l IH]; intros [|n] [|m]; cbn;
    try reflexivity.
  - destruct (Nat.eqb m n); reflexivity.
  - apply IH.
Qed.

Lemma sum_update_nth (s : A -> Z) (n : nat) (F : A -> A) (l : list A) (x : A) :
  nth_error l n = Some x ->
  fold_right Z.add 0 (map s (update_nth n F l))
  = fold_right Z.add 0 (map s l) - s x + s (F x).
Proof.
  revert n. induction l as [|y l IH]; intros [|n] Hn; cbn in *;
    try discriminate.
  - injection Hn as ->. lia.
  - rewrite (IH n Hn). lia.
Qed.

End Lists.

Lemma tree_update_id (cur : list nat) :
  forall root c,
    tree_get root cur = Some c -> tree_update (fun _ => c) root cur = root.
Proof.
  induction cur as [|n cur IH]; intros [c0 ch] c Hg; cbn in *.
  - injection Hg as ->. reflexivity.
  - destruct (nth_error ch n) as [child |] eqn:Hn; [| discriminate].
    f_equal. apply (update_nth_id n _ ch child Hn). apply IH, Hg.
Qed.

Lemma tree_update_twice (f g : TContainer -> TContainer) (cur : list nat) :
  forall root,
    tree_update f (tree_update g root cur) cur
    = tree_update (fun c => f (g c)) root cur.
Proof.
  induction cur as [|n cur IH]; intros [c0 ch]; cbn.
  - reflexivity.
  - f_equal. rewrite update_nth_twice.
    clear c0. induction ch as [|x ch IHch] in n |- *; destruct n; cbn;
      try reflexivity.
    + now rewrite IH.
    + now rewrite IHch.
Qed.

Lemma tree_get_update (f : TContainer -> TContainer) (cur : list nat) :
  forall root path c c',
    tree_get root cur = Some c ->
    tree_get (tree_update f root cur) path = Some c' ->
    c' = f c \/ tree_get root path = Some c'.
Proof.
  induction cur as [|n cur IH]; intros [c0 ch] path c c' Hg Hp; cbn in *.
  - injection Hg as ->. destruct path as [|m path]; cbn in *.
    + injection Hp as <-. now left.
    + now right.
  - destruct (nth_error ch n) as [child |] eqn:Hn; [| discriminate].
    destruct path as [|m path]; cbn in *; [now right |].
    rewrite nth_error_update_nth in Hp.
    destruct (Nat.eqb_spec m n) as [-> | Hne]; [| now right].
    rewrite Hn in Hp |- *. cbn in Hp. apply (IH child path c c' Hg Hp).
Qed.

Section TreeSum.

(** A sum over the tree of a field of the containers. *)
Variable g : TContainer -> Z.
Variable S : TTree -> Z.
Hypothesis S_Node :
  forall c ch, S (Node c ch) = g c + fold_right Z.add 0 (map S ch).

Lemma tree_sum_update (f : TContainer -> TContainer) (cur : list nat) :
  forall root c,
    tree_get root cur = Some c ->
    S (tree_update f root cur) = S root - g c + g (f c).
Proof.
  induction cur as [|n cur IH]; intros [c0 ch] c Hg; cbn in *.
  - injection Hg as ->. rewrite !S_Node. lia.
  - destruct (nth_error ch n) as [child |] eqn:Hn; [| discriminate].
    rewrite !S_Node, (sum_update_nth S n _ ch child Hn), (IH child c Hg). lia.
Qed.

End TreeSum.

Lemma GetTotalMemGuarantee_update (f : TContainer -> TContainer)
    (cur : list nat) (root : TTree) (c : TContainer) :
  tree_get root cur = Some c ->
  GetTotalMemGuarantee (tree_update f root cur)
  = GetTotalMemGuarantee root - NewMemGuarantee c + NewMemGuarantee (f c).
Proof.
  apply (tree_sum_update NewMemGuarantee GetTotalMemGuarantee).
  reflexivity.
Qed.

Lemma SumMemGuarantee_update (f : TContainer -> TContainer)
    (cur : list nat) (root : TTree) (c : TContainer) :
  tree_get root cur = Some c ->
  SumMemGuarantee (tree_update f root cur)
  = SumMemGuarantee root - MemGuarantee c + MemGuarantee (f c).
Proof.
  apply (tree_sum_update MemGuarantee SumMemGuarantee). reflexivity.
Qed.

(** Induction over a tree with the children as a list. *)
Lemma TTree_nested_ind (P : TTree -> Prop) :
  (forall c ch, Forall P ch -> P (Node c ch)) -> forall t, P t.
Proof.
  intros H.
  refine (fix rec (t : TTree) : P t :=
            match t with
            | Node c ch =>
                H c ch
                  ((fix children (l : list TTree) : Forall P l :=
                      match l with
                      | [] => Forall_nil P
                      | x :: l' => Forall_cons x (rec x) (children l')
                      end) ch)
            end).
Qed.

Lemma committed_sum (root : TTree) :
  committed root -> GetTotalMemGuarantee root = SumMemGuarantee root.
Proof.
  induction root as [c ch IH] using TTree_nested_ind. intros Hc.
  cbn [GetTotalMemGuarantee SumMemGuarantee].
  rewrite (Hc [] c eq_refl). f_equal. f_equal.
  apply map_ext_in. intros child Hin.
  rewrite Forall_forall in IH. apply (IH child Hin).
  destruct (In_nth_error ch child Hin) as [n Hn].
  intros path c' Hg. apply (Hc (n :: path) c'). cbn. rewrite Hn. exact Hg.
Qed.

Lemma committed_update (root : TTree) (cur : list nat) (c c' : TContainer) :
  committed root ->
  tree_get root cur = Some c ->
  NewMemGuarantee c' = MemGuarantee c' ->
  committed (tree_update (fun _ => c') root cur).
Proof.
  intros Hc Hg Hn path x Hx.
  destruct (tree_get_update _ cur root path c x Hg Hx) as [-> | Hold].
  - exact Hn.
  - apply (Hc path x Hold).
Qed.

(** The set on the tree is the step on the current container, put back in
    its place. *)
Lemma TMemoryGuarantee_Set_step (h : THost) (root : TTree) (cur : list nat)
    (c : TContainer) (mem_guarantee : string) :
  tree_get root cur = Some c ->
  TMemoryGuarantee_Set h root cur mem_guarantee
  = Some (fst (guarantee_step h c
                 (GetTotalMemGuarantee root - NewMemGuarantee c) mem_guarantee),
          tree_update
            (fun _ => snd (guarantee_step h c
                             (GetTotalMemGuarantee root - NewMemGuarantee c)
                             mem_guarantee))
            root cur).
Proof.
  intros Hg. unfold TMemoryGuarantee_Set, guarantee_step. rewrite Hg.
  f_equal.
  destruct (is_error (IsAlive c)).
  { cbn [fst snd]. now rewrite (tree_update_id cur root c Hg). }
  destruct (WantControllers c (CGROUP_MEMORY h)) as [error c1].
  destruct (is_error error); [reflexivity |].
  destruct (StringToSize h mem_guarantee) as [new_val | e]; [| reflexivity].
  rewrite !tree_update_twice.
  rewrite (GetTotalMemGuarantee_update _ cur root c Hg).
  cbn [NewMemGuarantee set_NewMemGuarantee].
  destruct (GetTotalMemory h
            <? add64 (wrap64 (GetTotalMemGuarantee root - NewMemGuarantee c
                              + new_val))
                 (memory_guarantee_reserve h)); [reflexivity |].
  destruct (negb (MemGuarantee c1 =? new_val)); reflexivity.
Qed.

Lemma WantControllers_guarantees (c : TContainer) (mask : Z) :
  MemGuarantee (snd (WantControllers c mask)) = MemGuarantee c /\
  NewMemGuarantee (snd (WantControllers c mask)) = NewMemGuarantee c.
Proof.
  unfold WantControllers.
  destruct (State c); simpl; try (destruct (negb _); simpl); split; reflexivity.
Qed.

(** What a step does to the two guarantee fields of its container. *)
Lemma guarantee_step_fields (h : THost) (c : TContainer) (others : Z)
    (value : string) :
  NewMemGuarantee c = MemGuarantee c ->
  let r := guarantee_step h c others value in
  NewMemGuarantee (snd r) = MemGuarantee (snd r) /\
  (MemGuarantee (snd r) = MemGuarantee c \/
   fst r = Success /\
   size_of_string h value = Some (MemGuarantee (snd r)) /\
   (GetTotalMemory h
    <? add64 (wrap64 (others + MemGuarantee (snd r)))
         (memory_guarantee_reserve h)) = false).
Proof.
  intros Hc. unfold guarantee_step.
  destruct (is_error (IsAlive c)); [cbn; auto |].
  destruct (WantControllers_guarantees c (CGROUP_MEMORY h)) as [Hm Hn].
  destruct (WantControllers c (CGROUP_MEMORY h)) as [error c1]. cbn in Hm, Hn.
  destruct (is_error error); [cbn; split; [congruence | auto] |].
  unfold StringToSize.
  destruct (size_of_string h value) as [new_val |] eqn:Hv;
    [| cbn; split; [congruence | auto]].
  destruct (GetTotalMemory h
            <? add64 (wrap64 (others + new_val)) (memory_guarantee_reserve h))
    eqn:Hcheck.
  - cbn. auto.
  - destruct (MemGuarantee c1 =? new_val) eqn:Heq; cbn.
    + apply Z.eqb_eq in Heq. split; [congruence |]. left. congruence.
    + split; [reflexivity |]. right. auto.
Qed.

(** X1: the tree-sum bound is an invariant of [memory_guarantee] sets as long
    as the 64-bit sum of the check does not wrap: from a state in which no
    value is staged and the committed guarantees plus the reserve are within
    the total memory, a set (accepted or refused) leads to such a state, and
    a refused set leaves every committed guarantee as it was. *)
Theorem memory_guarantee_bound_kept (h : THost) (root : TTree)
    (cur : list nat) (value : string) (error : EError) (root' : TTree) :
  committed root ->
  SumMemGuarantee root + memory_guarantee_reserve h <= GetTotalMemory h ->
  (forall c v,
     tree_get root cur = Some c -> size_of_string h value = Some v ->
     0 <= SumMemGuarantee root - MemGuarantee c + v /\
     0 <= memory_guarantee_reserve h /\
     SumMemGuarantee root - MemGuarantee c + v + memory_guarantee_reserve h
       < 2 ^ 64) ->
  TMemoryGuarantee_Set h root cur value = Some (error, root') ->
  committed root' /\
  SumMemGuarantee root' + memory_guarantee_reserve h <= GetTotalMemory h /\
  (error <> Success -> SumMemGuarantee root' = SumMemGuarantee root).
Proof.
  intros Hc Hbound Hnowrap Hset.
  destruct (tree_get root cur) as [c |] eqn:Hg.
  2:{ unfold TMemoryGuarantee_Set in Hset. rewrite Hg in Hset. discriminate. }
  rewrite (TMemoryGuarantee_Set_step h root cur c value Hg) in Hset.
  injection Hset as He Hr.
  pose proof (guarantee_step_fields h c
                (GetTotalMemGuarantee root - NewMemGuarantee c) value
                (Hc cur c Hg)) as [Hstaged Hval].
  cbv zeta in Hstaged, Hval.
  set (r := guarantee_step h c
              (GetTotalMemGuarantee root - NewMemGuarantee c) value) in *.
  assert (Hsum : SumMemGuarantee root'
                 = SumMemGuarantee root - MemGuarantee c + MemGuarantee (snd r)).
  { rewrite <- Hr. apply (SumMemGuarantee_update _ cur root c Hg). }
  split.
  { rewrite <- Hr. apply (committed_update root cur c); assumption. }
  destruct Hval as [Hsame | (Hok & Hv & Hcheck)].
  - rewrite Hsum, Hsame. split; [lia |]. intros _. lia.
  - split; [| intros Hne; congruence].
    destruct (Hnowrap c (MemGuarantee (snd r)) eq_refl Hv) as (H0 & Hres & H64).
    rewrite (committed_sum root Hc), (Hc cur c Hg) in Hcheck.
    apply Z.ltb_ge in Hcheck. unfold add64, wrap64 in Hcheck.
    rewrite (Z.mod_small (SumMemGuarantee root - MemGuarantee c
                          + MemGuarantee (snd r))) in Hcheck by lia.
    rewrite Z.mod_small in Hcheck by lia.
    rewrite Hsum. lia.
Qed.

Lemma memory_guarantee_bound_kept_witness :
  committed (tree_after
               (TMemoryGuarantee_Set small_host two_children [0%nat] "60")
               two_children) /\
  SumMemGuarantee (tree_after
                     (TMemoryGuarantee_Set small_host two_children [0%nat] "60")
                     two_children)
    + memory_guarantee_reserve small_host <= GetTotalMemory small_host.
Proof.
  assert (Hc : committed two_children).
  { intros path c E.
    destruct path as [|[|[|n]] [|[|m] path]]; cbn in E;
      try discriminate; try (injection E as <-; reflexivity);
      destruct n; discriminate. }
  pose proof (memory_guarantee_bound_kept small_host two_children [0%nat] "60"
                Success
                (tree_after
                   (TMemoryGuarantee_Set small_host two_children [0%nat] "60")
                   two_children) Hc) as H.
  cbv beta in H.
  assert (H' := fun A B => H A B eq_refl). clear H.
  assert (Hb : SumMemGuarantee two_children
               + memory_guarantee_reserve small_host
               <= GetTotalMemory small_host) by (vm_compute; congruence).
  assert (Hw : forall c v,
             tree_get two_children [0%nat] = Some c ->
             size_of_string small_host "60" = Some v ->
             0 <= SumMemGuarantee two_children - MemGuarantee c + v /\
             0 <= memory_guarantee_reserve small_host /\
             SumMemGuarantee two_children - MemGuarantee c + v
               + memory_guarantee_reserve small_host < 2 ^ 64).
  { intros c v Hget Hv. cbn in Hget. injection Hget as <-.
    vm_compute in Hv. injection Hv as <-. vm_compute.
    repeat split; congruence. }
  destruct (H' Hb Hw) as (H1 & H2 & _). split; assumption.
Defined.

(* ===================================================================== *)
(** * More of util/string.cpp *)
(* ===================================================================== *)

(** ** Prefixes, suffixes and digits *)

Section Substrings.

Local Open Scope string_scope.
Local Open Scope nat_scope.

Lemma length_append (a b : string) :
  String.length (a ++ b) = String.length a + String.length b.
Proof. induction a as [|c a IH]; simpl; [reflexivity | now rewrite IH]. Qed.

Lemma contains_append (a b : string) (c : ascii) :
  contains (a ++ b) c = contains a c || contains b c.
Proof.
  induction a as [|x a IH]; [reflexivity |].
  simpl. rewrite IH. apply orb_assoc.
Qed.

Lemma substring_all (s : string) : substring 0 (String.length s) s = s.
Proof. induction s as [|c s IH]; simpl; [reflexivity | now rewrite IH]. Qed.

Lemma substring_append_l (a b : string) :
  substring 0 (String.length a) (a ++ b) = a.
Proof.
  induction a as [|c a IH]; simpl; [apply substring_0_0 | now rewrite IH].
Qed.

Lemma substring_append_r (a b : string) (n : nat) :
  substring (String.length a) n (a ++ b) = substring 0 n b.
Proof. induction a as [|c a IH]; simpl; [reflexivity | exact IH]. Qed.

Lemma substring_split (n : nat) (s : string) :
  n <= String.length s ->
  s = substring 0 n s ++ substring n (String.length s - n) s.
Proof.
  revert s. induction n as [|n IH]; intros s Hn.
  - rewrite substring_0_0, Nat.sub_0_r, substring_all. reflexivity.
  - destruct s as [|c s]; simpl in Hn; [lia |].
    simpl. rewrite <- IH by lia. reflexivity.
Qed.

Lemma StringStartsWith_iff (str prefix : string) :
  StringStartsWith str prefix = true <-> exists rest, str = prefix ++ rest.
Proof.
  unfold StringStartsWith. split.
  - destruct (Nat.ltb_spec (String.length str) (String.length prefix));
      [discriminate |].
    intros E. apply String.eqb_eq in E.
    exists (substring (String.length prefix)
              (String.length str - String.length prefix) str).
    rewrite (substring_split (String.length prefix) str) at 1 by assumption.
    rewrite E. reflexivity.
  - intros [rest ->].
    destruct (Nat.ltb_spec (String.length (prefix ++ rest))
                (String.length prefix)) as [Hlt |];
      [rewrite length_append in Hlt; lia |].
    rewrite substring_append_l. apply String.eqb_refl.
Qed.

Lemma StringEndsWith_iff (str sfx : string) :
  StringEndsWith str sfx = true <-> exists rest, str = rest ++ sfx.
Proof.
  unfold StringEndsWith. split.
  - destruct (Nat.ltb_spec (String.length str) (String.length sfx));
      [discriminate |].
    intros E. apply String.eqb_eq in E.
    exists (substring 0 (String.length str - String.length sfx) str).
    rewrite (substring_split (String.length str - String.length sfx) str)
      at 1 by lia.
    replace (String.length str - (String.length str - String.length sfx))
      with (String.length sfx) by lia.
    rewrite E. reflexivity.
  - intros [rest ->].
    destruct (Nat.ltb_spec (String.length (rest ++ sfx))
                (String.length sfx)) as [Hlt |];
      [rewrite length_append in Hlt; lia |].
    rewrite length_append, Nat.add_sub, substring_append_r, substring_all.
    apply String.eqb_refl.
Qed.

(** The set ["0123456789"] holds exactly the characters 48 to 57. *)
Lemma digit_contains (c : ascii) :
  contains "0123456789" c = true <-> 48 <= nat_of_ascii c <= 57.
Proof.
  destruct c as [[] [] [] [] [] [] [] []]; vm_compute;
    (split; [intros H; try discriminate H; split; repeat constructor
            | intros [H1 H2]; try reflexivity; exfalso; lia]).
Qed.

Lemma StringOnlyDigits_iff (s : string) :
  StringOnlyDigits s = true
  <-> forall c, In c (list_ascii_of_string s) -> 48 <= nat_of_ascii c <= 57.
Proof.
  unfold StringOnlyDigits. induction s as [|a s IH].
  - split; [intros _ c [] | reflexivity].
  - cbn [find_first_not_of list_ascii_of_string].
    destruct (contains "0123456789" a) eqn:Ha.
    + destruct (find_first_not_of "0123456789" s) as [n |]; cbn [option_map].
      * split; [discriminate |]. intros H.
        assert (E : false = true); [| discriminate E].
        apply IH. intros c Hc. apply H. right. exact Hc.
      * split; [| reflexivity]. intros _ c [<- | Hc].
        -- apply digit_contains, Ha.
        -- apply IH; [reflexivity | exact Hc].
    + split; [discriminate |]. intros H.
      rewrite (proj2 (digit_contains a)) in Ha; [discriminate Ha |].
      apply H. left. reflexivity.
Qed.

End Substrings.

(** X9: [StringStartsWith(str, prefix)] holds exactly when [str] is [prefix]
    followed by some rest, and [StringEndsWith(str, sfx)] exactly when [str]
    is some rest followed by [sfx]; in particular the empty prefix and
    suffix are accepted by every string. *)
Theorem prefix_and_suffix_tests (str part : string) :
  (StringStartsWith str part = true
   <-> exists rest, str = (part ++ rest)%string) /\
  (StringEndsWith str part = true
   <-> exists rest, str = (rest ++ part)%string).
Proof. split; [apply StringStartsWith_iff | apply StringEndsWith_iff]. Qed.

(** X10: [StringOnlyDigits(s)] holds exactly when every character of [s] is
    one of the ten digits (codes 48 to 57); the empty string passes. *)
Theorem only_digits_test (s : string) :
  (StringOnlyDigits s = true
   <-> forall c, In c (list_ascii_of_string s) ->
                 (48 <= nat_of_ascii c <= 57)%nat) /\
  StringOnlyDigits "" = true.
Proof. split; [apply StringOnlyDigits_iff | reflexivity]. Qed.

(** ** SplitString *)

Section Fields.

Local Open Scope string_scope.

Variable sep : ascii.

(** One [getline]: the field in front, and either the separator and the rest
    of the stream, or the end of the stream. *)
Lemma getline_scan_cases (d : ascii) (ss tok : string) :
  exists pre rest,
    getline_scan d ss tok = (tok ++ pre, rest) /\
    (ss = pre ++ String d rest \/ (ss = pre /\ rest = "")).
Proof.
  revert tok. induction ss as [|c r IH]; intros tok.
  - exists "", "". rewrite append_empty_r. split; [reflexivity | now right].
  - cbn [getline_scan]. destruct (Ascii.eqb_spec c d) as [-> | Hne].
    + exists "", r. rewrite append_empty_r. split; [reflexivity | now left].
    + destruct (IH (tok ++ String c "")) as (pre & rest & E & H).
      exists (String c pre), rest. rewrite E, append_snoc.
      split; [reflexivity |].
      destruct H as [-> | [-> ->]]; [now left | now right].
Qed.

Lemma getline_scan_all (d : ascii) (ss tok : string) :
  contains ss d = false -> getline_scan d ss tok = (tok ++ ss, "").
Proof.
  revert tok. induction ss as [|c r IH]; intros tok H.
  - now rewrite append_empty_r.
  - cbn [contains] in H. apply orb_false_elim in H as [Hc Hr].
    cbn [getline_scan]. rewrite Hc, IH by assumption.
    now rewrite append_snoc.
Qed.

(** The text that is left after the field count has run out goes into the
    last field. *)
Lemma rest_of_line (rest : string) :
  contains rest newline = false ->
  match getline newline rest with
  | Some (rem, ss) => (rem, ss)
  | None => ("", rest)
  end = (rest, "").
Proof.
  intros H. destruct rest as [|c r]; [reflexivity |].
  unfold getline. now rewrite getline_scan_all.
Qed.

Lemma SplitString_loop_end (fuel : nat) (tokens : list string) (m : Z) :
  SplitString_loop fuel sep "" tokens m = tokens.
Proof. destruct fuel; reflexivity. Qed.

Lemma SplitString_loop_line (fuel : nat) :
  forall (ss : string) (tokens : list string) (m : Z),
    (String.length ss <= fuel)%nat ->
    contains ss newline = false ->
    0 < m < 2 ^ 64 ->
    exists new,
      SplitString_loop fuel sep ss tokens m = (tokens ++ new)%list /\
      Z.of_nat (List.length new) <= m /\
      (ss = "" -> new = []) /\
      (ss <> "" -> new <> []) /\
      (ss = join sep new \/ ss = join sep new ++ String sep "").
Proof.
  induction fuel as [|fuel IH]; intros ss tokens m Hlen Hnl Hm.
  - destruct ss; [| simpl in Hlen; lia].
    exists []. rewrite app_nil_r. cbn. repeat split; auto; lia.
  - destruct ss as [|c r].
    { exists []. rewrite app_nil_r. cbn. repeat split; auto; lia. }
    cbn [SplitString_loop getline].
    destruct (getline_scan_cases sep (String c r) "") as (pre & rest & -> & H).
    cbn [append].
    assert (Hw : wrap64 (m - 1) = m - 1).
    { unfold wrap64. apply Z.mod_small. lia. }
    rewrite Hw.
    assert (Hrest : contains rest newline = false /\
                    (String.length rest <= fuel)%nat).
    { destruct H as [E | [_ ->]]; [| split; [reflexivity | simpl; lia]].
      rewrite E in Hnl, Hlen. rewrite contains_append in Hnl.
      apply orb_false_elim in Hnl as [_ Hnl]. cbn [contains] in Hnl.
      apply orb_false_elim in Hnl as [_ Hnl]. split; [exact Hnl |].
      rewrite length_append in Hlen. simpl in Hlen. lia. }
    destruct Hrest as [Hrnl Hrlen].
    destruct (Z.eqb_spec (m - 1) 0) as [Hz | Hz].
    + rewrite rest_of_line by assumption. rewrite SplitString_loop_end.
      eexists. split; [reflexivity |].
      split; [simpl; lia |]. split; [discriminate |].
      split; [discriminate |].
      destruct H as [E | [E ->]].
      * destruct rest as [|a rest']; cbn [String.length Nat.ltb Nat.leb join].
        -- right. exact E.
        -- left. exact E.
      * left. exact E.
    + destruct (IH rest (tokens ++ [pre])%list (m - 1) Hrlen Hrnl)
        as (new & E & Hn & Hempty & Hne & Hj); [lia |].
      exists (pre :: new). rewrite E, <- app_assoc.
      split; [reflexivity |].
      split; [cbn [List.length]; lia |]. split; [discriminate |].
      split; [discriminate |].
      destruct H as [Es | [Es ->]].
      * destruct new as [|t new'].
        -- right. destruct rest as [|a rest']; [exact Es |].
           exfalso. apply Hne; [discriminate | reflexivity].
        -- change (join sep (pre :: t :: new'))
             with (pre ++ String sep (join sep (t :: new'))).
           rewrite Es. destruct Hj as [<- | Hj]; [now left |].
           right. rewrite Hj at 1. rewrite append_assoc. reflexivity.
      * rewrite (Hempty eq_refl). left. exact Es.
Qed.

Lemma getline_shorter (d : ascii) (ss tok rest : string) :
  getline d ss = Some (tok, rest) ->
  (String.length rest < String.length ss)%nat.
Proof.
  destruct ss as [|c r]; [discriminate |]. unfold getline.
  destruct (getline_scan_cases d (String c r) "") as (pre & rest' & -> & H).
  intros [= _ <-]. destruct H as [-> | [_ ->]].
  - rewrite length_append. simpl. lia.
  - simpl. lia.
Qed.

(** More turns than the stream has characters change nothing. *)
Lemma SplitString_loop_fuel (fuel1 : nat) :
  forall (fuel2 : nat) (ss : string) (tokens : list string) (m : Z),
    (String.length ss <= fuel1)%nat ->
    (String.length ss <= fuel2)%nat ->
    SplitString_loop fuel1 sep ss tokens m
    = SplitString_loop fuel2 sep ss tokens m.
Proof.
  induction fuel1 as [|fuel1 IH]; intros fuel2 ss tokens m H1 H2.
  - destruct ss; [| simpl in H1; lia]. now rewrite !SplitString_loop_end.
  - destruct fuel2 as [|fuel2].
    { destruct ss; [| simpl in H2; lia]. now rewrite !SplitString_loop_end. }
    cbn [SplitString_loop].
    destruct (getline sep ss) as [[tok ss'] |] eqn:E; [| reflexivity].
    apply getline_shorter in E.
    destruct (wrap64 (m - 1) =? 0)%Z.
    + destruct (getline newline ss') as [[rem ss''] |] eqn:E'.
      * apply getline_shorter in E'. apply IH; lia.
      * apply IH; lia.
    + apply IH; lia.
Qed.

End Fields.

Lemma SplitString_line (s : string) (sep : ascii) (tokens : list string)
    (maxFields : Z) :
  0 < maxFields < 2 ^ 64 ->
  contains s newline = false ->
  exists new,
    SplitString s sep tokens maxFields = (Success, (tokens ++ new)%list) /\
    Z.of_nat (List.length new) <= maxFields /\
    (s = join sep new \/ s = (join sep new ++ String sep "")%string).
Proof.
  intros Hm Hnl. unfold SplitString.
  destruct (Z.eqb_spec maxFields 0) as [-> | _]; [lia |].
  destruct (SplitString_loop_line sep (String.length s) s tokens maxFields)
    as (new & E & Hn & _ & _ & Hj); auto.
  exists new. rewrite E. auto.
Qed.

(** X7: on a string without a newline and for a field count [maxFields]
    between 1 and 2^64 - 1, [SplitString] succeeds and appends at most
    [maxFields] fields to the vector it is given, whose elements it
    keeps. *)
Theorem SplitString_field_count (s : string) (sep : ascii)
    (tokens : list string) (maxFields : Z) :
  0 < maxFields < 2 ^ 64 ->
  contains s newline = false ->
  exists new,
    SplitString s sep tokens maxFields = (Success, (tokens ++ new)%list) /\
    Z.of_nat (List.length new) <= maxFields.
Proof.
  intros Hm Hnl.
  destruct (SplitString_line s sep tokens maxFields Hm Hnl)
    as (new & E & Hn & _).
  exists new. auto.
Qed.

Lemma SplitString_field_count_witness :
  exists new,
    SplitString "a;b;c" ";" ["x"] 2 = (Success, (["x"] ++ new)%list) /\
    Z.of_nat (List.length new) <= 2.
Proof.
  apply (SplitString_field_count "a;b;c" ";" ["x"] 2); [lia | reflexivity].
Defined.

(** X8: on a string without a newline and for a field count between 1 and
    2^64 - 1, the fields [SplitString] appends, written with the separator
    between them, are the string again, or the string without one
    separator at its end. *)
Theorem SplitString_join (s : string) (sep : ascii) (tokens : list string)
    (maxFields : Z) :
  0 < maxFields < 2 ^ 64 ->
  contains s newline = false ->
  exists new,
    SplitString s sep tokens maxFields = (Success, (tokens ++ new)%list) /\
    (s = join sep new \/ s = (join sep new ++ String sep "")%string).
Proof.
  intros Hm Hnl.
  destruct (SplitString_line s sep tokens maxFields Hm Hnl)
    as (new & E & _ & Hj).
  exists new. auto.
Qed.

Lemma SplitString_join_witness :
  exists new,
    SplitString "a;b;" ";" [] 5 = (Success, ([] ++ new)%list) /\
    ("a;b;" = join ";" new \/ "a;b;" = (join ";" new ++ String ";" "")%string).
Proof.
  apply (SplitString_join "a;b;" ";" [] 5); [lia | reflexivity].
Defined.

(** ** Flag masks as text *)

Lemma uint64_high_clear (f : Z) : uint64 f -> high_clear f.
Proof.
  intros Hf i Hi. unfold uint64 in Hf.
  destruct (Z.eq_dec f 0) as [-> | Hne]; [apply Z.bits_0 |].
  apply Z.bits_above_log2; [lia |].
  apply Z.log2_lt_pow2; [lia |].
  apply Z.lt_le_trans with (2 ^ 64); [lia |].
  apply Z.pow_le_mono_r; lia.
Qed.

Lemma land_not64_ldiff (f m : Z) :
  high_clear f -> Z.land f (not64 m) = Z.ldiff f m.
Proof.
  intros Hf. apply Z.bits_inj'. intros i Hi. unfold not64.
  rewrite Z.land_spec, Z.lxor_spec, Z.ldiff_spec.
  destruct (Z_lt_le_dec i 64) as [Hlt | Hge].
  - rewrite Z.ones_spec_low by lia. now destruct (Z.testbit m i).
  - now rewrite (Hf i Hge).
Qed.

Lemma high_clear_ldiff (f m : Z) : high_clear f -> high_clear (Z.ldiff f m).
Proof. intros Hf i Hi. now rewrite Z.ldiff_spec, (Hf i Hi). Qed.

(** A mask of one bit meets a set exactly when it lies in it. *)
Lemma flag_bit_in (m f : Z) :
  flag_bit m = true -> Z.land m f <> 0 -> Z.land m f = m.
Proof.
  unfold flag_bit. intros H Hne.
  apply andb_prop in H as [H Hp]. apply andb_prop in H as [H0 _].
  apply Z.ltb_lt in H0. apply Z.eqb_eq in Hp.
  pose proof (Z.log2_nonneg m) as Hk. set (k := Z.log2 m) in *.
  destruct (Z.testbit f k) eqn:Hf.
  - apply Z.bits_inj'. intros i Hi. rewrite Z.land_spec, Hp.
    rewrite Z.pow2_bits_eqb by assumption.
    destruct (Z.eqb_spec k i) as [<- | _]; [now rewrite Hf | reflexivity].
  - exfalso. apply Hne. apply Z.bits_inj'. intros i Hi.
    rewrite Z.land_spec, Z.bits_0, Hp, Z.pow2_bits_eqb by assumption.
    destruct (Z.eqb_spec k i) as [<- | _]; [now rewrite Hf | reflexivity].
Qed.

Ltac bits H i :=
  apply (testbit_of_eq _ _ i) in H;
  repeat first [rewrite Z.land_spec in H | rewrite Z.lor_spec in H
               | rewrite Z.ldiff_spec in H | rewrite Z.bits_0 in H].

Ltac bitwise i :=
  apply Z.bits_inj'; intros i _;
  repeat first [rewrite Z.land_spec | rewrite Z.lor_spec
               | rewrite Z.ldiff_spec | rewrite Z.bits_0].

Lemma flags_union_emitted (names : TFlagsNames) :
  forall flags,
    high_clear flags ->
    Forall (fun n => flag_bit (fst n) = true) names ->
    flags_union (emitted names flags) = Z.land flags (flags_union names).
Proof.
  induction names as [|[m n] names IH]; intros f Hf Hb.
  - cbn. now rewrite Z.land_0_r.
  - inversion Hb as [|x l Hm Hb']; subst. cbn [fst] in Hm.
    cbn [emitted flags_union fold_right fst].
    fold (flags_union names).
    destruct (Z.eqb_spec (Z.land m f) 0) as [Hz | Hnz]; cbn [negb].
    + rewrite IH by assumption.
      bitwise i. bits Hz i.
      destruct (Z.testbit m i), (Z.testbit f i); simpl in *;
        try reflexivity; discriminate.
    + pose proof (flag_bit_in m f Hm Hnz) as Hin.
      cbn [flags_union fold_right fst]. fold (flags_union (emitted names (Z.land f (not64 m)))).
      rewrite land_not64_ldiff by assumption.
      rewrite IH by (try apply high_clear_ldiff; assumption).
      bitwise i. bits Hin i.
      destruct (Z.testbit m i), (Z.testbit f i),
        (Z.testbit (flags_union names) i); simpl in *;
        try reflexivity; discriminate.
Qed.

Lemma leftover_covered (names : TFlagsNames) :
  forall flags,
    high_clear flags ->
    subset flags (flags_union names) ->
    leftover names flags = 0.
Proof.
  induction names as [|[m n] names IH]; intros f Hf Hs.
  - unfold subset in Hs. cbn in Hs. rewrite Z.land_0_r in Hs. now subst.
  - cbn [leftover]. unfold subset in Hs.
    cbn [flags_union fold_right fst] in Hs. fold (flags_union names) in Hs.
    destruct (Z.eqb_spec (Z.land m f) 0) as [Hz | Hnz]; cbn [negb].
    + apply IH; [assumption |]. unfold subset.
      bitwise i. bits Hz i. bits Hs i.
      destruct (Z.testbit m i), (Z.testbit f i),
        (Z.testbit (flags_union names) i); simpl in *;
        try reflexivity; discriminate.
    + rewrite land_not64_ldiff by assumption.
      apply IH; [now apply high_clear_ldiff |]. unfold subset.
      bitwise i. bits Hs i.
      destruct (Z.testbit m i), (Z.testbit f i),
        (Z.testbit (flags_union names) i); simpl in *;
        try reflexivity; discriminate.
Qed.

Section FlagsText.

Local Open Scope string_scope.

Variable sep : ascii.

Lemma format_flags_loop_text (names : TFlagsNames) :
  forall (flags : Z) (first : bool) (s result : string),
    leftover names flags = 0 ->
    format_flags_loop names flags first s result
    = result ++ sep_text s first (map snd (emitted names flags)).
Proof.
  induction names as [|[m n] names IH]; intros f first s result Hl.
  - cbn in Hl. subst f. cbn. now rewrite append_empty_r.
  - cbn [format_flags_loop emitted leftover] in *.
    destruct (negb (Z.land m f =? 0)%Z).
    + rewrite IH by assumption. cbn [map snd sep_text].
      destruct first; cbn [append]; now rewrite ?append_assoc.
    + now apply IH.
Qed.

Lemma getlines_app (tok rest acc : string) :
  contains tok sep = false ->
  getlines sep (tok ++ rest) acc = getlines sep rest (acc ++ tok).
Proof.
  revert acc. induction tok as [|c tok IH]; intros acc H.
  - now rewrite append_empty_r.
  - cbn [contains] in H. apply orb_false_elim in H as [Hc Ht].
    cbn [append getlines]. rewrite Hc, IH by assumption.
    now rewrite append_snoc.
Qed.

Lemma getlines_text (toks : list string) :
  forall tok acc,
    tok <> "" -> contains tok sep = false ->
    Forall (fun t => t <> "" /\ contains t sep = false) toks ->
    getlines sep (tok ++ sep_text (String sep "") false toks) acc
    = (acc ++ tok)%string :: toks.
Proof.
  induction toks as [|t toks IH]; intros tok acc Hne Hc Hall.
  - cbn [sep_text]. rewrite getlines_app by assumption. cbn [getlines].
    destruct (acc ++ tok) eqn:E; [| reflexivity].
    destruct acc; [cbn in E; contradiction | discriminate E].
  - inversion Hall as [|x l [Hne' Hc'] Hall']; subst.
    cbn [sep_text append]. rewrite getlines_app by assumption.
    cbn [getlines]. rewrite Ascii.eqb_refl.
    rewrite (IH t "") by assumption. reflexivity.
Qed.

Lemma find_flag_in (names : TFlagsNames) (m : Z) (n : string) :
  NoDup (map snd names) -> In (m, n) names -> find_flag names n = Some m.
Proof.
  induction names as [|[m0 n0] names IH]; intros Hd Hin; [destruct Hin |].
  cbn [map snd] in Hd. inversion Hd as [|x l Hnot Hd']; subst.
  cbn [find_flag]. destruct (String.eqb_spec n0 n) as [-> | Hne].
  - destruct Hin as [[= ->] | Hin]; [reflexivity |].
    exfalso. apply Hnot. apply (in_map snd) in Hin. exact Hin.
  - destruct Hin as [[= _ ->] | Hin]; [contradiction |]. now apply IH.
Qed.

Lemma emitted_incl (names : TFlagsNames) :
  forall flags e, In e (emitted names flags) -> In e names.
Proof.
  induction names as [|[m n] names IH]; intros f e Hin; [destruct Hin |].
  cbn [emitted] in Hin. destruct (negb (Z.land m f =? 0)%Z).
  - destruct Hin as [<- | Hin]; [now left | right; eauto].
  - right; eauto.
Qed.

Lemma parse_flags_loop_entries (names es : TFlagsNames) :
  NoDup (map snd names) ->
  (forall e, In e es -> In e names /\ trimmed (snd e)) ->
  forall acc,
    parse_flags_loop names (map snd es) acc = Ok (Z.lor acc (flags_union es)).
Proof.
  intros Hd. induction es as [|[m n] es IH]; intros Hes acc.
  - cbn. now rewrite Z.lor_0_r.
  - destruct (Hes (m, n) (or_introl eq_refl)) as [Hin [_ Htrim]].
    cbn [snd] in Htrim. cbn [map snd parse_flags_loop].
    rewrite Htrim, (find_flag_in names m n Hd Hin).
    rewrite IH by (intros e He; apply Hes; now right).
    cbn [flags_union fold_right fst]. now rewrite Z.lor_assoc.
Qed.

Lemma StringParseFlags_Format (names : TFlagsNames) (flags : Z) :
  flags_table sep names ->
  uint64 flags ->
  subset flags (flags_union names) ->
  StringParseFlags (StringFormatFlags flags names (String sep "")) names sep
  = Ok flags.
Proof.
  intros [Hd Hall] Hu Hs. apply uint64_high_clear in Hu.
  unfold StringParseFlags, StringFormatFlags.
  rewrite format_flags_loop_text by now apply leftover_covered.
  cbn [append].
  assert (Hes : forall e, In e (emitted names flags) ->
                          In e names /\ trimmed (snd e)).
  { intros e He. apply emitted_incl in He. split; [exact He |].
    rewrite Forall_forall in Hall. now destruct (Hall e He) as [_ [Ht _]]. }
  assert (Hplain : Forall (fun t => t <> "" /\ contains t sep = false)
                     (map snd (emitted names flags))).
  { apply Forall_forall. intros t Ht. apply in_map_iff in Ht as (e & <- & He).
    apply emitted_incl in He. rewrite Forall_forall in Hall.
    destruct (Hall e He) as [_ [[Hne _] Hc]]. now split. }
  assert (Hlines : getlines sep
                     (sep_text (String sep "") true
                        (map snd (emitted names flags))) ""
                   = map snd (emitted names flags)).
  { destruct (map snd (emitted names flags)) as [|t toks]; [reflexivity |].
    inversion Hplain as [|x l [Hne Hc] Hrest]; subst.
    cbn [sep_text append]. now rewrite getlines_text. }
  rewrite Hlines, parse_flags_loop_entries by assumption.
  rewrite Z.lor_0_l, flags_union_emitted; [now rewrite Hs | exact Hu |].
  eapply Forall_impl; [| exact Hall]. now intros e [Hb _].
Qed.

End FlagsText.

(** X11: for a table of one-bit masks under distinct, non-empty, trimmed
    names without the separator, and for a 64-bit value [flags] with bits
    of the table only, [StringParseFlags] reads the text that
    [StringFormatFlags] writes for [flags] back as [flags]. *)
Theorem flags_round_trip (names : TFlagsNames) (sep : ascii) (flags : Z) :
  flags_table sep names ->
  uint64 flags ->
  subset flags (flags_union names) ->
  StringParseFlags (StringFormatFlags flags names (String sep "")) names sep
  = Ok flags.
Proof. apply StringParseFlags_Format. Qed.

Lemma sample_flags_table : flags_table ";" (ControllersName sample_host).
Proof.
  split.
  - cbn. repeat constructor; cbn; intuition discriminate.
  - repeat constructor; cbn; try discriminate; reflexivity.
Qed.

Lemma flags_round_trip_witness :
  StringFormatFlags 6 (ControllersName sample_host) ";" = "memory;cpu"%string /\
  StringParseFlags (StringFormatFlags 6 (ControllersName sample_host) ";")
    (ControllersName sample_host) ";" = Ok 6.
Proof.
  split; [reflexivity |].
  apply (flags_round_trip (ControllersName sample_host) ";" 6).
  - exact sample_flags_table.
  - unfold uint64. lia.
  - reflexivity.
Defined.

(** X12: on a stopped container whose [Controllers] holds its
    [RequiredControllers] and only bits of the table [ControllersName] (a
    table of one-bit masks under distinct, non-empty, trimmed names without
    [;]), setting [controllers] to the text that its [Get] returns succeeds
    and stores the same mask. *)
Theorem controllers_get_set (h : THost) (c : TContainer) :
  State c = Stopped ->
  controllers_inv c ->
  flags_table ";" (ControllersName h) ->
  uint64 (Controllers c) ->
  subset (Controllers c) (flags_union (ControllersName h)) ->
  TControllers_Set h c (TControllers_Get h c)
  = (Success, SetProp CONTROLLERS (set_Controllers (Controllers c) c)).
Proof.
  intros Hs Hinv Ht Hu Hsub. unfold TControllers_Set, TControllers_Get.
  rewrite IsAliveAndStopped_stopped by assumption. cbn [is_error].
  rewrite StringParseFlags_Format by assumption.
  unfold controllers_inv in Hinv. rewrite Hinv, Z.eqb_refl. reflexivity.
Qed.

Lemma controllers_get_set_witness :
  TControllers_Get sample_host (memory_required Stopped) = "memory"%string /\
  TControllers_Set sample_host (memory_required Stopped)
    (TControllers_Get sample_host (memory_required Stopped))
  = (Success,
     SetProp CONTROLLERS
       (set_Controllers (Controllers (memory_required Stopped))
          (memory_required Stopped))).
Proof.
  split; [reflexivity |].
  apply (controllers_get_set sample_host (memory_required Stopped)).
  - reflexivity.
  - reflexivity.
  - exact sample_flags_table.
  - unfold uint64. cbn. lia.
  - reflexivity.
Defined.

(** ** String maps as text *)

Section PlainSplit.

Local Open Scope string_scope.

Variable sep : ascii.
Hypothesis sep_not_blank : sep <> " "%char.

Lemma char_true_NUL : char_true NUL = false.
Proof. reflexivity. Qed.

Lemma split_loop_plain_char (c : ascii) (r ss : string) (done : TMultiTuple)
    (back : TTuple) :
  Ascii.eqb c sep = false -> Ascii.eqb c backslash = false ->
  split_loop sep NUL (String c r) ss done back
  = split_loop sep NUL r (ss ++ String c "") done back.
Proof.
  intros Hs Hb. cbn [split_loop]. rewrite Hs, Hb, char_true_NUL.
  cbn [andb orb]. destruct r; reflexivity.
Qed.

Lemma split_loop_plain (tok rest ss : string) (done : TMultiTuple)
    (back : TTuple) :
  contains tok sep = false -> contains tok backslash = false ->
  split_loop sep NUL (tok ++ rest) ss done back
  = split_loop sep NUL rest (ss ++ tok) done back.
Proof.
  revert ss. induction tok as [|c tok IH]; intros ss Hs Hb.
  - now rewrite append_empty_r.
  - cbn [contains] in Hs, Hb.
    apply orb_false_elim in Hs as [Hs Hs'].
    apply orb_false_elim in Hb as [Hb Hb'].
    cbn [append]. rewrite split_loop_plain_char, IH by assumption.
    now rewrite append_snoc.
Qed.

Lemma split_loop_sep (rest ss : string) (done : TMultiTuple) (back : TTuple) :
  split_loop sep NUL (String sep rest) ss done back
  = split_loop sep NUL rest "" done (push_token ss back).
Proof.
  cbn [split_loop]. rewrite Ascii.eqb_refl, char_true_NUL. reflexivity.
Qed.

(** Pieces without separator and backslash, written with the separator and
    a blank between them, are read back trimmed. *)
Lemma split_loop_pieces (toks : list string) :
  forall (pad tok : string) (back : TTuple),
    contains (pad ++ tok) sep = false ->
    contains (pad ++ tok) backslash = false ->
    StringTrim (pad ++ tok) default_what = tok -> tok <> "" ->
    Forall (fun t => contains t sep = false /\ contains t backslash = false /\
                     StringTrim (" " ++ t) default_what = t /\ t <> "") toks ->
    split_loop sep NUL
      (pad ++ tok ++ sep_text (String sep " ") false toks) "" [] back
    = [(back ++ tok :: toks)%list].
Proof.
  induction toks as [|t toks IH]; intros pad tok back Hs Hb Htrim Hne Hall.
  - cbn [sep_text]. rewrite append_empty_r.
    rewrite <- (append_empty_r (pad ++ tok)) at 1.
    rewrite split_loop_plain by assumption. cbn [append split_loop].
    unfold push_token. rewrite Htrim.
    destruct tok as [|c tok]; [contradiction |].
    cbn [String.length Nat.ltb Nat.leb]. destruct back; reflexivity.
  - inversion Hall as [|x l (Hs' & Hb' & Htrim' & Hne') Hall']; subst.
    cbn [sep_text append]. rewrite <- append_assoc.
    rewrite split_loop_plain by assumption. cbn [append].
    rewrite split_loop_sep. unfold push_token at 1. rewrite Htrim.
    destruct tok as [|c tok]; [contradiction |].
    cbn [String.length Nat.ltb Nat.leb].
    change (String " " (t ++ sep_text (String sep " ") false toks))
      with (" " ++ t ++ sep_text (String sep " ") false toks).
    assert (Hblank : Ascii.eqb " " sep = false)
      by (apply Ascii.eqb_neq; congruence).
    rewrite (IH " " t); try assumption.
    + now rewrite <- app_assoc.
    + cbn [append contains]. now rewrite Hblank, Hs'.
Qed.

End PlainSplit.

Section Trimmed.

Local Open Scope string_scope.

Lemma trimmed_ends (tok : string) :
  trimmed tok ->
  starts_clean default_what tok /\ drop_back default_what tok = tok.
Proof.
  intros [_ E]. rewrite StringTrim_spec in E.
  assert (Hs : starts_clean default_what tok).
  { rewrite <- E. apply drop_back_starts_clean, drop_front_starts_clean. }
  split; [exact Hs |]. now rewrite drop_front_clean in E.
Qed.

Lemma drop_back_append (a b : string) :
  b <> "" -> drop_back default_what b = b ->
  drop_back default_what (a ++ b) = a ++ b.
Proof.
  intros Hne Hb. induction a as [|c a IH]; [exact Hb |].
  cbn [append drop_back]. rewrite IH.
  destruct (a ++ b) eqn:E; [| reflexivity].
  destruct a; [cbn in E; contradiction | discriminate E].
Qed.

Lemma StringTrim_between (a mid b : string) :
  trimmed a -> trimmed b ->
  StringTrim (a ++ mid ++ b) default_what = a ++ mid ++ b.
Proof.
  intros Ha Hb. destruct (trimmed_ends a Ha) as [Hsa _].
  destruct (trimmed_ends b Hb) as [_ Hbb]. destruct Ha as [Hna _].
  destruct Hb as [Hnb _]. rewrite StringTrim_spec.
  rewrite drop_front_clean.
  - rewrite <- append_assoc. now apply drop_back_append.
  - destruct a; [contradiction | exact Hsa].
Qed.

Lemma StringTrim_blank (tok : string) :
  trimmed tok -> StringTrim (" " ++ tok) default_what = tok.
Proof.
  intros [_ E]. rewrite StringTrim_spec. cbn [append drop_front].
  change (contains default_what " ") with true. cbv iota.
  now rewrite <- StringTrim_spec.
Qed.

End Trimmed.

Lemma map_line_split (kv : string * string) :
  map_token (fst kv) -> map_token (snd kv) ->
  SplitEscapedString_tuple (map_line kv) [] ":" = [fst kv; snd kv].
Proof.
  destruct kv as [k v]. cbn [fst snd].
  intros (Hk & _ & Hkc & Hkb) (Hv & _ & Hvc & Hvb).
  unfold SplitEscapedString_tuple, SplitEscapedString, map_line.
  cbn [fst snd].
  replace (k ++ ": " ++ v)%string
    with ("" ++ k ++ sep_text (String ":" " ") false [v])%string
    by (cbn [sep_text append]; now rewrite append_empty_r).
  rewrite split_loop_pieces; try assumption; try reflexivity.
  - discriminate.
  - apply Hk.
  - apply Hk.
  - repeat constructor; try assumption.
    + now apply StringTrim_blank.
    + apply Hv.
Qed.

Lemma map_line_plain (kv : string * string) :
  map_entry kv ->
  contains (map_line kv) ";" = false /\
  contains (map_line kv) backslash = false /\
  trimmed (map_line kv).
Proof.
  destruct kv as [k v]. unfold map_entry, map_line. cbn [fst snd].
  intros [(Hk & Hks & _ & Hkb) (Hv & Hvs & _ & Hvb)].
  rewrite !contains_append, Hks, Hkb. cbn [append contains].
  rewrite Hvs, Hvb. repeat split.
  - destruct k; [now destruct Hk | discriminate].
  - now apply (StringTrim_between k ": " v).
Qed.

Lemma map_lines_split (m : TStringMap) :
  Forall map_entry m ->
  SplitEscapedString_tuple (sep_text "; " true (map map_line m)) [] ";"
  = map map_line m.
Proof.
  intros Hall. destruct m as [|e m]; [reflexivity |].
  inversion Hall as [|x l He Hm]; subst.
  destruct (map_line_plain e He) as (Hs & Hb & Ht).
  unfold SplitEscapedString_tuple, SplitEscapedString.
  cbn [map sep_text].
  change "; "%string with (String ";" " ").
  rewrite split_loop_pieces; try assumption; try reflexivity.
  - discriminate.
  - apply Ht.
  - apply Ht.
  - apply Forall_forall. intros t Hin.
    apply in_map_iff in Hin as (e' & <- & Hin).
    rewrite Forall_forall in Hm.
    destruct (map_line_plain e' (Hm e' Hin)) as (Hs' & Hb' & Ht').
    repeat split; try assumption.
    + now apply StringTrim_blank.
    + apply Ht'.
Qed.

Lemma map_to_string_loop_text (m : TStringMap) :
  forall str,
    map_to_string_loop m str
    = (str ++ sep_text "; " (negb (0 <? String.length str)%nat)
                (map map_line m))%string.
Proof.
  induction m as [|[k v] m IH]; intros str.
  - cbn. now rewrite append_empty_r.
  - cbn [map_to_string_loop map sep_text]. rewrite IH.
    unfold map_line at 2. cbn [fst snd].
    assert (Hlen : forall a : string,
               (0 <? String.length (a ++ k ++ ": " ++ v))%nat = true).
    { intros a. apply Nat.ltb_lt. rewrite !length_append. simpl. lia. }
    rewrite Hlen. cbn [negb].
    destruct (0 <? String.length str)%nat; cbn [negb];
      now rewrite ?append_assoc.
Qed.

Lemma map_assign_last (m : TStringMap) (k v : string) :
  Forall (fun kv => String.compare k (fst kv) = Gt) m ->
  map_assign m k v = (m ++ [(k, v)])%list.
Proof.
  induction m as [|[k' v'] m IH]; intros Hall; [reflexivity |].
  inversion Hall as [|x l Hk Hm]; subst. cbn [fst] in Hk.
  cbn [map_assign app]. rewrite Hk, IH by assumption. reflexivity.
Qed.

Lemma string_map_loop_lines (m : TStringMap) :
  forall result,
    Forall map_entry m ->
    ordered_keys m ->
    Forall (fun e => Forall (fun kv => String.compare (fst e) (fst kv) = Gt)
                       result) m ->
    string_map_loop (map map_line m) result = Ok (result ++ m)%list.
Proof.
  induction m as [|[k v] m IH]; intros result Hall Hord Hgt.
  - cbn. now rewrite app_nil_r.
  - inversion Hall as [|x l He Hm]; subst.
    inversion Hgt as [|x l Hk Hgt']; subst. cbn [fst] in Hk.
    destruct Hord as [Hlater Hord]. destruct He as [Hkt Hvt].
    cbn [map string_map_loop].
    rewrite map_line_split by assumption. cbn [fst snd] in *.
    destruct Hkt as ([_ ->] & _). destruct Hvt as ([_ ->] & _).
    rewrite map_assign_last by assumption.
    rewrite IH; try assumption.
    + now rewrite <- app_assoc.
    + apply Forall_forall. intros e Hin. apply Forall_app. split.
      * rewrite Forall_forall in Hgt'. now apply Hgt'.
      * constructor; [| constructor].
        rewrite Forall_forall in Hlater. now apply Hlater.
Qed.

Lemma StringToStringMap_of_text (m : TStringMap) :
  ordered_keys m -> Forall map_entry m ->
  StringToStringMap (StringMapToString m) [] = Ok m.
Proof.
  intros Hord Hall. unfold StringToStringMap, StringMapToString.
  rewrite map_to_string_loop_text. cbn [String.length Nat.ltb Nat.leb negb append].
  rewrite map_lines_split by assumption.
  rewrite string_map_loop_lines; try assumption; [reflexivity |].
  apply Forall_forall. intros e _. constructor.
Qed.

(** X13: for a map with its keys in increasing order, as a [std::map] holds
    them, whose keys and values are non-empty, trimmed and free of [;], [:]
    and backslash, [StringToStringMap] reads the text that
    [StringMapToString] writes for it back into an empty map as the same
    map. *)
Theorem string_map_round_trip (m : TStringMap) :
  ordered_keys m -> Forall map_entry m ->
  StringToStringMap (StringMapToString m) [] = Ok m.
Proof. apply StringToStringMap_of_text. Qed.

Lemma two_ulimits_entries :
  ordered_keys two_ulimits /\ Forall map_entry two_ulimits.
Proof.
  split.
  - cbn. repeat constructor.
  - repeat constructor; cbn; discriminate.
Qed.

Lemma string_map_round_trip_witness :
  StringMapToString [("core", "0 0"); ("nofile", "1024 2048")]
  = "core: 0 0; nofile: 1024 2048"%string /\
  StringToStringMap
    (StringMapToString [("core", "0 0"); ("nofile", "1024 2048")]) []
  = Ok [("core", "0 0"); ("nofile", "1024 2048")]%string.
Proof.
  split; [reflexivity |].
  apply (string_map_round_trip two_ulimits); apply two_ulimits_entries.
Defined.

(** X14: on a container that is not dead, whose ulimit map (keys in
    increasing order) has non-empty, trimmed keys and values free of [;],
    [:] and backslash that [ParseUlimit] all accepts, setting [ulimit] to
    the text that its [Get] returns succeeds and stores the same map. *)
Theorem ulimit_get_set (h : THost) (c : TContainer) :
  State c <> Dead ->
  ordered_keys (Ulimit c) -> Forall map_entry (Ulimit c) ->
  check_ulimits h (Ulimit c) = Success ->
  TUlimit_Set h c (TUlimit_Get c)
  = (Success, SetProp ULIMIT (set_Ulimit (Ulimit c) c)).
Proof.
  intros Hs Hord Hall Hcheck. unfold TUlimit_Set, TUlimit_Get.
  rewrite IsAlive_not_dead by assumption. cbn [is_error].
  rewrite StringToStringMap_of_text by assumption.
  rewrite Hcheck. reflexivity.
Qed.

Lemma ulimit_get_set_witness :
  TUlimit_Get (set_Ulimit two_ulimits (new_container None))
  = "core: 0 0; nofile: 1024 2048"%string /\
  TUlimit_Set sample_host (set_Ulimit two_ulimits (new_container None))
    (TUlimit_Get (set_Ulimit two_ulimits (new_container None)))
  = (Success,
     SetProp ULIMIT
       (set_Ulimit (Ulimit (set_Ulimit two_ulimits (new_container None)))
          (set_Ulimit two_ulimits (new_container None)))).
Proof.
  split; [reflexivity |].
  apply (ulimit_get_set sample_host
           (set_Ulimit two_ulimits (new_container None)));
    [discriminate | apply two_ulimits_entries | apply two_ulimits_entries
    | reflexivity].
Defined.

(** ** The ulimit map by index *)

Lemma compare_refl (k : string) : String.compare k k = Eq.
Proof.
  induction k as [|c k IH]; [reflexivity |]. cbn [String.compare].
  unfold Ascii.compare. now rewrite N.compare_refl.
Qed.

Lemma map_find_assign (m : TStringMap) (k v : string) :
  map_find (map_assign m k v) k = Some v.
Proof.
  induction m as [|[k' v'] m IH]; cbn [map_assign map_find].
  - now rewrite String.eqb_refl.
  - destruct (String.compare k k') eqn:E; cbn [map_find].
    + now rewrite String.eqb_refl.
    + now rewrite String.eqb_refl.
    + destruct (String.eqb_spec k k') as [-> | _]; [| exact IH].
      rewrite compare_refl in E. discriminate E.
Qed.

Lemma map_find_assign_other (m : TStringMap) (k v other : string) :
  other <> k -> map_find (map_assign m k v) other = map_find m other.
Proof.
  intros Hne. apply String.eqb_neq in Hne.
  induction m as [|[k' v'] m IH]; cbn [map_assign map_find].
  - now rewrite Hne.
  - destruct (String.compare k k') eqn:E; cbn [map_find].
    + apply String.compare_eq_iff in E. subst k'. now rewrite Hne.
    + now rewrite Hne.
    + now rewrite IH.
Qed.

Lemma map_find_later (m : TStringMap) (k : string) :
  Forall (fun kv => String.compare (fst kv) k = Gt) m -> map_find m k = None.
Proof.
  induction m as [|[k' v'] m IH]; intros Hall; [reflexivity |].
  inversion Hall as [|x l Hk Hm]; subst. cbn [fst] in Hk.
  cbn [map_find]. destruct (String.eqb_spec k k') as [-> | _]; [| now apply IH].
  rewrite compare_refl in Hk. discriminate Hk.
Qed.

Lemma map_find_erase (m : TStringMap) (k : string) :
  ordered_keys m -> map_find (map_erase m k) k = None.
Proof.
  induction m as [|[k' v'] m IH]; intros Hord; [reflexivity |].
  destruct Hord as [Hlater Hord]. cbn [map_erase].
  destruct (String.eqb_spec k k') as [-> | Hne].
  - now apply map_find_later.
  - cbn [map_find]. apply String.eqb_neq in Hne. rewrite Hne. now apply IH.
Qed.

Lemma map_find_erase_other (m : TStringMap) (k other : string) :
  other <> k -> map_find (map_erase m k) other = map_find m other.
Proof.
  intros Hne. apply String.eqb_neq in Hne.
  induction m as [|[k' v'] m IH]; [reflexivity |]. cbn [map_erase].
  destruct (String.eqb_spec k k') as [<- | Hk].
  - cbn [map_find]. now rewrite Hne.
  - cbn [map_find]. now rewrite IH.
Qed.

(** X15: an indexed set of [ulimit] with a non-empty value that
    [ParseUlimit] accepts succeeds; the indexed get of the same key then
    returns that value, and the indexed get of every other key returns what
    it returned before. *)
Theorem ulimit_indexed_store (h : THost) (c : TContainer)
    (index value : string) :
  value <> ""%string ->
  ParseUlimit h index value = Success ->
  fst (TUlimit_SetIndexed h c index value) = Success /\
  TUlimit_GetIndexed (snd (TUlimit_SetIndexed h c index value)) index = value /\
  forall other,
    other <> index ->
    TUlimit_GetIndexed (snd (TUlimit_SetIndexed h c index value)) other
    = TUlimit_GetIndexed c other.
Proof.
  intros Hne Hp. unfold TUlimit_SetIndexed, TUlimit_GetIndexed.
  apply String.eqb_neq in Hne. rewrite Hne, Hp. cbn.
  rewrite map_find_assign. repeat split.
  intros other Ho. now rewrite map_find_assign_other.
Qed.

Lemma ulimit_indexed_store_witness :
  fst (TUlimit_SetIndexed sample_host (new_container None) "core" "0 0")
  = Success /\
  TUlimit_GetIndexed
    (snd (TUlimit_SetIndexed sample_host (new_container None) "core" "0 0"))
    "core" = "0 0"%string.
Proof.
  destruct (ulimit_indexed_store sample_host (new_container None)
              "core" "0 0") as (H1 & H2 & _);
    [discriminate | reflexivity |].
  split; assumption.
Defined.

(** X16: an indexed set of [ulimit] with the empty value succeeds; on a map
    with its keys in increasing order the indexed get of the same key then
    returns the empty string, and the indexed get of every other key
    returns what it returned before. *)
Theorem ulimit_indexed_erase (h : THost) (c : TContainer) (index : string) :
  ordered_keys (Ulimit c) ->
  fst (TUlimit_SetIndexed h c index "") = Success /\
  TUlimit_GetIndexed (snd (TUlimit_SetIndexed h c index "")) index = ""%string /\
  forall other,
    other <> index ->
    TUlimit_GetIndexed (snd (TUlimit_SetIndexed h c index "")) other
    = TUlimit_GetIndexed c other.
Proof.
  intros Hord. unfold TUlimit_SetIndexed, TUlimit_GetIndexed. cbn.
  rewrite map_find_erase by assumption. repeat split.
  intros other Ho. now rewrite map_find_erase_other.
Qed.

Lemma ulimit_indexed_erase_witness :
  fst (TUlimit_SetIndexed sample_host
         (set_Ulimit two_ulimits (new_container None)) "core" "") = Success /\
  TUlimit_GetIndexed
    (snd (TUlimit_SetIndexed sample_host
            (set_Ulimit two_ulimits (new_container None)) "core" ""))
    "core" = ""%string /\
  TUlimit_GetIndexed
    (snd (TUlimit_SetIndexed sample_host
            (set_Ulimit two_ulimits (new_container None)) "core" ""))
    "nofile" = "1024 2048"%string.
Proof.
  destruct (ulimit_indexed_erase sample_host
              (set_Ulimit two_ulimits (new_container None)) "core")
    as (H1 & H2 & H3); [cbn; repeat constructor |].
  split; [exact H1 |]. split; [exact H2 |].
  rewrite H3 by discriminate. reflexivity.
Defined.

(** ** What StringTrim removes *)

Section TrimParts.

Local Open Scope string_scope.

Variable what : string.

Lemma drop_front_parts (s : string) :
  exists l, s = l ++ drop_front what s /\ all_in what l = true.
Proof.
  induction s as [|c s (l & E & Hl)]; [now exists "" |].
  cbn [drop_front]. destruct (contains what c) eqn:Hc.
  - exists (String c l). cbn [append all_in]. rewrite Hc, Hl, <- E. now split.
  - now exists "".
Qed.

Lemma drop_back_parts (s : string) :
  exists r, s = drop_back what s ++ r /\ all_in what r = true.
Proof.
  induction s as [|c s (r & E & Hr)]; [now exists "" |].
  cbn [drop_back]. destruct (drop_back what s) as [|a t] eqn:Hd.
  - cbn [append] in E. subst r. destruct (contains what c) eqn:Hc.
    + exists (String c s). cbn [append all_in]. now rewrite Hc, Hr.
    + exists s. now split.
  - exists r. split; [| exact Hr]. cbn [append] in E |- *. now rewrite <- E.
Qed.

Lemma drop_back_ends_clean (s : string) : ends_clean what (drop_back what s).
Proof.
  induction s as [|c s IH]; [exact I |].
  cbn [drop_back]. destruct (drop_back what s) as [|a t] eqn:Hd.
  - destruct (contains what c) eqn:Hc; [exact I | exact Hc].
  - exact IH.
Qed.

Lemma StringTrim_parts (s : string) :
  exists l r,
    s = l ++ StringTrim s what ++ r /\
    all_in what l = true /\ all_in what r = true /\
    starts_clean what (StringTrim s what) /\
    ends_clean what (StringTrim s what).
Proof.
  rewrite StringTrim_spec.
  destruct (drop_front_parts s) as (l & El & Hl).
  destruct (drop_back_parts (drop_front what s)) as (r & Er & Hr).
  exists l, r. rewrite <- Er, <- El. repeat split; try assumption.
  - apply drop_back_starts_clean, drop_front_starts_clean.
  - apply drop_back_ends_clean.
Qed.

End TrimParts.

(** X17: [StringTrim(s, what)] is [s] without a run of characters of [what]
    at its front and one at its back: [s] is such a run, the result, and
    such a run, and the result neither starts nor ends with a character of
    [what]. *)
Theorem StringTrim_removes_ends (s what : string) :
  exists l r,
    s = (l ++ StringTrim s what ++ r)%string /\
    all_in what l = true /\ all_in what r = true /\
    starts_clean what (StringTrim s what) /\
    ends_clean what (StringTrim s what).
Proof. apply StringTrim_parts. Qed.

(* ===================================================================== *)
(** * More of property.cpp *)
(* ===================================================================== *)

(** ** Capabilities: the bound of the ancestors *)

Lemma TContainer_parent_ind (P : TContainer -> Prop) :
  (forall c, (forall p, Parent c = Some p -> P p) -> P c) ->
  forall c, P c.
Proof.
  intros H.
  refine (fix F (c : TContainer) : P c := _).
  apply H.
  destruct c as [? [p |] ? ? ? ? ? ? ? ? ? ? ? ? ? ? ? ? ? ?];
    cbn [Parent]; intros p' E; [| discriminate E].
  injection E as <-. apply F.
Qed.

Lemma bound_by_ancestors_eq (c : TContainer) (bound : Z) :
  bound_by_ancestors c bound
  = match Parent c with
    | None => bound
    | Some p => bound_by_ancestors p (Z.land bound (Permitted (CapLimit p)))
    end.
Proof. destruct c; reflexivity. Qed.

Lemma ancestors_eq (c : TContainer) :
  ancestors c
  = match Parent c with None => [] | Some p => p :: ancestors p end.
Proof. destruct c; reflexivity. Qed.

Lemma bound_by_ancestors_subset (c : TContainer) :
  forall bound,
    subset (bound_by_ancestors c bound) bound /\
    forall p, In p (ancestors c) ->
              subset (bound_by_ancestors c bound) (Permitted (CapLimit p)).
Proof.
  induction c as [c IH] using TContainer_parent_ind. intros bound.
  rewrite bound_by_ancestors_eq, ancestors_eq.
  destruct (Parent c) as [p |] eqn:E.
  - destruct (IH p eq_refl (Z.land bound (Permitted (CapLimit p))))
      as [Hb Hp].
    split.
    + eapply subset_trans; [exact Hb | apply subset_land_l].
    + intros q [<- | Hq]; [| now apply Hp].
      eapply subset_trans; [exact Hb |].
      rewrite Z.land_comm. apply subset_land_l.
  - split; [apply subset_refl | intros p []].
Qed.

Lemma TCapLimit_CommitLimit_checked (h : THost) (client : TClient)
    (c : TContainer) (limit : TCapabilities) :
  fst (TCapLimit_CommitLimit h client c limit) = Success ->
  uint64 (Permitted limit) ->
  State c = Stopped /\
  subset (Permitted limit) (Permitted (AllCapabilities h)) /\
  subset (Permitted limit) (limit_bound h client c).
Proof.
  unfold TCapLimit_CommitLimit, IsAliveAndStopped. intros H Hu.
  destruct (State c); cbn in H; try discriminate H.
  destruct (Z.eqb_spec (Z.land (Permitted limit)
                          (not64 (Permitted (AllCapabilities h)))) 0)
    as [Ha | _]; cbn in H; [| discriminate H].
  destruct (Z.eqb_spec (Z.land (Permitted limit)
                          (not64 (limit_bound h client c))) 0)
    as [Hb | _]; cbn in H; [| discriminate H].
  repeat split; now apply land_not64_zero.
Qed.

(** X18: a capability limit that [CommitLimit] accepts (64 bits wide) lies
    within [AllCapabilities]; for a principal that is not a superuser it
    lies within the set of the container's mode (os-mode or suid); and
    unless the principal is a superuser and the owner is host root, it lies
    within the limit of every ancestor. *)
Theorem capability_limit_bounded (h : THost) (client : TClient)
    (c : TContainer) (limit : TCapabilities) :
  fst (TCapLimit_CommitLimit h client c limit) = Success ->
  uint64 (Permitted limit) ->
  subset (Permitted limit) (Permitted (AllCapabilities h)) /\
  (IsSuperUser client = false ->
   subset (Permitted limit) (Permitted (mode_capabilities h c))) /\
  (IsSuperUser client && IsRootUser (OwnerCred c) = false ->
   forall p, In p (ancestors c) ->
             subset (Permitted limit) (Permitted (CapLimit p))).
Proof.
  intros H Hu.
  destruct (TCapLimit_CommitLimit_checked h client c limit H Hu)
    as (_ & Hall & Hb).
  split; [exact Hall |]. unfold limit_bound in Hb. split.
  - intros Hsu. rewrite Hsu in Hb. cbn [negb orb] in Hb.
    eapply subset_trans; [exact Hb |].
    apply bound_by_ancestors_subset.
  - intros Hroot p Hp.
    assert (E : negb (IsSuperUser client) || negb (IsRootUser (OwnerCred c))
                = true).
    { rewrite <- negb_andb, Hroot. reflexivity. }
    rewrite E in Hb. eapply subset_trans; [exact Hb |].
    now apply bound_by_ancestors_subset.
Qed.

Lemma capability_limit_bounded_witness :
  fst (TCapLimit_CommitLimit sample_host (mkClient false) child_of_net_admin
         (mkCaps (BIT CAP_NET_ADMIN))) = Success /\
  forall p, In p (ancestors child_of_net_admin) ->
            subset (BIT CAP_NET_ADMIN) (Permitted (CapLimit p)).
Proof.
  split; [reflexivity |].
  apply (capability_limit_bounded sample_host (mkClient false)
           child_of_net_admin (mkCaps (BIT CAP_NET_ADMIN)));
    [reflexivity | vm_compute; split; congruence | reflexivity].
Defined.

(** ** Sets that fail change nothing *)

Lemma TCapLimit_CommitLimit_failed (h : THost) (client : TClient)
    (c : TContainer) (limit : TCapabilities) :
  fst (TCapLimit_CommitLimit h client c limit) <> Success ->
  snd (TCapLimit_CommitLimit h client c limit) = c.
Proof.
  unfold TCapLimit_CommitLimit.
  destruct (is_error (IsAliveAndStopped c)); [reflexivity |].
  destruct (negb _); [reflexivity |].
  destruct (negb _); [reflexivity |]. cbn. congruence.
Qed.

Lemma TCapAmbient_CommitAmbient_failed (h : THost) (client : TClient)
    (c : TContainer) (ambient : TCapabilities) :
  fst (TCapAmbient_CommitAmbient h client c ambient) <> Success ->
  snd (TCapAmbient_CommitAmbient h client c ambient) = c.
Proof.
  unfold TCapAmbient_CommitAmbient.
  destruct (is_error (IsAliveAndStopped c)); [reflexivity |].
  destruct (negb _); [reflexivity |].
  destruct (negb _ && negb _); [reflexivity |].
  destruct (negb _).
  - pose proof (TCapLimit_CommitLimit_failed h client c
                  (mkCaps (Z.lor (Permitted (CapLimit c)) (Permitted ambient))))
      as Hl.
    destruct (TCapLimit_CommitLimit h client c
                (mkCaps (Z.lor (Permitted (CapLimit c)) (Permitted ambient))))
      as [error c1].
    cbn [fst snd] in Hl. destruct error; cbn; try congruence;
      intros _; apply Hl; discriminate.
  - cbn. congruence.
Qed.

(** X19: a set of [capabilities] or of [capabilities_ambient], of the whole
    value or by index, that does not return Success leaves the container
    as it was; this covers an ambient set whose raise of the limit is
    refused. *)
Theorem capability_sets_fail_clean (h : THost) (client : TClient)
    (c : TContainer) (index value : string) :
  (fst (TCapLimit_Set h client c value) <> Success ->
   snd (TCapLimit_Set h client c value) = c) /\
  (fst (TCapLimit_SetIndexed h client c index value) <> Success ->
   snd (TCapLimit_SetIndexed h client c index value) = c) /\
  (fst (TCapAmbient_Set h client c value) <> Success ->
   snd (TCapAmbient_Set h client c value) = c) /\
  (fst (TCapAmbient_SetIndexed h client c index value) <> Success ->
   snd (TCapAmbient_SetIndexed h client c index value) = c).
Proof.
  unfold TCapLimit_Set, TCapLimit_SetIndexed, TCapAmbient_Set,
    TCapAmbient_SetIndexed.
  repeat split.
  - destruct (CapParse h value); [apply TCapLimit_CommitLimit_failed | reflexivity].
  - destruct (CapParse h index); [| reflexivity].
    destruct (StringToBool value); [| reflexivity].
    apply TCapLimit_CommitLimit_failed.
  - destruct (CapParse h value);
      [apply TCapAmbient_CommitAmbient_failed | reflexivity].
  - destruct (CapParse h index); [| reflexivity].
    destruct (StringToBool value); [| reflexivity].
    apply TCapAmbient_CommitAmbient_failed.
Qed.

Lemma apply_request_failed (h : THost) (client : TClient) (c c' : TContainer)
    (r : Request) (e : EError) :
  sets_atomically r = true ->
  apply_request h client c r = Some (e, c') ->
  e <> Success -> c' = c.
Proof.
  destruct r; cbn [sets_atomically apply_request]; try discriminate;
    intros _ [= E] Hne; revert E.
  - unfold TBindDns_Set. destruct (is_error (IsAliveAndStopped c));
      [congruence |]. destruct (StringToBool value); congruence.
  - unfold TIsolate_Set. destruct (is_error (IsAliveAndStopped c));
      [congruence |].
    destruct (value =? "true")%string; [congruence |].
    destruct (value =? "false")%string; congruence.
  - unfold TOomIsFatal_Set. destruct (is_error (IsAlive c)); [congruence |].
    destruct (StringToBool value); congruence.
  - unfold TUlimit_Set. destruct (is_error (IsAlive c)); [congruence |].
    destruct (StringToStringMap value []); [| congruence].
    destruct (is_error (check_ulimits h a)); congruence.
  - unfold TUlimit_SetIndexed. destruct (value =? "")%string; [congruence |].
    destruct (is_error (ParseUlimit h index value)); congruence.
  - unfold TControllers_Set. destruct (is_error (IsAliveAndStopped c));
      [congruence |].
    destruct (StringParseFlags value (ControllersName h) ";"); [| congruence].
    destruct (negb _); congruence.
  - unfold TControllers_SetIndexed.
    destruct (StringParseFlags index (ControllersName h) ";"); [| congruence].
    destruct (StringToBool value); [| congruence].
    destruct (negb _); congruence.
Qed.

(** X20: a set of [bind_dns], [isolate], [oom_is_fatal], [ulimit] (whole or
    by index) or [controllers] (whole or by index) that does not return
    Success leaves the container as it was. *)
Theorem failed_set_changes_nothing (h : THost) (client : TClient)
    (c c' : TContainer) (r : Request) (e : EError) :
  sets_atomically r = true ->
  apply_request h client c r = Some (e, c') ->
  e <> Success -> c' = c.
Proof. apply apply_request_failed. Qed.

Lemma failed_set_changes_nothing_witness :
  apply_request sample_host (mkClient false) (memory_required Stopped)
    (SetControllers "cpu")
  = Some (InvalidValue, memory_required Stopped) /\
  memory_required Stopped = memory_required Stopped.
Proof.
  split; [reflexivity |].
  apply (failed_set_changes_nothing sample_host (mkClient false)
           (memory_required Stopped) (memory_required Stopped)
           (SetControllers "cpu") InvalidValue);
    [reflexivity | reflexivity | discriminate].
Defined.

(** ** Capabilities by index *)

(** X21: when [SanitizeCapabilities] never narrows the limit, an indexed
    set of [capabilities] with value "true" that succeeds is read back: the
    indexed get of the same index returns "true". *)
Theorem capability_indexed_enable (h : THost) (client : TClient)
    (c : TContainer) (index : string) (caps : TCapabilities) :
  sanitize_clamps h ->
  CapParse h index = Ok caps ->
  fst (TCapLimit_SetIndexed h client c index "true") = Success ->
  TCapLimit_GetIndexed h
    (snd (TCapLimit_SetIndexed h client c index "true")) index
  = Ok "true"%string.
Proof.
  intros Hsan Hparse. unfold TCapLimit_SetIndexed, TCapLimit_GetIndexed.
  rewrite Hparse.
  cbn [StringToBool String.eqb Ascii.eqb Bool.eqb].
  intros H. rewrite (TCapLimit_CommitLimit_success _ _ _ _ H).
  set (limit := mkCaps (Z.lor (Permitted (CapLimit c)) (Permitted caps))).
  destruct (Hsan client (SetProp CAPABILITIES (set_CapLimit limit c)))
    as [Hkeep _].
  cbn [SetProp set_PropSet set_CapLimit CapLimit] in Hkeep.
  assert (Hsub : subset (Permitted caps)
                   (Permitted (CapLimit (SanitizeCapabilities h client
                      (SetProp CAPABILITIES (set_CapLimit limit c)))))).
  { eapply subset_trans; [| exact Hkeep]. apply subset_lor_r. }
  unfold subset in Hsub. rewrite Z.land_comm, Hsub, Z.eqb_refl. reflexivity.
Qed.

Lemma capability_indexed_enable_witness :
  fst (TCapLimit_SetIndexed sample_host (mkClient false) net_admin_container
         "NET_BIND_SERVICE" "true") = Success /\
  TCapLimit_GetIndexed sample_host
    (snd (TCapLimit_SetIndexed sample_host (mkClient false)
            net_admin_container "NET_BIND_SERVICE" "true"))
    "NET_BIND_SERVICE"
  = Ok "true"%string.
Proof.
  split; [reflexivity |].
  apply (capability_indexed_enable sample_host (mkClient false)
           net_admin_container "NET_BIND_SERVICE"
           (mkCaps (BIT CAP_NET_BIND_SERVICE))
           (SanitizeCapabilities_spec_clamps sample_host _ eq_refl));
    reflexivity.
Defined.

(** ** memory_limit: the floor *)

Lemma WantControllers_MemLimit (c : TContainer) (mask : Z) :
  MemLimit (snd (WantControllers c mask)) = MemLimit c.
Proof.
  unfold WantControllers.
  destruct (State c); simpl; try (destruct (negb _); simpl); reflexivity.
Qed.

(** X22: [MemLimit] stays zero or at least [min_memory_limit] through every
    set of [memory_limit], accepted or refused; and after a set that
    succeeds the get returns the decimal text of the size that was
    parsed. *)
Theorem memory_limit_floor (h : THost) (c : TContainer) (limit : string) :
  memory_limit_inv h c ->
  memory_limit_inv h (snd (TMemoryLimit_Set h c limit)) /\
  forall new_size,
    fst (TMemoryLimit_Set h c limit) = Success ->
    size_of_string h limit = Some new_size ->
    TMemoryLimit_Get (snd (TMemoryLimit_Set h c limit)) = to_string new_size.
Proof.
  intros Hinv. unfold TMemoryLimit_Set, TMemoryLimit_Get, StringToSize.
  destruct (is_error (IsAlive c)) eqn:Ha.
  { split; [exact Hinv |]. cbn [fst]. intros n E. rewrite E in Ha.
    discriminate Ha. }
  pose proof (WantControllers_MemLimit c (CGROUP_MEMORY h)) as Hm.
  destruct (WantControllers c (CGROUP_MEMORY h)) as [error c1].
  cbn [snd] in Hm.
  assert (Hinv1 : memory_limit_inv h c1)
    by (unfold memory_limit_inv; rewrite Hm; exact Hinv).
  destruct (is_error error) eqn:He.
  { split; [exact Hinv1 |]. cbn [fst]. intros n E. rewrite E in He.
    discriminate He. }
  destruct (size_of_string h limit) as [new_size |]; cbn [fst snd].
  2: { split; [exact Hinv1 | discriminate]. }
  destruct (Z.eqb_spec new_size 0) as [-> | Hnz]; cbn [negb andb].
  - destruct (Z.eqb_spec (MemLimit c1) 0) as [E | _]; cbn [negb fst snd].
    + split; [exact Hinv1 |]. intros n _ [= <-]. now rewrite E.
    + split; [now left |]. now intros n _ [= <-].
  - destruct (Z.ltb_spec new_size (min_memory_limit h)) as [Hlt | Hge];
      cbn [fst snd].
    + split; [exact Hinv1 | discriminate].
    + destruct (Z.eqb_spec (MemLimit c1) new_size) as [E | _];
        cbn [negb fst snd].
      * split; [exact Hinv1 |]. intros n _ [= <-]. now rewrite E.
      * split; [now right |]. now intros n _ [= <-].
Qed.

Lemma memory_limit_floor_witness :
  memory_limit_inv sample_host
    (snd (TMemoryLimit_Set sample_host (new_container None) "2097152")) /\
  TMemoryLimit_Get
    (snd (TMemoryLimit_Set sample_host (new_container None) "2097152"))
  = "2097152"%string.
Proof.
  destruct (memory_limit_floor sample_host (new_container None) "2097152")
    as [Hinv Hget]; [left; reflexivity |].
  split; [exact Hinv |].
  rewrite (Hget 2097152); reflexivity.
Defined.

(** ** controllers by index *)

(** X23: in every state of the container, also Running and Dead, an
    indexed set of [controllers] with value "true" and an index that parses
    succeeds when [Controllers] holds [RequiredControllers]: it adds the
    bits of the index to [Controllers], leaves the state as it is, and the
    indexed get of the same index then returns "true". *)
Theorem controllers_indexed_enable (h : THost) (c : TContainer)
    (index : string) (val : Z) :
  controllers_inv c ->
  StringParseFlags index (ControllersName h) ";" = Ok val ->
  fst (TControllers_SetIndexed h c index "true") = Success /\
  Controllers (snd (TControllers_SetIndexed h c index "true"))
  = Z.lor (Controllers c) val /\
  State (snd (TControllers_SetIndexed h c index "true")) = State c /\
  TControllers_GetIndexed h (snd (TControllers_SetIndexed h c index "true"))
    index = Ok "true"%string.
Proof.
  intros Hinv Hparse. unfold TControllers_SetIndexed, TControllers_GetIndexed.
  rewrite Hparse. cbn [StringToBool String.eqb Ascii.eqb Bool.eqb].
  assert (Hreq : Z.land (Z.lor (Controllers c) val) (RequiredControllers c)
                 = RequiredControllers c).
  { unfold controllers_inv in Hinv. apply Z.bits_inj'. intros i _.
    apply (testbit_of_eq _ _ i) in Hinv. rewrite Z.land_spec in Hinv.
    rewrite Z.land_spec, Z.lor_spec.
    destruct (Z.testbit (Controllers c) i), (Z.testbit val i),
      (Z.testbit (RequiredControllers c) i); simpl in *; congruence. }
  rewrite Hreq, Z.eqb_refl. cbn.
  pose proof (subset_lor_r (Controllers c) val) as Hsub.
  unfold subset in Hsub. rewrite Z.land_comm, Hsub, Z.eqb_refl.
  repeat split.
Qed.

Lemma controllers_indexed_enable_witness :
  fst (TControllers_SetIndexed sample_host (memory_required Running)
         "cpu" "true") = Success /\
  Controllers (snd (TControllers_SetIndexed sample_host
                      (memory_required Running) "cpu" "true")) = 6.
Proof.
  destruct (controllers_indexed_enable sample_host (memory_required Running)
              "cpu" 4) as (H1 & H2 & _); [reflexivity | reflexivity |].
  split; [exact H1 | rewrite H2; reflexivity].
Defined.

(** ** WantControllers, twice *)

Lemma EContainerState_eq_dec (a b : EContainerState) : {a = b} + {a <> b}.
Proof. decide equality. Qed.

Lemma land_lor_both (C m1 m2 : Z) :
  Z.land C m1 = m1 ->
  (Z.land C (Z.lor m1 m2) =? Z.lor m1 m2) = (Z.land C m2 =? m2).
Proof.
  intros H1.
  destruct (Z.eqb_spec (Z.land C m2) m2) as [H2 | H2].
  - apply Z.eqb_eq. rewrite Z.land_lor_distr_r. congruence.
  - apply Z.eqb_neq. intros H. apply H2. apply Z.bits_inj'. intros i _.
    apply (testbit_of_eq _ _ i) in H. rewrite Z.land_spec, Z.lor_spec in H.
    rewrite Z.land_spec.
    destruct (Z.testbit C i), (Z.testbit m1 i), (Z.testbit m2 i);
      simpl in *; congruence.
Qed.

(** X24: two requests for controllers in a row, the first one successful,
    are one request for the union of the two masks: same result, same
    container. *)
Theorem WantControllers_twice (c : TContainer) (m1 m2 : Z) :
  fst (WantControllers c m1) = Success ->
  WantControllers (snd (WantControllers c m1)) m2
  = WantControllers c (Z.lor m1 m2).
Proof.
  destruct (EContainerState_eq_dec (State c) Stopped) as [Hs | Hs].
  - intros _. rewrite (WantControllers_stopped c m1 Hs).
    rewrite (WantControllers_stopped c (Z.lor m1 m2) Hs). cbn [snd].
    rewrite WantControllers_stopped by exact Hs.
    cbn [set_Controllers set_RequiredControllers Controllers
           RequiredControllers State Parent OwnerCred VirtMode CapLimit
           CapAmbient CapAllowed Ulimit MemLimit MemGuarantee NewMemGuarantee
           CpuLimit BindDns Isolate OomIsFatal OomKilled ExitStatus PropSet].
    now rewrite !Z.lor_assoc.
  - rewrite (WantControllers_runtime c m1 Hs).
    rewrite (WantControllers_runtime c (Z.lor m1 m2) Hs).
    destruct (Z.eqb_spec (Z.land (Controllers c) m1) m1) as [H1 | _];
      cbn [fst snd]; [intros _ | discriminate].
    rewrite (WantControllers_runtime c m2 Hs).
    now rewrite (land_lor_both _ _ _ H1).
Qed.

Lemma WantControllers_twice_witness :
  WantControllers (snd (WantControllers (new_container None) 2)) 4
  = WantControllers (new_container None) 6.
Proof.
  apply (WantControllers_twice (new_container None) 2 4). reflexivity.
Defined.

(** ** Booleans: set, then get *)

(** X25: a set of [bind_dns], [isolate] or [oom_is_fatal] that succeeds is
    read back: the get then returns the very string that was set. *)
Theorem boolean_set_then_get (c : TContainer) (value : string) :
  (fst (TBindDns_Set c value) = Success ->
   TBindDns_Get (snd (TBindDns_Set c value)) = value) /\
  (fst (TIsolate_Set c value) = Success ->
   TIsolate_Get (snd (TIsolate_Set c value)) = value) /\
  (fst (TOomIsFatal_Set c value) = Success ->
   TOomIsFatal_Get (snd (TOomIsFatal_Set c value)) = value).
Proof.
  unfold TBindDns_Set, TBindDns_Get, TIsolate_Set, TIsolate_Get,
    TOomIsFatal_Set, TOomIsFatal_Get, StringToBool, BoolToString.
  repeat split.
  - destruct (IsAliveAndStopped c); cbn; try discriminate.
    destruct (String.eqb_spec value "true") as [-> | _]; [reflexivity |].
    destruct (String.eqb_spec value "false") as [-> | _]; [reflexivity |].
    discriminate.
  - destruct (IsAliveAndStopped c); cbn; try discriminate.
    destruct (String.eqb_spec value "true") as [-> | _]; [reflexivity |].
    destruct (String.eqb_spec value "false") as [-> | _]; [reflexivity |].
    discriminate.
  - destruct (IsAlive c); cbn; try discriminate.
    destruct (String.eqb_spec value "true") as [-> | _]; [reflexivity |].
    destruct (String.eqb_spec value "false") as [-> | _]; [reflexivity |].
    discriminate.
Qed.

(* ===================================================================== *)
(** * Aging time, network priority and access level *)
(* ===================================================================== *)

(** ** aging_time *)

(** X26: on a container that is not dead, a set of [aging_time] to a text
    that [stoull] reads as the 64-bit number [n] succeeds; when [n * 1000]
    is below 2^64 the get then returns the decimal text of [n]; from 2^64
    on the product wraps and the stored time, in seconds, is less than
    [n]. *)
Theorem aging_time_seconds (stoull : string -> option Z) (c : TContainer)
    (f : TFields) (time : string) (n : Z) :
  State c <> Dead ->
  stoull time = Some n ->
  uint64 n ->
  fst (TAgingTime_Set stoull c f time) = Success /\
  (n * 1000 < 2 ^ 64 ->
   TAgingTime_Get (snd (TAgingTime_Set stoull c f time)) = to_string n) /\
  (2 ^ 64 <= n * 1000 ->
   AgingTime (snd (TAgingTime_Set stoull c f time)) / 1000 < n).
Proof.
  intros Hs Hp Hn. unfold TAgingTime_Set, TAgingTime_Get, StringToUint64.
  rewrite IsAlive_not_dead by assumption. rewrite Hp. cbn.
  unfold uint64 in Hn. unfold wrap64. repeat split.
  - intros Hlt. rewrite Z.mod_small by lia. now rewrite Z.div_mul by lia.
  - intros Hge.
    pose proof (Z.mod_pos_bound (n * 1000) (2 ^ 64) ltac:(lia)) as Hb.
    pose proof (Z.div_mod (n * 1000) (2 ^ 64) ltac:(lia)) as Hd.
    assert (Hq : 1 <= n * 1000 / 2 ^ 64)
      by (apply Z.div_le_lower_bound; lia).
    apply Z.div_lt_upper_bound; [lia |]. nia.
Qed.

Lemma aging_time_seconds_witness :
  fst (TAgingTime_Set decimal_size (new_container None) (fresh_fields None)
         "60") = Success /\
  TAgingTime_Get (snd (TAgingTime_Set decimal_size (new_container None)
                         (fresh_fields None) "60")) = "60"%string.
Proof.
  destruct (aging_time_seconds decimal_size (new_container None)
              (fresh_fields None) "60" 60) as (H1 & H2 & _);
    [discriminate | reflexivity | unfold uint64; lia |].
  split; [exact H1 | apply H2; lia].
Defined.

(** ** net_priority *)

Lemma uint_assign_bound (m : TUintMap) (k : string) (v : Z) :
  v <= 7 -> Forall (fun kv => snd kv <= 7) m ->
  Forall (fun kv => snd kv <= 7) (uint_assign m k v).
Proof.
  intros Hv. induction m as [|[k' v'] m IH]; intros Hall; cbn [uint_assign].
  - now repeat constructor.
  - inversion Hall as [|x l Hk Hm]; subst.
    destruct (String.compare k k'); constructor; auto.
Qed.

Lemma uint_subscript_bound (m : TUintMap) (k : string) :
  Forall (fun kv => snd kv <= 7) m ->
  Forall (fun kv => snd kv <= 7) (snd (uint_subscript m k)).
Proof.
  intros Hall. unfold uint_subscript.
  destruct (uint_find m k); [exact Hall |].
  cbn [snd]. apply uint_assign_bound; [lia | exact Hall].
Qed.

Lemma existsb_above (m : TUintMap) :
  existsb (fun kv => 7 <? snd kv) m = false ->
  Forall (fun kv => snd kv <= 7) m.
Proof.
  induction m as [|kv m IH]; [constructor |]. cbn [existsb].
  intros H. apply orb_false_elim in H as [Hk Hm].
  constructor; [apply Z.ltb_ge in Hk; exact Hk | now apply IH].
Qed.

(** X27: when every stored network priority is at most 7, it is so again
    after a set of [net_priority] and after an indexed one, accepted or
    refused. *)
Theorem net_priority_bound (h : THost) (CGROUP_NETCLS : Z) (c : TContainer)
    (f : TFields) (prio index value : string) :
  net_priority_inv f ->
  net_priority_inv (snd (TNetPriority_Set h CGROUP_NETCLS c f prio)) /\
  net_priority_inv (snd (TNetPriority_SetIndexed h c f index value)).
Proof.
  intros Hinv. unfold net_priority_inv in *. split.
  - unfold TNetPriority_Set.
    destruct (is_error (IsAlive c)); [exact Hinv |].
    destruct (WantControllers c CGROUP_NETCLS) as [error c1].
    destruct (is_error error); [exact Hinv |].
    destruct (StringToUintMap h prio []) as [new_prio | e]; [| exact Hinv].
    destruct (existsb (fun kv => 7 <? snd kv) new_prio) eqn:E; [exact Hinv |].
    destruct (negb (uint_map_eqb (NetPriority f) new_prio)); [| exact Hinv].
    cbn. now apply existsb_above.
  - unfold TNetPriority_SetIndexed.
    destruct (is_error (IsAlive c)); [exact Hinv |].
    destruct (StringToSize h value) as [val | e]; [| exact Hinv].
    destruct (Z.ltb_spec 7 val) as [_ | Hval]; [exact Hinv |].
    pose proof (uint_subscript_bound (NetPriority f) index Hinv) as Hsub.
    destruct (uint_subscript (NetPriority f) index) as [old map].
    cbn [snd] in Hsub.
    destruct (negb (old =? val)); cbn; [| exact Hsub].
    now apply uint_assign_bound.
Qed.

Lemma uint_find_assign (m : TUintMap) (k : string) (v : Z) :
  uint_find (uint_assign m k v) k = Some v.
Proof.
  induction m as [|[k' v'] m IH]; cbn [uint_assign uint_find].
  - now rewrite String.eqb_refl.
  - destruct (String.compare k k') eqn:E; cbn [uint_find].
    + now rewrite String.eqb_refl.
    + now rewrite String.eqb_refl.
    + destruct (String.eqb_spec k k') as [-> | _]; [| exact IH].
      rewrite compare_refl in E. discriminate E.
Qed.

(** X28: on a container that is not dead, an indexed set of [net_priority]
    to a text that parses to a value of at most 7 succeeds and the indexed
    get of the same index then returns that value; when the index had no
    entry and the value is 0, the entry is created but the property's
    presence bit is left as it was. *)
Theorem net_priority_indexed (h : THost) (c : TContainer) (f : TFields)
    (index prio : string) (val : Z) :
  State c <> Dead ->
  size_of_string h prio = Some val ->
  val <= 7 ->
  fst (TNetPriority_SetIndexed h c f index prio) = Success /\
  TNetPriority_GetIndexed (snd (TNetPriority_SetIndexed h c f index prio))
    index = Ok (to_string val) /\
  (uint_find (NetPriority f) index = None -> val = 0 ->
   PropSetMore (snd (TNetPriority_SetIndexed h c f index prio)) NET_PRIO
   = PropSetMore f NET_PRIO).
Proof.
  intros Hs Hp Hv. unfold TNetPriority_SetIndexed, TNetPriority_GetIndexed,
    StringToSize, uint_subscript.
  rewrite IsAlive_not_dead by assumption. rewrite Hp. cbn [is_error].
  destruct (Z.ltb_spec 7 val) as [Hgt | _]; [lia |].
  destruct (uint_find (NetPriority f) index) as [old |] eqn:E.
  - destruct (Z.eqb_spec old val) as [-> | Hne]; cbn.
    + rewrite E. repeat split.
    + rewrite uint_find_assign. repeat split. discriminate.
  - destruct (Z.eqb_spec 0 val) as [<- | Hne]; cbn.
    + rewrite uint_find_assign. repeat split.
    + rewrite uint_find_assign. repeat split. intros _ ->. contradiction.
Qed.

Lemma net_priority_indexed_witness :
  fst (TNetPriority_SetIndexed sample_host (new_container None)
         (fresh_fields None) "eth0" "5") = Success /\
  TNetPriority_GetIndexed
    (snd (TNetPriority_SetIndexed sample_host (new_container None)
            (fresh_fields None) "eth0" "5")) "eth0" = Ok "5"%string.
Proof.
  destruct (net_priority_indexed sample_host (new_container None)
              (fresh_fields None) "eth0" "5" 5) as (H1 & H2 & _);
    [discriminate | reflexivity | lia |].
  split; assumption.
Defined.

Lemma net_priority_bound_witness :
  net_priority_inv
    (snd (TNetPriority_Set sample_host 16 (new_container None)
            (fresh_fields None) "eth0: 5; default: 9")) /\
  net_priority_inv
    (snd (TNetPriority_SetIndexed sample_host (new_container None)
            (fresh_fields None) "eth0" "7")).
Proof.
  apply (net_priority_bound sample_host 16 (new_container None)
           (fresh_fields None) "eth0: 5; default: 9" "eth0" "7").
  constructor.
Defined.

(** ** enable_porto *)

Lemma TFields_parent_ind (P : TFields -> Prop) :
  (forall f, (forall p, FieldsOfParent f = Some p -> P p) -> P f) ->
  forall f, P f.
Proof.
  intros H.
  refine (fix F (f : TFields) : P f := _).
  apply H. destruct f as [? ? ? [p |] ?]; cbn [FieldsOfParent];
    intros p' E; [| discriminate E].
  injection E as <-. apply F.
Qed.

Lemma parent_below_child_only_eq (f : TFields) :
  parent_below_child_only f
  = match FieldsOfParent f with
    | None => false
    | Some p =>
        if EAccessLevel.rank (AccessLevel p)
           <? EAccessLevel.rank EAccessLevel.ChildOnly
        then true
        else parent_below_child_only p
    end.
Proof. destruct f; reflexivity. Qed.

Lemma fields_ancestors_eq (f : TFields) :
  fields_ancestors f
  = match FieldsOfParent f with
    | None => []
    | Some p => p :: fields_ancestors p
    end.
Proof. destruct f; reflexivity. Qed.

Lemma parent_below_child_only_iff (f : TFields) :
  parent_below_child_only f = true
  <-> exists p, In p (fields_ancestors f) /\
                EAccessLevel.rank (AccessLevel p)
                < EAccessLevel.rank EAccessLevel.ChildOnly.
Proof.
  induction f as [f IH] using TFields_parent_ind.
  rewrite parent_below_child_only_eq, fields_ancestors_eq.
  destruct (FieldsOfParent f) as [p |] eqn:E.
  - destruct (Z.ltb_spec (EAccessLevel.rank (AccessLevel p))
                (EAccessLevel.rank EAccessLevel.ChildOnly)) as [Hlt | Hge].
    + split; [intros _ | reflexivity]. exists p. split; [now left | exact Hlt].
    + rewrite (IH p eq_refl). split.
      * intros (q & Hq & Hlt). exists q. split; [now right | exact Hlt].
      * intros (q & [<- | Hq] & Hlt); [lia |]. now exists q.
  - split; [discriminate | intros (q & [] & _)].
Qed.

(** X29: a set of [enable_porto] that succeeds is read back by the get; one
    that fails leaves the fields as they were; and it is refused with
    Permission exactly when the value is "true", the principal is not a
    superuser, and some ancestor has a level below child-only ("false" or
    "read-only"): the three other literals are never refused. *)
Theorem enable_porto_levels (client : TClient) (f : TFields)
    (value : string) :
  (fst (TEnablePorto_Set client f value) = Success ->
   TEnablePorto_Get (snd (TEnablePorto_Set client f value)) = value) /\
  (fst (TEnablePorto_Set client f value) <> Success ->
   snd (TEnablePorto_Set client f value) = f) /\
  (fst (TEnablePorto_Set client f value) = Permission
   <-> value = "true"%string /\ IsSuperUser client = false /\
       exists p, In p (fields_ancestors f) /\
                 EAccessLevel.rank (AccessLevel p)
                 < EAccessLevel.rank EAccessLevel.ChildOnly).
Proof.
  rewrite <- parent_below_child_only_iff. unfold TEnablePorto_Set.
  destruct (String.eqb_spec value "false") as [-> | H1].
  { cbn. repeat split; try congruence; try discriminate.
    intros (H & _); discriminate H. }
  destruct (String.eqb_spec value "read-only") as [-> | H2].
  { cbn. repeat split; try congruence; try discriminate.
    intros (H & _); discriminate H. }
  destruct (String.eqb_spec value "child-only") as [-> | H3].
  { cbn. repeat split; try congruence; try discriminate.
    intros (H & _); discriminate H. }
  destruct (String.eqb_spec value "true") as [-> | H4].
  - cbn [EAccessLevel.rank Z.ltb Z.compare andb].
    destruct (IsSuperUser client), (parent_below_child_only f); cbn;
      repeat split; try congruence; try discriminate;
      intros (_ & Hs & Hp); discriminate.
  - cbn. repeat split; try congruence; try discriminate.
    intros (H & _); contradiction.
Qed.

(** ** Parsed flags are bits of the table *)

Lemma find_flag_subset (names : TFlagsNames) (name : string) (mask : Z) :
  find_flag names name = Some mask -> subset mask (flags_union names).
Proof.
  induction names as [|[m n] names IH]; [discriminate |].
  cbn [find_flag flags_union fold_right fst]. fold (flags_union names).
  destruct (n =? name)%string.
  - intros [= ->]. apply subset_lor_l.
  - intros H. eapply subset_trans; [apply IH, H | apply subset_lor_r].
Qed.

Lemma subset_lor (a b c : Z) : subset a c -> subset b c -> subset (Z.lor a b) c.
Proof.
  unfold subset. intros Ha Hb. rewrite Z.land_lor_distr_l. congruence.
Qed.

Lemma parse_flags_loop_subset (names : TFlagsNames) (toks : list string) :
  forall acc v,
    subset acc (flags_union names) ->
    parse_flags_loop names toks acc = Ok v ->
    subset v (flags_union names).
Proof.
  induction toks as [|tok toks IH]; intros acc v Hacc; cbn [parse_flags_loop].
  - now intros [= <-].
  - destruct (find_flag names (StringTrim tok default_what)) as [mask |] eqn:E;
      [| discriminate].
    apply IH. apply subset_lor; [exact Hacc |].
    eapply find_flag_subset, E.
Qed.

(** X30: whatever the table, the separator and the text, a value that
    [StringParseFlags] returns holds bits of the table only; so after a set
    of [controllers] that succeeds, [Controllers] holds bits of
    [ControllersName] only. *)
Theorem parsed_flags_in_table (h : THost) (c : TContainer)
    (names : TFlagsNames) (sep : ascii) (str : string) :
  (forall v, StringParseFlags str names sep = Ok v ->
             subset v (flags_union names)) /\
  (fst (TControllers_Set h c str) = Success ->
   subset (Controllers (snd (TControllers_Set h c str)))
     (flags_union (ControllersName h))).
Proof.
  split.
  - intros v. unfold StringParseFlags. apply parse_flags_loop_subset.
    unfold subset. apply Z.land_0_l.
  - unfold TControllers_Set.
    destruct (is_error (IsAliveAndStopped c)) eqn:Ha.
    { cbn [fst]. intros E. rewrite E in Ha. discriminate Ha. }
    destruct (StringParseFlags str (ControllersName h) ";") as [val | e] eqn:E.
    + destruct (negb _); cbn; [discriminate | intros _].
      revert E. unfold StringParseFlags. apply parse_flags_loop_subset.
      unfold subset. apply Z.land_0_l.
    + cbn. intros ->. exfalso. revert E. unfold StringParseFlags.
      generalize (getlines ";" str "") 0.
      induction l as [|tok toks IH]; intros acc; cbn [parse_flags_loop];
        [discriminate |].
      destruct (find_flag _ _); [apply IH | discriminate].
Qed.

(* ===================================================================== *)
(** * The controllers invariant over the modelled setters *)
(* ===================================================================== *)

Lemma TNetPriority_Set_inv (h : THost) (CGROUP_NETCLS : Z) (c : TContainer)
    (f : TFields) (prio : string) :
  controllers_inv c ->
  controllers_inv (snd (fst (TNetPriority_Set h CGROUP_NETCLS c f prio))).
Proof.
  unfold TNetPriority_Set. intros H.
  destruct (is_error (IsAlive c)); [exact H |].
  pose proof (WantControllers_inv c CGROUP_NETCLS H) as Hw.
  destruct (WantControllers c CGROUP_NETCLS) as [error c1]. cbn [snd] in Hw.
  destruct (is_error error); [exact Hw |].
  destruct (StringToUintMap h prio []) as [new_prio | e]; [| exact Hw].
  destruct (existsb _ new_prio); [exact Hw |].
  destruct (negb _); exact Hw.
Qed.

Lemma guarantee_step_inv (h : THost) (c : TContainer) (others : Z)
    (value : string) :
  controllers_inv c -> controllers_inv (snd (guarantee_step h c others value)).
Proof.
  unfold guarantee_step. intros H.
  destruct (is_error (IsAlive c)); [exact H |].
  pose proof (WantControllers_inv c (CGROUP_MEMORY h) H) as Hw.
  destruct (WantControllers c (CGROUP_MEMORY h)) as [error c1].
  cbn [snd] in Hw.
  destruct (is_error error); [exact Hw |].
  destruct (StringToSize h value) as [new_val | e]; [| exact Hw].
  destruct (GetTotalMemory h <? _); [exact Hw |].
  destruct (negb _); exact Hw.
Qed.

Lemma TMemoryGuarantee_Set_inv (h : THost) (root root' : TTree)
    (cur : list nat) (value : string) (error : EError) :
  controllers_inv_tree root ->
  TMemoryGuarantee_Set h root cur value = Some (error, root') ->
  controllers_inv_tree root'.
Proof.
  intros Hinv E. destruct (tree_get root cur) as [c |] eqn:Hg.
  - rewrite (TMemoryGuarantee_Set_step h root cur c value Hg) in E.
    injection E as _ <-. intros path c' Hp.
    destruct (tree_get_update _ cur root path c c' Hg Hp) as [-> | Hold].
    + apply guarantee_step_inv. apply (Hinv cur c Hg).
    + apply (Hinv path c' Hold).
  - unfold TMemoryGuarantee_Set in E. rewrite Hg in E. discriminate E.
Qed.

Lemma TCapLimit_CommitLimit_inv (h : THost) (client : TClient)
    (c : TContainer) (limit : TCapabilities) :
  sanitize_keeps_controllers h ->
  controllers_inv c ->
  controllers_inv (snd (TCapLimit_CommitLimit h client c limit)).
Proof.
  intros Hk H. unfold TCapLimit_CommitLimit.
  destruct (is_error (IsAliveAndStopped c)); [exact H |].
  destruct (negb _); [exact H |].
  destruct (negb _); [exact H |].
  cbn [snd]. unfold controllers_inv in *.
  destruct (Hk client (SetProp CAPABILITIES (set_CapLimit limit c)))
    as [-> ->].
  exact H.
Qed.

Lemma TCapAmbient_CommitAmbient_inv (h : THost) (client : TClient)
    (c : TContainer) (ambient : TCapabilities) :
  sanitize_keeps_controllers h ->
  controllers_inv c ->
  controllers_inv (snd (TCapAmbient_CommitAmbient h client c ambient)).
Proof.
  intros Hk H. unfold TCapAmbient_CommitAmbient.
  destruct (is_error (IsAliveAndStopped c)); [exact H |].
  destruct (negb _); [exact H |].
  destruct (negb _ && negb _); [exact H |].
  assert (G : forall error c1,
             controllers_inv c1 ->
             controllers_inv
               (snd (if is_error error then (error, c1)
                     else (Success,
                           SanitizeCapabilities h client
                             (SetProp CAPABILITIES_AMBIENT
                                (set_CapAmbient ambient c1)))))).
  { intros error c1 H1. destruct (is_error error); [exact H1 |].
    cbn [snd]. unfold controllers_inv in *.
    destruct (Hk client (SetProp CAPABILITIES_AMBIENT
                           (set_CapAmbient ambient c1))) as [-> ->].
    exact H1. }
  destruct (negb _).
  - pose proof (TCapLimit_CommitLimit_inv h client c
                  (mkCaps (Z.lor (Permitted (CapLimit c))
                             (Permitted ambient))) Hk H) as Hl.
    destruct (TCapLimit_CommitLimit h client c
                (mkCaps (Z.lor (Permitted (CapLimit c)) (Permitted ambient))))
      as [error c1].
    apply G, Hl.
  - apply (G Success c H).
Qed.

Lemma capability_sets_inv (h : THost) (client : TClient) (c : TContainer)
    (index value : string) :
  sanitize_keeps_controllers h ->
  controllers_inv c ->
  controllers_inv (snd (TCapLimit_Set h client c value)) /\
  controllers_inv (snd (TCapLimit_SetIndexed h client c index value)) /\
  controllers_inv (snd (TCapAmbient_Set h client c value)) /\
  controllers_inv (snd (TCapAmbient_SetIndexed h client c index value)).
Proof.
  intros Hk H.
  unfold TCapLimit_Set, TCapLimit_SetIndexed, TCapAmbient_Set,
    TCapAmbient_SetIndexed.
  repeat split.
  - destruct (CapParse h value); [now apply TCapLimit_CommitLimit_inv | exact H].
  - destruct (CapParse h index); [| exact H].
    destruct (StringToBool value); [| exact H].
    now apply TCapLimit_CommitLimit_inv.
  - destruct (CapParse h value);
      [now apply TCapAmbient_CommitAmbient_inv | exact H].
  - destruct (CapParse h index); [| exact H].
    destruct (StringToBool value); [| exact H].
    now apply TCapAmbient_CommitAmbient_inv.
Qed.

(** C3 (as amended): [WantControllers] and the sets of [memory_limit],
    [cpu_limit], [bind_dns], [isolate], [oom_is_fatal], [ulimit] (whole and
    indexed), [controllers] (whole and indexed), [net_priority] and
    [memory_guarantee] keep [Controllers] a superset of
    [RequiredControllers], whether they succeed or fail, and so do the sets
    of [capabilities] and [capabilities_ambient] (whole and indexed) when
    [SanitizeCapabilities] writes neither mask; an indexed set of
    [controllers], and an explicit set on a stopped container, whose mask
    would drop a required bit returns [InvalidValue] and leaves the
    container unchanged; an explicit set on a container that is not stopped
    returns [InvalidState], whatever the mask, and leaves it unchanged. *)
Theorem C3_controllers_superset (h : THost) (client : TClient)
    (c : TContainer) :
  controllers_inv c ->
  (forall mask, controllers_inv (snd (WantControllers c mask))) /\
  (forall r error c',
     apply_request h client c r = Some (error, c') -> controllers_inv c') /\
  (forall value val,
     State c = Stopped ->
     StringParseFlags value (ControllersName h) ";" = Ok val ->
     Z.land val (RequiredControllers c) <> RequiredControllers c ->
     TControllers_Set h c value = (InvalidValue, c)) /\
  (forall value,
     State c <> Stopped -> TControllers_Set h c value = (InvalidState, c)) /\
  (forall index value val enable,
     StringParseFlags index (ControllersName h) ";" = Ok val ->
     StringToBool value = Ok enable ->
     Z.land (indexed_mask c val enable) (RequiredControllers c)
       <> RequiredControllers c ->
     TControllers_SetIndexed h c index value = (InvalidValue, c)) /\
  (forall CGROUP_NETCLS f prio,
     controllers_inv
       (snd (fst (TNetPriority_Set h CGROUP_NETCLS c f prio)))) /\
  (forall root cur value error root',
     controllers_inv_tree root ->
     TMemoryGuarantee_Set h root cur value = Some (error, root') ->
     controllers_inv_tree root') /\
  (sanitize_keeps_controllers h ->
   forall index value,
     controllers_inv (snd (TCapLimit_Set h client c value)) /\
     controllers_inv (snd (TCapLimit_SetIndexed h client c index value)) /\
     controllers_inv (snd (TCapAmbient_Set h client c value)) /\
     controllers_inv (snd (TCapAmbient_SetIndexed h client c index value))).
Proof.
  intros H. repeat apply conj.
  - intros mask. apply WantControllers_inv, H.
  - intros r error c'. apply apply_request_inv, H.
  - intros value val. apply TControllers_Set_drops_required.
  - intros value. apply TControllers_Set_not_stopped.
  - intros index value val enable.
    apply TControllers_SetIndexed_drops_required.
  - intros N f prio. apply TNetPriority_Set_inv, H.
  - intros root cur value error root'. apply TMemoryGuarantee_Set_inv.
  - intros Hk index value. apply capability_sets_inv; assumption.
Qed.

Lemma SanitizeCapabilities_spec_keeps (h h' : THost) :
  SanitizeCapabilities h = SanitizeCapabilities_spec h' ->
  sanitize_keeps_controllers h.
Proof. intros E client c. rewrite E. split; reflexivity. Qed.

Lemma C3_controllers_superset_witness :
  controllers_inv (snd (TControllers_Set sample_host
                          (memory_required Stopped) "memory;cpu")) /\
  Controllers (snd (TControllers_Set sample_host
                      (memory_required Stopped) "memory;cpu")) = 6 /\
  TControllers_Set sample_host (memory_required Stopped) "cpu"
    = (InvalidValue, memory_required Stopped) /\
  TControllers_SetIndexed sample_host (memory_required Running) "memory" "false"
    = (InvalidValue, memory_required Running) /\
  controllers_inv
    (snd (fst (TNetPriority_Set sample_host 16 (memory_required Stopped)
                 (fresh_fields None) "eth0: 5"))) /\
  Controllers
    (snd (fst (TNetPriority_Set sample_host 16 (memory_required Stopped)
                 (fresh_fields None) "eth0: 5"))) = 18 /\
  controllers_inv_tree
    (tree_after (TMemoryGuarantee_Set small_host two_children [0%nat] "60")
       two_children) /\
  controllers_inv
    (snd (TCapAmbient_Set sample_host (mkClient false)
            (memory_required Stopped) "NET_BIND_SERVICE")).
Proof.
  pose proof (C3_controllers_superset sample_host (mkClient false)
                (memory_required Stopped) eq_refl)
    as (_ & HS1 & HS2 & _ & _ & HN & _ & HC).
  pose proof (C3_controllers_superset sample_host (mkClient false)
                (memory_required Running) eq_refl) as (_ & _ & _ & _ & HR & _).
  pose proof (C3_controllers_superset small_host (mkClient false)
                (memory_required Stopped) eq_refl)
    as (_ & _ & _ & _ & _ & _ & HG & _).
  repeat apply conj.
  - apply (HS1 (SetControllers "memory;cpu") Success). reflexivity.
  - reflexivity.
  - apply (HS2 "cpu"%string 4).
    + reflexivity.
    + reflexivity.
    + vm_compute. discriminate.
  - apply (HR "memory"%string "false"%string 2 false).
    + reflexivity.
    + reflexivity.
    + vm_compute. discriminate.
  - apply HN.
  - reflexivity.
  - apply (HG two_children [0%nat] "60"%string Success).
    + intros path c E.
      destruct path as [|[|[|n]] [|[|m] path]]; cbn in E;
        try discriminate; try (injection E as <-; reflexivity);
        destruct n; discriminate.
    + reflexivity.
  - apply (HC (SanitizeCapabilities_spec_keeps sample_host _ eq_refl)
             ""%string "NET_BIND_SERVICE"%string).
Defined.

(** C3 as stated fails: on a running container that requires the memory
    controller, an explicit set of [controllers] to the empty mask, which
    would drop the required bit, returns [InvalidState], not
    [InvalidValue]. *)
Lemma C3_counterexample :
  State (memory_required Running) = Running /\
  StringParseFlags "" (ControllersName sample_host) ";" = Ok 0 /\
  Z.land 0 (RequiredControllers (memory_required Running)) = 0 /\
  RequiredControllers (memory_required Running) = 2 /\
  TControllers_Set sample_host (memory_required Running) ""
    = (InvalidState, memory_required Running) /\
  InvalidState <> InvalidValue.
Proof. repeat split; discriminate. Qed.

(* ===================================================================== *)
(** * The ambient set and the bound of the limit setter *)
(* ===================================================================== *)








